(** * Session orchestration of the Copilot SDK demo: a shallow embedding

    The development follows [copilot.ts]: the bounded message history cache
    ([addMessageToCache]), the session registry ([deleteSession], the
    user-input hook installed by [createSession] / [getOrCreateSession]) and
    the event handlers that [sendMessage] registers for one exchange. It
    goes on to the session services ([getClient], [createSession],
    [getOrCreateSession], [stopClient], [getSessionMessages],
    [listSessions] and the permission hook), the synchronous mode
    ([sendMessageSync] and the server event that calls it) and the agent
    store the services read ([saveAgent], [deleteAgent], [setDefaultAgent]).

    JavaScript strings are sequences of UTF-16 code units; they are modelled
    as lists of code units so that [length], [slice] and [trim] mean what
    they mean in the source. *)

From Stdlib Require Import ZArith Lia Ascii String.
From stdpp Require Import gmap list.

Local Open Scope Z_scope.
Local Open Scope nat_scope.

(** * The embedding *)

(** ** JavaScript strings *)

Abbreviation jsstring := (list N).

(** A literal of the source, one code unit per (ASCII) character. *)
Definition js (s : string) : jsstring :=
  map N_of_ascii (list_ascii_of_string s).

(** [s.slice(i, j)] for [0 <= i <= j]; both ends are clamped to the length. *)
Definition slice (i j : nat) (s : jsstring) : jsstring :=
  take (j - i) (drop i s).

(** The code units that [String.prototype.trim] strips: WhiteSpace and
    LineTerminator of ECMAScript. *)
Definition isWhiteSpace (c : N) : bool :=
  ((9 <=? c) && (c <=? 13) || (c =? 32) || (c =? 160) || (c =? 5760)
   || (8192 <=? c) && (c <=? 8202) || (c =? 8232) || (c =? 8233)
   || (c =? 8239) || (c =? 8287) || (c =? 12288) || (c =? 65279))%N.

Fixpoint trimStart (s : jsstring) : jsstring :=
  match s with
  | c :: s' => if isWhiteSpace c then trimStart s' else s
  | [] => []
  end.

Definition trimEnd (s : jsstring) : jsstring :=
  reverse (trimStart (reverse s)).

Definition trim (s : jsstring) : jsstring := trimEnd (trimStart s).

(** [a || b] on strings: the empty string is falsy. *)
Definition or_else (a b : jsstring) : jsstring :=
  match a with [] => b | _ => a end.

(** [s.length > 0] *)
Definition nonEmpty (s : jsstring) : bool :=
  match s with [] => false | _ => true end.

(** ** Message history cache *)

Record CacheEntry := { role : jsstring; content : jsstring }.

#[global] Instance CacheEntry_eq_dec : EqDecision CacheEntry.
Proof. solve_decision. Defined.

Abbreviation Cache := (gmap jsstring (list CacheEntry)).

Definition MAX_MESSAGES_PER_SESSION : nat := 100.

(** [messages.splice(0, excess)] when the pushed list is over the limit. *)
Definition trimOldest (messages : list CacheEntry) : list CacheEntry :=
  if decide (MAX_MESSAGES_PER_SESSION < length messages) then
    let excess := length messages - MAX_MESSAGES_PER_SESSION in
    drop excess messages
  else messages.

Definition addMessageToCache (sessionId role content : jsstring)
    (messageHistoryCache : Cache) : Cache :=
  let messages := default [] (messageHistoryCache !! sessionId) in
  let messages := messages ++ [{| role := role; content := content |}] in
  <[sessionId := trimOldest messages]> messageHistoryCache.

(** A sequence of append operations, applied from left to right. *)
Definition appendAll (ops : list (jsstring * jsstring * jsstring))
    (cache : Cache) : Cache :=
  foldl (λ c op, addMessageToCache op.1.1 op.1.2 op.2 c) cache ops.

Definition messagesOf (sessionId : jsstring) (cache : Cache) : list CacheEntry :=
  default [] (cache !! sessionId).

Definition bounded (cache : Cache) : Prop :=
  ∀ sid msgs, cache !! sid = Some msgs → length msgs ≤ MAX_MESSAGES_PER_SESSION.

(** ** One exchange of [sendMessage]

    The events are those of the single-threaded event loop while an exchange
    runs: the runtime events the exchange subscribes to, the timers it
    arms, and the settlement of the promise returned by [session.send].
    An optional payload field that is absent behaves like the empty string
    ([event.data.deltaContent || ""]), and is given as the empty string;
    [toolRequests] is the number of requests the message carries (0 when the
    field is absent). Tool arguments and results are opaque to the
    orchestrator and are carried as text. *)

Inductive Event :=
  | message_delta (deltaContent : jsstring)
  | reasoning_delta (deltaContent : jsstring)
  | tool_execution_start (toolCallId toolName arguments : jsstring)
  | tool_execution_complete (toolCallId result : jsstring)
  | tool_execution_error (toolCallId error : jsstring)
  | assistant_message (content : jsstring) (toolRequests : nat)
  | session_error (message : jsstring)
  | session_idle
  | timeout_fires              (* the DEFAULT_MESSAGE_TIMEOUT timer *)
  | grace_fires                (* setTimeout(() => cleanup(), 100) *)
  | fallback_tick (k : nat)    (* the 15 ms timer of the k-th running streamFallback *)
  | interval_tick              (* setInterval(..., 100) of completionPromise *)
  | send_resolves
  | send_rejects (message : jsstring).

(** What [onToolResult] receives: the tool's result, or [{ error: ... }]. *)
Inductive ToolResult :=
  | Result (result : jsstring)
  | ErrorResult (error : jsstring).

(** Invocations of the caller's callback slots; errors are identified with
    their message. The slots are optional in [SendMessageOptions]
    ([onDelta?.(...)]); the caller in [server.ts] fills all of them, and
    [calls] records the invocations of filled slots. *)
Inductive Callback :=
  | onDelta (content : jsstring)
  | onReasoningDelta (content : jsstring)
  | onToolCall (toolName args toolCallId : jsstring)
  | onToolResult (toolName : jsstring) (result : ToolResult) (toolCallId : jsstring)
  | onComplete (fullContent : jsstring)
  | onError (message : jsstring).

#[global] Instance ToolResult_eq_dec : EqDecision ToolResult.
Proof. solve_decision. Defined.
#[global] Instance Callback_eq_dec : EqDecision Callback.
Proof. solve_decision. Defined.

(** [timeoutHandle]: [null], a timer waiting to fire, or a timer that fired. *)
Inductive Timer := TimerNull | TimerArmed | TimerFired.

Inductive Promise := Pending | Resolved | Rejected (message : jsstring).

(** Where the body of [sendMessage] is suspended; [ProcessExited] when the
    process has ended under it. *)
Inductive Caller := AwaitingSend | AwaitingCompletion | Returned | ProcessExited.

Record Exchange := {
  sessionId : jsstring;
  (* locals of sendMessage *)
  fullContent : jsstring;
  hasDelta : bool;
  completed : bool;
  pendingToolCalls : Z;
  toolNameByCallId : gmap jsstring jsstring;
  cleanupCalled : bool;
  timeoutHandle : Timer;
  listening : bool;                 (* the unsubscribers have not been run *)
  checkComplete : bool;             (* the interval is active *)
  completionPromise : Promise;
  caller : Caller;
  (* suspended work *)
  graceTimer : bool;
  fallbacks : list (jsstring * nat);
  (* module state, and what the caller has seen so far (oldest first) *)
  messageHistoryCache : Cache;
  calls : list Callback
}.

Definition set_fullContent (v : jsstring) (st : Exchange) : Exchange :=
  {| sessionId := sessionId st; fullContent := v; hasDelta := hasDelta st;
     completed := completed st; pendingToolCalls := pendingToolCalls st;
     toolNameByCallId := toolNameByCallId st; cleanupCalled := cleanupCalled st;
     timeoutHandle := timeoutHandle st; listening := listening st;
     checkComplete := checkComplete st; completionPromise := completionPromise st;
     caller := caller st; graceTimer := graceTimer st; fallbacks := fallbacks st;
     messageHistoryCache := messageHistoryCache st; calls := calls st |}.

Definition set_hasDelta (v : bool) (st : Exchange) : Exchange :=
  {| sessionId := sessionId st; fullContent := fullContent st; hasDelta := v;
     completed := completed st; pendingToolCalls := pendingToolCalls st;
     toolNameByCallId := toolNameByCallId st; cleanupCalled := cleanupCalled st;
     timeoutHandle := timeoutHandle st; listening := listening st;
     checkComplete := checkComplete st; completionPromise := completionPromise st;
     caller := caller st; graceTimer := graceTimer st; fallbacks := fallbacks st;
     messageHistoryCache := messageHistoryCache st; calls := calls st |}.

Definition set_completed (v : bool) (st : Exchange) : Exchange :=
  {| sessionId := sessionId st; fullContent := fullContent st; hasDelta := hasDelta st;
     completed := v; pendingToolCalls := pendingToolCalls st;
     toolNameByCallId := toolNameByCallId st; cleanupCalled := cleanupCalled st;
     timeoutHandle := timeoutHandle st; listening := listening st;
     checkComplete := checkComplete st; completionPromise := completionPromise st;
     caller := caller st; graceTimer := graceTimer st; fallbacks := fallbacks st;
     messageHistoryCache := messageHistoryCache st; calls := calls st |}.

Definition set_pendingToolCalls (v : Z) (st : Exchange) : Exchange :=
  {| sessionId := sessionId st; fullContent := fullContent st; hasDelta := hasDelta st;
     completed := completed st; pendingToolCalls := v;
     toolNameByCallId := toolNameByCallId st; cleanupCalled := cleanupCalled st;
     timeoutHandle := timeoutHandle st; listening := listening st;
     checkComplete := checkComplete st; completionPromise := completionPromise st;
     caller := caller st; graceTimer := graceTimer st; fallbacks := fallbacks st;
     messageHistoryCache := messageHistoryCache st; calls := calls st |}.

Definition set_toolNameByCallId (v : gmap jsstring jsstring) (st : Exchange) : Exchange :=
  {| sessionId := sessionId st; fullContent := fullContent st; hasDelta := hasDelta st;
     completed := completed st; pendingToolCalls := pendingToolCalls st;
     toolNameByCallId := v; cleanupCalled := cleanupCalled st;
     timeoutHandle := timeoutHandle st; listening := listening st;
     checkComplete := checkComplete st; completionPromise := completionPromise st;
     caller := caller st; graceTimer := graceTimer st; fallbacks := fallbacks st;
     messageHistoryCache := messageHistoryCache st; calls := calls st |}.

(** The three assignments of [cleanup], at once. *)
Definition set_cleanedUp (st : Exchange) : Exchange :=
  {| sessionId := sessionId st; fullContent := fullContent st; hasDelta := hasDelta st;
     completed := completed st; pendingToolCalls := pendingToolCalls st;
     toolNameByCallId := toolNameByCallId st; cleanupCalled := true;
     timeoutHandle := TimerNull; listening := false;
     checkComplete := checkComplete st; completionPromise := completionPromise st;
     caller := caller st; graceTimer := graceTimer st; fallbacks := fallbacks st;
     messageHistoryCache := messageHistoryCache st; calls := calls st |}.

Definition set_timeoutHandle (v : Timer) (st : Exchange) : Exchange :=
  {| sessionId := sessionId st; fullContent := fullContent st; hasDelta := hasDelta st;
     completed := completed st; pendingToolCalls := pendingToolCalls st;
     toolNameByCallId := toolNameByCallId st; cleanupCalled := cleanupCalled st;
     timeoutHandle := v; listening := listening st;
     checkComplete := checkComplete st; completionPromise := completionPromise st;
     caller := caller st; graceTimer := graceTimer st; fallbacks := fallbacks st;
     messageHistoryCache := messageHistoryCache st; calls := calls st |}.

Definition set_checkComplete (v : bool) (st : Exchange) : Exchange :=
  {| sessionId := sessionId st; fullContent := fullContent st; hasDelta := hasDelta st;
     completed := completed st; pendingToolCalls := pendingToolCalls st;
     toolNameByCallId := toolNameByCallId st; cleanupCalled := cleanupCalled st;
     timeoutHandle := timeoutHandle st; listening := listening st;
     checkComplete := v; completionPromise := completionPromise st;
     caller := caller st; graceTimer := graceTimer st; fallbacks := fallbacks st;
     messageHistoryCache := messageHistoryCache st; calls := calls st |}.

Definition set_completionPromise (v : Promise) (st : Exchange) : Exchange :=
  {| sessionId := sessionId st; fullContent := fullContent st; hasDelta := hasDelta st;
     completed := completed st; pendingToolCalls := pendingToolCalls st;
     toolNameByCallId := toolNameByCallId st; cleanupCalled := cleanupCalled st;
     timeoutHandle := timeoutHandle st; listening := listening st;
     checkComplete := checkComplete st; completionPromise := v;
     caller := caller st; graceTimer := graceTimer st; fallbacks := fallbacks st;
     messageHistoryCache := messageHistoryCache st; calls := calls st |}.

Definition set_caller (v : Caller) (st : Exchange) : Exchange :=
  {| sessionId := sessionId st; fullContent := fullContent st; hasDelta := hasDelta st;
     completed := completed st; pendingToolCalls := pendingToolCalls st;
     toolNameByCallId := toolNameByCallId st; cleanupCalled := cleanupCalled st;
     timeoutHandle := timeoutHandle st; listening := listening st;
     checkComplete := checkComplete st; completionPromise := completionPromise st;
     caller := v; graceTimer := graceTimer st; fallbacks := fallbacks st;
     messageHistoryCache := messageHistoryCache st; calls := calls st |}.

Definition set_graceTimer (v : bool) (st : Exchange) : Exchange :=
  {| sessionId := sessionId st; fullContent := fullContent st; hasDelta := hasDelta st;
     completed := completed st; pendingToolCalls := pendingToolCalls st;
     toolNameByCallId := toolNameByCallId st; cleanupCalled := cleanupCalled st;
     timeoutHandle := timeoutHandle st; listening := listening st;
     checkComplete := checkComplete st; completionPromise := completionPromise st;
     caller := caller st; graceTimer := v; fallbacks := fallbacks st;
     messageHistoryCache := messageHistoryCache st; calls := calls st |}.

Definition set_fallbacks (v : list (jsstring * nat)) (st : Exchange) : Exchange :=
  {| sessionId := sessionId st; fullContent := fullContent st; hasDelta := hasDelta st;
     completed := completed st; pendingToolCalls := pendingToolCalls st;
     toolNameByCallId := toolNameByCallId st; cleanupCalled := cleanupCalled st;
     timeoutHandle := timeoutHandle st; listening := listening st;
     checkComplete := checkComplete st; completionPromise := completionPromise st;
     caller := caller st; graceTimer := graceTimer st; fallbacks := v;
     messageHistoryCache := messageHistoryCache st; calls := calls st |}.

Definition set_messageHistoryCache (v : Cache) (st : Exchange) : Exchange :=
  {| sessionId := sessionId st; fullContent := fullContent st; hasDelta := hasDelta st;
     completed := completed st; pendingToolCalls := pendingToolCalls st;
     toolNameByCallId := toolNameByCallId st; cleanupCalled := cleanupCalled st;
     timeoutHandle := timeoutHandle st; listening := listening st;
     checkComplete := checkComplete st; completionPromise := completionPromise st;
     caller := caller st; graceTimer := graceTimer st; fallbacks := fallbacks st;
     messageHistoryCache := v; calls := calls st |}.

(** Invoke a callback slot of the caller. *)
Definition call (cb : Callback) (st : Exchange) : Exchange :=
  {| sessionId := sessionId st; fullContent := fullContent st; hasDelta := hasDelta st;
     completed := completed st; pendingToolCalls := pendingToolCalls st;
     toolNameByCallId := toolNameByCallId st; cleanupCalled := cleanupCalled st;
     timeoutHandle := timeoutHandle st; listening := listening st;
     checkComplete := checkComplete st; completionPromise := completionPromise st;
     caller := caller st; graceTimer := graceTimer st; fallbacks := fallbacks st;
     messageHistoryCache := messageHistoryCache st; calls := calls st ++ [cb] |}.

(** The three message constants of the source, as UTF-16 code units:
    the default of [session.error], the timeout error, and the default of a
    tool error. *)
Definition unknownErrorMessage : jsstring := [26410; 30693; 38169; 35823]%N.
Definition timeoutErrorMessage : jsstring :=
  [28040; 24687; 21709; 24212; 36229; 26102]%N.
Definition toolFailedMessage : jsstring :=
  [24037; 20855; 25191; 34892; 22833; 36133]%N.

Definition cleanup (st : Exchange) : Exchange :=
  if cleanupCalled st then st else set_cleanedUp st.

Definition finalize (content : jsstring) (st : Exchange) : Exchange :=
  if completed st then st
  else
    let st := set_completed true st in
    let st :=
      if nonEmpty (trim content) then
        set_messageHistoryCache
          (addMessageToCache (sessionId st) (js "assistant") content
             (messageHistoryCache st)) st
      else st in
    let st := call (onComplete content) st in
    set_graceTimer true st.

(** *** [streamFallback]

    A running call is suspended at its [await] with the loop index [i] of the
    iteration it just ran. [streamFallback_loop] is the loop test together
    with what follows it: either one more iteration, up to the next [await],
    or the end of the loop, upon which the [then] callback of the call site
    runs [finalize(fullContent)]. The entry [k] of [fallbacks] is the call
    being run. *)

Definition chunkSize : nat := 24.

Definition streamFallback_loop (k : nat) (content : jsstring) (i : nat)
    (st : Exchange) : Exchange :=
  if decide (i < length content) then
    let chunk := slice i (i + chunkSize) content in
    let st := call (onDelta chunk) st in
    set_fallbacks (<[k := (content, i)]> (fallbacks st)) st
  else
    let st := set_fallbacks (delete k (fallbacks st)) st in
    finalize (fullContent st) st.

Definition streamFallback (content : jsstring) (st : Exchange) : Exchange :=
  let k := length (fallbacks st) in
  let st := set_fallbacks (fallbacks st ++ [(content, 0)]) st in
  streamFallback_loop k content 0 st.

Definition streamFallback_resume (k : nat) (st : Exchange) : Exchange :=
  match fallbacks st !! k with
  | Some (content, i) => streamFallback_loop k content (i + chunkSize) st
  | None => st
  end.

(** *** The event handlers *)

Definition on_message_delta (deltaContent : jsstring) (st : Exchange) : Exchange :=
  let delta := deltaContent in
  let st := if nonEmpty delta then set_hasDelta true st else st in
  let st := set_fullContent (fullContent st ++ delta) st in
  call (onDelta delta) st.

Definition on_reasoning_delta (deltaContent : jsstring) (st : Exchange) : Exchange :=
  let delta := deltaContent in
  if nonEmpty delta then call (onReasoningDelta delta) st else st.

Definition on_tool_execution_start (toolCallId toolName arguments : jsstring)
    (st : Exchange) : Exchange :=
  let st := set_pendingToolCalls (pendingToolCalls st + 1)%Z st in
  let st := set_toolNameByCallId (<[toolCallId := toolName]> (toolNameByCallId st)) st in
  call (onToolCall toolName arguments toolCallId) st.

(** [toolNameByCallId.get(toolCallId) || toolCallId] *)
Definition displayName (toolCallId : jsstring) (st : Exchange) : jsstring :=
  or_else (default [] (toolNameByCallId st !! toolCallId)) toolCallId.

Definition on_tool_execution_complete (toolCallId result : jsstring)
    (st : Exchange) : Exchange :=
  let st := set_pendingToolCalls (Z.max 0 (pendingToolCalls st - 1)) st in
  let name := displayName toolCallId st in
  call (onToolResult name (Result result) toolCallId) st.

Definition on_tool_execution_error (toolCallId error : jsstring)
    (st : Exchange) : Exchange :=
  let st := set_pendingToolCalls (Z.max 0 (pendingToolCalls st - 1)) st in
  let name := displayName toolCallId st in
  call (onToolResult name (ErrorResult (or_else error toolFailedMessage)) toolCallId) st.

Definition on_assistant_message (content : jsstring) (toolRequests : nat)
    (st : Exchange) : Exchange :=
  if bool_decide (0 < toolRequests) && negb (nonEmpty content) then st
  else if bool_decide (0 < pendingToolCalls st)%Z then
    if nonEmpty content && negb (nonEmpty (fullContent st))
    then set_fullContent content st else st
  else if negb (hasDelta st) && nonEmpty content then
    let st := set_fullContent content st in
    streamFallback content st
  else
    let st :=
      if nonEmpty content && negb (nonEmpty (fullContent st))
      then set_fullContent content st else st in
    if nonEmpty content || nonEmpty (fullContent st)
    then finalize (or_else (fullContent st) content) st
    else st.

Definition on_session_error (message : jsstring) (st : Exchange) : Exchange :=
  let st := call (onError (or_else message unknownErrorMessage)) st in
  cleanup st.

Definition on_session_idle (st : Exchange) : Exchange :=
  if negb (completed st) && bool_decide (pendingToolCalls st = 0)%Z
  then finalize (fullContent st) st
  else st.

(** *** [completionPromise] and the body of [sendMessage]

    The [catch] block of [sendMessage] runs when an awaited promise rejects. *)

Definition catch (message : jsstring) (st : Exchange) : Exchange :=
  let st := cleanup st in
  let st := call (onError message) st in
  set_caller Returned st.

Definition resolve (st : Exchange) : Exchange :=
  match completionPromise st with
  | Pending =>
      let st := set_completionPromise Resolved st in
      match caller st with
      | AwaitingCompletion => set_caller Returned st
      | _ => st
      end
  | _ => st
  end.

(** A rejection of [completionPromise] while nothing awaits it is an
    unhandled rejection: no [unhandledRejection] handler is installed, and
    Node (18 and later, which the project requires) then ends the process.
    Nothing of the exchange runs any more: no listener, timer or
    continuation. *)
Definition processExits (st : Exchange) : Exchange :=
  let st := set_cleanedUp st in
  let st := set_checkComplete false st in
  let st := set_graceTimer false st in
  let st := set_fallbacks [] st in
  set_caller ProcessExited st.

Definition reject (message : jsstring) (st : Exchange) : Exchange :=
  match completionPromise st with
  | Pending =>
      let st := set_completionPromise (Rejected message) st in
      match caller st with
      | AwaitingCompletion => catch message st
      | _ => processExits st
      end
  | _ => st
  end.

Definition on_interval (st : Exchange) : Exchange :=
  if completed st then resolve (set_checkComplete false st) else st.

Definition on_timeout (st : Exchange) : Exchange :=
  let st := set_checkComplete false st in
  if negb (completed st) then
    if nonEmpty (fullContent st) then resolve (finalize (fullContent st) st)
    else reject timeoutErrorMessage (cleanup st)
  else resolve st.

(** [await session.send(...)] settles; on success the body goes on to
    [await completionPromise]. *)
Definition on_send_resolves (st : Exchange) : Exchange :=
  match caller st with
  | AwaitingSend =>
      match completionPromise st with
      | Pending => set_caller AwaitingCompletion st
      | Resolved => set_caller Returned st
      | Rejected message => catch message st
      end
  | _ => st
  end.

Definition on_send_rejects (message : jsstring) (st : Exchange) : Exchange :=
  match caller st with
  | AwaitingSend => catch message st
  | _ => st
  end.

(** *** The event loop

    A runtime event reaches its handler while the listeners are attached; a
    timer runs its callback if it is waiting to fire. *)

Definition step (e : Event) (st : Exchange) : Exchange :=
  match e with
  | message_delta d => if listening st then on_message_delta d st else st
  | reasoning_delta d => if listening st then on_reasoning_delta d st else st
  | tool_execution_start id name args =>
      if listening st then on_tool_execution_start id name args st else st
  | tool_execution_complete id r =>
      if listening st then on_tool_execution_complete id r st else st
  | tool_execution_error id err =>
      if listening st then on_tool_execution_error id err st else st
  | assistant_message c n =>
      if listening st then on_assistant_message c n st else st
  | session_error m => if listening st then on_session_error m st else st
  | session_idle => if listening st then on_session_idle st else st
  | timeout_fires =>
      match timeoutHandle st with
      | TimerArmed => on_timeout (set_timeoutHandle TimerFired st)
      | _ => st
      end
  | grace_fires =>
      if graceTimer st then cleanup (set_graceTimer false st) else st
  | fallback_tick k => streamFallback_resume k st
  | interval_tick => if checkComplete st then on_interval st else st
  | send_resolves => on_send_resolves st
  | send_rejects m => on_send_rejects m st
  end.

Definition run (events : list Event) (st : Exchange) : Exchange :=
  foldl (λ s e, step e s) st events.

(** The state in which [sendMessage] issues [session.send]: the handlers are
    registered, the timeout is armed, nothing has been received yet. *)
Definition listeningExchange (sid : jsstring) (cache : Cache) : Exchange :=
  {| sessionId := sid; fullContent := []; hasDelta := false; completed := false;
     pendingToolCalls := 0; toolNameByCallId := ∅; cleanupCalled := false;
     timeoutHandle := TimerArmed; listening := true; checkComplete := true;
     completionPromise := Pending; caller := AwaitingSend; graceTimer := false;
     fallbacks := []; messageHistoryCache := cache; calls := [] |}.

(** The state when [getOrCreateSession] rejected: nothing was registered, the
    [catch] block ran. *)
Definition failedExchange (sid message : jsstring) (cache : Cache) : Exchange :=
  {| sessionId := sid; fullContent := []; hasDelta := false; completed := false;
     pendingToolCalls := 0; toolNameByCallId := ∅; cleanupCalled := true;
     timeoutHandle := TimerNull; listening := false; checkComplete := false;
     completionPromise := Pending; caller := Returned; graceTimer := false;
     fallbacks := []; messageHistoryCache := cache; calls := [onError message] |}.

(** The outcome of [await getOrCreateSession(...)]: a session, or the
    error it rejected with. *)
Inductive Resolution :=
  | SessionResolved
  | ResolutionFailed (message : jsstring).

(** [sendMessage] up to its [await session.send(...)], followed by the events
    of the exchange. With no event at all, the result is the state in which
    [session.send] is issued. *)
Definition sendMessage (resolved : Resolution) (sid prompt : jsstring)
    (cache : Cache) (events : list Event) : Exchange :=
  match resolved with
  | ResolutionFailed message => failedExchange sid message cache
  | SessionResolved =>
      let cache := addMessageToCache sid (js "user") prompt cache in
      run events (listeningExchange sid cache)
  end.

(** ** The completion latch

    The part of an exchange that [finalize] reads and writes: the session,
    the latch, the cache and the contents [onComplete] was invoked with.
    Every event either leaves this view alone or acts on it as one call of
    [finalize]. *)

Definition completions (cs : list Callback) : list jsstring :=
  omap (λ cb, match cb with onComplete c => Some c | _ => None end) cs.

Definition errors (cs : list Callback) : list jsstring :=
  omap (λ cb, match cb with onError m => Some m | _ => None end) cs.

Definition View : Type := jsstring * bool * Cache * list jsstring.

Definition view (st : Exchange) : View :=
  (sessionId st, completed st, messageHistoryCache st, completions (calls st)).

Definition cacheAfter (sid content : jsstring) (cache : Cache) : Cache :=
  if nonEmpty (trim content)
  then addMessageToCache sid (js "assistant") content cache
  else cache.

Definition viewFinalize (content : jsstring) (v : View) : View :=
  let '(sid, latch, cache, cs) := v in
  if latch then v else (sid, true, cacheAfter sid content cache, cs ++ [content]).

(** An event stutters on the view, or finalizes it. *)
Definition advances (v v' : View) : Prop :=
  v' = v ∨ ∃ c, v' = viewFinalize c v.

(** ** The pending tool call counter *)

Definition isStart (e : Event) : bool :=
  match e with tool_execution_start _ _ _ => true | _ => false end.

Definition isTerminal (e : Event) : bool :=
  match e with
  | tool_execution_complete _ _ | tool_execution_error _ _ => true
  | _ => false
  end.

Definition isToolEvent (e : Event) : bool := isStart e || isTerminal e.

Fixpoint countEvents (p : Event → bool) (events : list Event) : nat :=
  match events with
  | [] => 0
  | e :: events => (if p e then 1 else 0) + countEvents p events
  end.

(** The count as the specification words it: the number of starts minus the
    number of terminal events for ids that were started, floored at 0.
    [started] holds the call ids of the starts seen so far. *)
Fixpoint terminalsOfStarted (started : list jsstring) (events : list Event) : nat :=
  match events with
  | [] => 0
  | tool_execution_start id _ _ :: events => terminalsOfStarted (id :: started) events
  | tool_execution_complete id _ :: events
  | tool_execution_error id _ :: events =>
      (if bool_decide (id ∈ started) then 1 else 0)
      + terminalsOfStarted started events
  | _ :: events => terminalsOfStarted started events
  end.

Definition pendingBySpec (events : list Event) : Z :=
  Z.max 0 (Z.of_nat (countEvents isStart events)
           - Z.of_nat (terminalsOfStarted [] events)).

(** ** Fallback streaming of a message that was not streamed *)

Definition ceilDiv (a b : nat) : nat := (a + b - 1) / b.

(** The [j]-th chunk of [streamFallback]: [content.slice(i, i + chunkSize)]
    at [i = j * chunkSize]. *)
Definition chunkAt (content : jsstring) (j : nat) : jsstring :=
  slice (j * chunkSize) (j * chunkSize + chunkSize) content.

Definition chunksOf (content : jsstring) : list jsstring :=
  chunkAt content <$> seq 0 (ceilDiv (length content) chunkSize).

(** The state of the [k]-th [streamFallback] call after its [j]-th chunk. *)
Definition streaming (k : nat) (content : jsstring) (before : list Callback)
    (j : nat) (st : Exchange) : Prop :=
  fallbacks st !! k = Some (content, j * chunkSize)
  ∧ calls st = before ++ (onDelta <$> (chunkAt content <$> seq 0 (S j)))
  ∧ fullContent st = content
  ∧ completed st = false.

(** ** Consistency of the timer, the promise and the caller

    Facts that hold of every state an exchange can reach: after [cleanup]
    the timeout is cleared; [completionPromise] is resolved only after
    completion and rejected only after [cleanup]; the body of [sendMessage]
    has returned only after completion or after [cleanup]. *)

Definition consistent (st : Exchange) : Prop :=
  (cleanupCalled st = true → timeoutHandle st = TimerNull)
  ∧ (completionPromise st = Resolved → completed st = true)
  ∧ (∀ m, completionPromise st = Rejected m → cleanupCalled st = true)
  ∧ (caller st = Returned → completed st = true ∨ cleanupCalled st = true).

(** ** The user input hook *)

Record UserInputRequest := {
  question : jsstring;
  choices : option (list jsstring);
  allowFreeform : option bool
}.

Record UserInputResponse := { answer : jsstring; wasFreeform : bool }.

(** What awaiting a handler yields: its value, its error, or nothing for as
    long as its promise stays pending. *)
Inductive Awaited (A : Type) :=
  | Settled (a : A)
  | Failed (message : jsstring)
  | Hangs.
Arguments Settled {A} a.
Arguments Failed {A} message.
Arguments Hangs {A}.

Abbreviation UserInputHandler := (UserInputRequest → Awaited UserInputResponse).

(** The hook that [createSession] passes to the runtime. [sessionId] is the
    optional argument of [createSession] (empty when absent), [runtimeId] the
    id of the session the runtime created; [id] is bound as in the source. *)
Definition createSession_onUserInputRequest
    (userInputHandlers : gmap jsstring UserInputHandler)
    (sessionId runtimeId : jsstring) (request : UserInputRequest)
    : Awaited UserInputResponse :=
  let id := or_else sessionId runtimeId in
  match userInputHandlers !! or_else id (or_else sessionId []) with
  | Some handler => handler request
  | None => Settled {| answer := []; wasFreeform := true |}
  end.

(** The hook that [getOrCreateSession] passes when it resumes a session. *)
Definition getOrCreateSession_onUserInputRequest
    (userInputHandlers : gmap jsstring UserInputHandler)
    (sessionId : jsstring) (request : UserInputRequest)
    : Awaited UserInputResponse :=
  match userInputHandlers !! sessionId with
  | Some handler => handler request
  | None => Settled {| answer := []; wasFreeform := true |}
  end.

(** ** The session registry: [deleteSession] *)

Module Registry.

(** How an awaited call of the runtime ends. *)
Inductive Outcome :=
  | Fulfilled
  | Thrown (message : jsstring).

(** A session handle, with what its [destroy()] does when awaited. *)
Record CopilotSession := { destroy : Outcome }.

(** The module-level maps [deleteSession] works on. *)
Record State := {
  activeSessions : gmap jsstring CopilotSession;
  sessionAgentMap : gmap jsstring jsstring;
  messageHistoryCache : Cache
}.

(** [try { await session.destroy(); } catch (e) { }] *)
Definition destroyIgnoringErrors (session : CopilotSession) : Outcome :=
  match destroy session with
  | Fulfilled => Fulfilled
  | Thrown _ => Fulfilled
  end.

(** [getClient] is how [await getClient()] ends, [client_deleteSession] how
    [await client.deleteSession(sessionId)] does. The result is the state of
    the maps together with how the call of [deleteSession] ends. *)
Definition deleteSession (getClient : Outcome)
    (client_deleteSession : jsstring → Outcome) (sessionId : jsstring)
    (reg : State) : State * Outcome :=
  match getClient with
  | Thrown message => (reg, Thrown message)
  | Fulfilled =>
      let destroyed :=
        match activeSessions reg !! sessionId with
        | Some session =>
            match destroyIgnoringErrors session with
            | Fulfilled =>
                ({| activeSessions := delete sessionId (activeSessions reg);
                    sessionAgentMap := sessionAgentMap reg;
                    messageHistoryCache := messageHistoryCache reg |}, Fulfilled)
            | Thrown message => (reg, Thrown message)
            end
        | None => (reg, Fulfilled)
        end in
      match destroyed with
      | (reg, Thrown message) => (reg, Thrown message)
      | (reg, Fulfilled) =>
          let reg :=
            {| activeSessions := activeSessions reg;
               sessionAgentMap := delete sessionId (sessionAgentMap reg);
               messageHistoryCache := delete sessionId (messageHistoryCache reg) |} in
          (reg, client_deleteSession sessionId)
      end
  end.

End Registry.

(** ** Exchanges without an error source

    The events that can make the code invoke [onError] on their own: a
    session error of the runtime, and a rejection of [session.send]. *)

Definition quietSource (e : Event) : bool :=
  match e with session_error _ | send_rejects _ => false | _ => true end.

(** What holds of an exchange as long as no such event occurs: a running
    [streamFallback] means a filled buffer; the grace timer is only armed by
    a completion; an open latch means [onComplete] was not invoked; after
    [cleanup] nothing listens and the timeout is cleared; once
    [completionPromise] is rejected nothing can complete the exchange any
    more; and [onError] was invoked at most once, from the [catch] block for
    that rejection. *)
Definition orderly (st : Exchange) : Prop :=
  (fallbacks st ≠ [] → fullContent st ≠ [])
  ∧ (graceTimer st = true → completed st = true)
  ∧ (completed st = false → completions (calls st) = [])
  ∧ (cleanupCalled st = true → timeoutHandle st = TimerNull ∧ listening st = false)
  ∧ (∀ m, completionPromise st = Rejected m →
       completed st = false ∧ listening st = false
       ∧ timeoutHandle st ≠ TimerArmed ∧ fallbacks st = [])
  ∧ (errors (calls st) = []
     ∨ ∃ m, errors (calls st) = [m] ∧ completionPromise st = Rejected m
            ∧ caller st = Returned).

(** [st'] differs from [st] in nothing [orderly] looks at, except that the
    buffer may have grown. *)
Definition benign (st st' : Exchange) : Prop :=
  fallbacks st' = fallbacks st
  ∧ (fullContent st ≠ [] → fullContent st' ≠ [])
  ∧ graceTimer st' = graceTimer st
  ∧ completed st' = completed st
  ∧ cleanupCalled st' = cleanupCalled st
  ∧ timeoutHandle st' = timeoutHandle st
  ∧ listening st' = listening st
  ∧ completionPromise st' = completionPromise st
  ∧ caller st' = caller st
  ∧ completions (calls st') = completions (calls st)
  ∧ errors (calls st') = errors (calls st).

(** An exchange after a session error: nothing listens, no timer or
    [streamFallback] is left that could complete it, and the body of
    [sendMessage] awaits a promise nobody will settle. *)
Definition stuck (st : Exchange) : Prop :=
  listening st = false
  ∧ completed st = false
  ∧ fallbacks st = []
  ∧ graceTimer st = false
  ∧ timeoutHandle st = TimerNull
  ∧ caller st = AwaitingCompletion
  ∧ completionPromise st = Pending.

(** ** The session services

    [getClient], [createSession], [getOrCreateSession], [stopClient],
    [abortSession], [getSessionMessages] and [listSessions] are asynchronous
    functions over the module-level maps that call into the runtime and may
    reject. They are written in a monad that threads the maps, logs every
    call made to the runtime, and carries the rejection. The runtime is an
    oracle: what each of its calls answers. *)

Module Copilot.

Inductive Result (A : Type) :=
  | Ok (a : A)
  | Throws (message : jsstring).
Arguments Ok {A} a.
Arguments Throws {A} message.

(** An event of [session.getMessages()], with the fields of [data] the code
    reads; an absent field is the empty string. *)
Record SessionEvent := {
  eventType : jsstring;
  data_prompt : jsstring;
  data_content : jsstring;
  data_text : jsstring;
  data_message : jsstring
}.

(** A session handle: its [sessionId], and what its methods answer. *)
Record CopilotSession := {
  session_sessionId : jsstring;
  destroy : Registry.Outcome;
  abort : Registry.Outcome;
  getMessages : Result (list SessionEvent)
}.

Inductive PermissionPolicy := ask_user | auto_approve | deny_all.

(** The fields of an agent configuration that the session services read
    ([preferredModel] is empty when absent). *)
Record AgentConfig := {
  id : jsstring;
  isDefault : bool;
  preferredModel : jsstring;
  permissionPolicy : option PermissionPolicy
}.

(** An entry of [client.listSessions()] ([messageCount] is 0 when absent). *)
Record SessionMetadata := {
  meta_sessionId : jsstring;
  meta_createdAt : option jsstring;
  meta_messageCount : nat
}.

Record Runtime := {
  client_start : Registry.Outcome;
  client_stop : Registry.Outcome;
  client_listSessions : Result (list SessionMetadata);
  client_resumeSession : jsstring → Result CopilotSession;
  client_createSession : jsstring → jsstring → Result CopilotSession
}.

Inductive RuntimeCall :=
  | call_start
  | call_stop
  | call_listSessions
  | call_resumeSession (sessionId : jsstring)
  | call_createSession (sessionId model : jsstring)
  | call_destroy (session : CopilotSession)
  | call_abort (sessionId : jsstring)
  | call_getMessages (sessionId : jsstring).

(** The module-level state: [clientInstance] is set or [null]. *)
Record World := {
  clientInstance : bool;
  activeSessions : gmap jsstring CopilotSession;
  sessionAgentMap : gmap jsstring jsstring;
  sessionPermissionPolicy : gmap jsstring PermissionPolicy;
  messageHistoryCache : Cache
}.

Definition M (A : Type) : Type := World → World * list RuntimeCall * Result A.

Definition ret {A} (a : A) : M A := λ w, (w, [], Ok a).

Definition throw {A} (message : jsstring) : M A := λ w, (w, [], Throws message).

Definition bind {A B} (m : M A) (k : A → M B) : M B :=
  λ w,
    match m w with
    | (w1, log1, Ok a) =>
        match k a w1 with
        | (w2, log2, r) => (w2, log1 ++ log2, r)
        end
    | (w1, log1, Throws message) => (w1, log1, Throws message)
    end.

(** [try { m } catch (e) { handler }] *)
Definition tryCatch {A} (m : M A) (handler : jsstring → M A) : M A :=
  λ w,
    match m w with
    | (w1, log1, Ok a) => (w1, log1, Ok a)
    | (w1, log1, Throws message) =>
        match handler message w1 with
        | (w2, log2, r) => (w2, log1 ++ log2, r)
        end
    end.

Definition get : M World := λ w, (w, [], Ok w).

Definition modify (f : World → World) : M unit := λ w, (f w, [], Ok tt).

(** Await a call of the runtime that answers [r]. *)
Definition invoke {A} (c : RuntimeCall) (r : Result A) : M A := λ w, (w, [c], r).

Definition invokeVoid (c : RuntimeCall) (o : Registry.Outcome) : M unit :=
  invoke c (match o with
            | Registry.Fulfilled => Ok tt
            | Registry.Thrown message => Throws message
            end).

Declare Scope copilot_scope.
Delimit Scope copilot_scope with copilot.
Notation "x <- m ;; k" := (bind m (λ x, k))
  (at level 100, m at next level, right associativity) : copilot_scope.
Notation "m ;; k" := (bind m (λ _, k))
  (at level 100, right associativity) : copilot_scope.
Local Open Scope copilot_scope.

Definition set_clientInstance (v : bool) (w : World) : World :=
  {| clientInstance := v; activeSessions := activeSessions w;
     sessionAgentMap := sessionAgentMap w;
     sessionPermissionPolicy := sessionPermissionPolicy w;
     messageHistoryCache := messageHistoryCache w |}.

Definition set_activeSessions (v : gmap jsstring CopilotSession) (w : World) : World :=
  {| clientInstance := clientInstance w; activeSessions := v;
     sessionAgentMap := sessionAgentMap w;
     sessionPermissionPolicy := sessionPermissionPolicy w;
     messageHistoryCache := messageHistoryCache w |}.

Definition set_sessionAgentMap (v : gmap jsstring jsstring) (w : World) : World :=
  {| clientInstance := clientInstance w; activeSessions := activeSessions w;
     sessionAgentMap := v;
     sessionPermissionPolicy := sessionPermissionPolicy w;
     messageHistoryCache := messageHistoryCache w |}.

Definition set_sessionPermissionPolicy (v : gmap jsstring PermissionPolicy)
    (w : World) : World :=
  {| clientInstance := clientInstance w; activeSessions := activeSessions w;
     sessionAgentMap := sessionAgentMap w;
     sessionPermissionPolicy := v;
     messageHistoryCache := messageHistoryCache w |}.

Definition set_messageHistoryCache (v : Cache) (w : World) : World :=
  {| clientInstance := clientInstance w; activeSessions := activeSessions w;
     sessionAgentMap := sessionAgentMap w;
     sessionPermissionPolicy := sessionPermissionPolicy w;
     messageHistoryCache := v |}.

(** What a [TypeError] of the engine is identified with. *)
Definition typeError : jsstring := js "TypeError".

Section Services.

Variable rt : Runtime.
Variable agents : list AgentConfig.

(** [agents.find((a) => a.id === id)] *)
Definition getAgentById (agentId : jsstring) : option AgentConfig :=
  List.find (λ a, bool_decide (id a = agentId)) agents.

(** [agents.find((a) => a.isDefault) || agents[0]] *)
Definition getDefaultAgentConfig : option AgentConfig :=
  match List.find isDefault agents with
  | Some a => Some a
  | None => head agents
  end.

(** The [permissionPolicy] of [buildSessionConfig(agentId)]. The tools, MCP
    servers, custom agents, skills, system message and compaction
    thresholds of the configuration are handed to the runtime as they are
    and are left out. *)
Definition buildSessionConfig (agentId : jsstring) : PermissionPolicy :=
  if nonEmpty agentId then
    match getAgentById agentId with
    | Some agent => default ask_user (permissionPolicy agent)
    | None => ask_user
    end
  else ask_user.

Definition getClient : M unit :=
  w <- get ;;
  if clientInstance w then ret tt
  else
    modify (set_clientInstance true) ;;
    invokeVoid call_start (client_start rt).

(** [getDefaultAgentConfig().id]: a [TypeError] when there is no agent. *)
Definition defaultAgentId : M jsstring :=
  match getDefaultAgentConfig with
  | Some agent => ret (id agent)
  | None => throw typeError
  end.

(** The agent and the model [createSession] settles on. *)
Definition resolveAgentAndModel (model agentId : jsstring) : M (jsstring * jsstring) :=
  if nonEmpty agentId then
    match getAgentById agentId with
    | Some agent => ret (id agent, or_else (preferredModel agent) model)
    | None => d <- defaultAgentId ;; ret (d, model)
    end
  else d <- defaultAgentId ;; ret (d, model).

Definition createSession (sessionId model agentId : jsstring) : M CopilotSession :=
  getClient ;;
  resolved <- resolveAgentAndModel model agentId ;;
  let resolvedAgentId := resolved.1 in
  let model := resolved.2 in
  let permPolicy := buildSessionConfig resolvedAgentId in
  session <- invoke (call_createSession sessionId model)
                    (client_createSession rt sessionId model) ;;
  let id := or_else sessionId (session_sessionId session) in
  modify (λ w, set_sessionPermissionPolicy
                 (<[id := permPolicy]> (sessionPermissionPolicy w))
                 (set_sessionAgentMap
                    (<[id := resolvedAgentId]> (sessionAgentMap w))
                    (set_activeSessions (<[id := session]> (activeSessions w)) w))) ;;
  ret session.

(** The [try] block of [getOrCreateSession]: the resumed session, or nothing
    when the runtime does not list the id. *)
Definition tryResume (sessionId : jsstring) (permPolicy : PermissionPolicy)
    : M (option CopilotSession) :=
  sessions <- invoke call_listSessions (client_listSessions rt) ;;
  if existsb (λ s, bool_decide (meta_sessionId s = sessionId)) sessions then
    session <- invoke (call_resumeSession sessionId)
                      (client_resumeSession rt sessionId) ;;
    modify (λ w, set_sessionPermissionPolicy
                   (<[sessionId := permPolicy]> (sessionPermissionPolicy w))
                   (set_activeSessions
                      (<[sessionId := session]> (activeSessions w)) w)) ;;
    ret (Some session)
  else ret None.

Definition getOrCreateSession (sessionId model agentId : jsstring)
    : M CopilotSession :=
  w <- get ;;
  match activeSessions w !! sessionId with
  | Some session => ret session
  | None =>
      getClient ;;
      let existingAgentId :=
        or_else (default [] (sessionAgentMap w !! sessionId)) agentId in
      let permPolicy := buildSessionConfig existingAgentId in
      resumed <- tryCatch (tryResume sessionId permPolicy) (λ _, ret None) ;;
      match resumed with
      | Some session => ret session
      | None => createSession sessionId model agentId
      end
  end.

(** [for (const session of ...)] with the [try]/[catch] around
    [session.destroy()], over the sessions in the order given. *)
Fixpoint destroyAll (sessions : list CopilotSession) : M unit :=
  match sessions with
  | [] => ret tt
  | session :: sessions =>
      tryCatch (invokeVoid (call_destroy session) (destroy session))
               (λ _, ret tt) ;;
      destroyAll sessions
  end.

(** [values] is what [activeSessions.values()] yields: the cached sessions
    in the order of their insertion, an order that the map of the model
    does not keep. *)
Definition stopClient (values : list CopilotSession) : M unit :=
  w <- get ;;
  if clientInstance w then
    destroyAll values ;;
    modify (set_activeSessions ∅) ;;
    invokeVoid call_stop (client_stop rt) ;;
    modify (set_clientInstance false)
  else ret tt.

Definition abortSession (sessionId : jsstring) : M unit :=
  w <- get ;;
  match activeSessions w !! sessionId with
  | Some session => invokeVoid (call_abort sessionId) (abort session)
  | None => ret tt
  end.

(** *** Message history *)

Definition isMessageEvent (e : SessionEvent) : bool :=
  bool_decide (eventType e = js "user.message")
  || bool_decide (eventType e = js "assistant.message").

Definition toMessage (e : SessionEvent) : CacheEntry :=
  if bool_decide (eventType e = js "user.message") then
    {| role := js "user";
       content := or_else (data_prompt e) (or_else (data_content e) (data_text e)) |}
  else
    {| role := js "assistant";
       content := or_else (data_content e) (or_else (data_text e) (data_message e)) |}.

(** [events.filter(...).map(...).filter((m) => m.content.trim().length > 0)] *)
Definition reconstruct (events : list SessionEvent) : list CacheEntry :=
  List.filter (λ m, nonEmpty (trim (content m)))
    (map toMessage (List.filter isMessageEvent events)).

Definition getSessionMessages (sessionId : jsstring) : M (list CacheEntry) :=
  w <- get ;;
  match messageHistoryCache w !! sessionId with
  | Some cached => ret cached
  | None =>
      match activeSessions w !! sessionId with
      | None => ret []
      | Some session =>
          tryCatch
            (events <- invoke (call_getMessages sessionId) (getMessages session) ;;
             let messages := reconstruct events in
             (if decide (0 < length messages) then
                modify (λ w, set_messageHistoryCache
                               (<[sessionId := messages]> (messageHistoryCache w)) w)
              else ret tt) ;;
             ret messages)
            (λ _, ret [])
      end
  end.

Record SessionInfo := {
  info_sessionId : jsstring;
  info_createdAt : option jsstring;
  info_messageCount : nat;
  info_title : option jsstring
}.

(** The title [listSessions] gives a session: its last user message, cut to
    50 code units and an ellipsis when longer. *)
Definition sessionTitle (cachedMessages : option (list CacheEntry))
    : option jsstring :=
  match cachedMessages with
  | Some messages =>
      match last (List.filter (λ m, bool_decide (role m = js "user")) messages) with
      | Some m =>
          let lastUserMessage := content m in
          Some (if decide (50 < length lastUserMessage)
                then take 50 lastUserMessage ++ js "..."
                else lastUserMessage)
      | None => None
      end
  | None => None
  end.

(** [cachedMessages?.length || sessionData.messageCount || 0] *)
Definition sessionMessageCount (cachedMessages : option (list CacheEntry))
    (session : SessionMetadata) : nat :=
  let cachedLength :=
    match cachedMessages with
    | Some messages => length messages
    | None => 0
    end in
  if decide (cachedLength = 0) then meta_messageCount session else cachedLength.

Definition listSessions : M (list SessionInfo) :=
  getClient ;;
  sessions <- invoke call_listSessions (client_listSessions rt) ;;
  w <- get ;;
  ret (map (λ session,
              let cachedMessages := messageHistoryCache w !! meta_sessionId session in
              {| info_sessionId := meta_sessionId session;
                 info_createdAt := meta_createdAt session;
                 info_messageCount := sessionMessageCount cachedMessages session;
                 info_title := sessionTitle cachedMessages |})
           sessions).

End Services.

(** *** The permission hook *)

Inductive PermissionResponseKind :=
  | approved
  | denied_by_rules
  | denied_no_approval_rule_and_could_not_request_from_user
  | denied_interactively_by_user.

Record PermissionRequestData := {
  request_kind : jsstring;
  request_toolCallId : option jsstring
}.

Abbreviation PermissionHandler :=
  (PermissionRequestData → Awaited PermissionResponseKind).

Definition decide_permission (policy : PermissionPolicy)
    (handler : option PermissionHandler) (request : PermissionRequestData)
    : Awaited PermissionResponseKind :=
  match policy with
  | auto_approve => Settled approved
  | deny_all => Settled denied_by_rules
  | ask_user =>
      match handler with
      | Some handler => handler request
      | None => Settled denied_no_approval_rule_and_could_not_request_from_user
      end
  end.

(** The hook [createSession] passes to the runtime, called after the
    session was created. [sessionId] is the argument of [createSession],
    [runtimeId] is [session.sessionId], [invocationSessionId] is
    [invocation?.sessionId] (empty when absent), [permPolicy] the policy of
    the configuration. *)
Definition createSession_onPermissionRequest
    (policies : gmap jsstring PermissionPolicy)
    (permissionHandlers : gmap jsstring PermissionHandler)
    (permPolicy : PermissionPolicy)
    (sessionId runtimeId invocationSessionId : jsstring)
    (request : PermissionRequestData) : Awaited PermissionResponseKind :=
  let id := or_else sessionId runtimeId in
  let sid := or_else (or_else (or_else id sessionId) invocationSessionId) [] in
  let policy := default permPolicy (policies !! sid) in
  decide_permission policy (permissionHandlers !! sid) request.

(** The hook [getOrCreateSession] passes when it resumes a session. *)
Definition getOrCreateSession_onPermissionRequest
    (policies : gmap jsstring PermissionPolicy)
    (permissionHandlers : gmap jsstring PermissionHandler)
    (permPolicy : PermissionPolicy) (sessionId : jsstring)
    (request : PermissionRequestData) : Awaited PermissionResponseKind :=
  let policy := default permPolicy (policies !! sessionId) in
  decide_permission policy (permissionHandlers !! sessionId) request.

Definition setPermissionHandler (sessionId : jsstring) (handler : PermissionHandler)
    (permissionHandlers : gmap jsstring PermissionHandler)
    : gmap jsstring PermissionHandler :=
  <[sessionId := handler]> permissionHandlers.

Definition clearPermissionHandler (sessionId : jsstring)
    (permissionHandlers : gmap jsstring PermissionHandler)
    : gmap jsstring PermissionHandler :=
  delete sessionId permissionHandlers.

(** *** Closed forms of the services

    What [createSession] settles on and records, and what the [try] block
    of [getOrCreateSession] obtains, written without the monad; the facts
    about the services are stated with them. *)

Definition resolved (agents : list AgentConfig) (model agentId : jsstring)
    : Result (jsstring * jsstring) :=
  match (if nonEmpty agentId then getAgentById agents agentId else None) with
  | Some agent => Ok (id agent, or_else (preferredModel agent) model)
  | None =>
      match getDefaultAgentConfig agents with
      | Some d => Ok (id d, model)
      | None => Throws typeError
      end
  end.

Definition recordSession (i : jsstring) (session : CopilotSession)
    (resolvedAgentId : jsstring) (permPolicy : PermissionPolicy) (w : World) : World :=
  set_sessionPermissionPolicy (<[i := permPolicy]> (sessionPermissionPolicy w))
    (set_sessionAgentMap (<[i := resolvedAgentId]> (sessionAgentMap w))
       (set_activeSessions (<[i := session]> (activeSessions w)) w)).

Definition sameMaps (w w' : World) : Prop :=
  activeSessions w' = activeSessions w
  ∧ sessionAgentMap w' = sessionAgentMap w
  ∧ sessionPermissionPolicy w' = sessionPermissionPolicy w
  ∧ messageHistoryCache w' = messageHistoryCache w.

(** What the [try] block of [getOrCreateSession] obtains from the runtime,
    and the calls it makes for it. *)
Definition listed (rt : Runtime) (sessionId : jsstring) : bool :=
  match client_listSessions rt with
  | Ok sessions => existsb (λ s, bool_decide (meta_sessionId s = sessionId)) sessions
  | Throws _ => false
  end.

Definition resumable (rt : Runtime) (sessionId : jsstring) : option CopilotSession :=
  if listed rt sessionId then
    match client_resumeSession rt sessionId with
    | Ok session => Some session
    | Throws _ => None
    end
  else None.

Definition resumeCalls (rt : Runtime) (sessionId : jsstring) : list RuntimeCall :=
  if listed rt sessionId then [call_listSessions; call_resumeSession sessionId]
  else [call_listSessions].

Definition recordResume (sessionId : jsstring) (session : CopilotSession)
    (permPolicy : PermissionPolicy) (w : World) : World :=
  set_sessionPermissionPolicy
    (<[sessionId := permPolicy]> (sessionPermissionPolicy w))
    (set_activeSessions (<[sessionId := session]> (activeSessions w)) w).
(** *** A runtime for the examples

    It lists one session, ["old"], which it can resume; it creates a session
    for any id. There are two agents, the second one the default. *)

Definition sampleSession (i : jsstring) : CopilotSession :=
  {| session_sessionId := i; destroy := Registry.Fulfilled;
     abort := Registry.Fulfilled; getMessages := Ok [] |}.

Definition sampleRuntime : Runtime :=
  {| client_start := Registry.Fulfilled;
     client_stop := Registry.Fulfilled;
     client_listSessions :=
       Ok [{| meta_sessionId := js "old"; meta_createdAt := None;
              meta_messageCount := 3 |}];
     client_resumeSession :=
       λ i, if bool_decide (i = js "old") then Ok (sampleSession i)
            else Throws (js "unknown session");
     client_createSession := λ i _, Ok (sampleSession (or_else i (js "generated"))) |}.

Definition sampleAgents : list AgentConfig :=
  [{| id := js "coder"; isDefault := false; preferredModel := js "gpt-5";
      permissionPolicy := Some auto_approve |};
   {| id := js "default"; isDefault := true; preferredModel := [];
      permissionPolicy := None |}].

Definition emptyWorld : World :=
  {| clientInstance := false; activeSessions := ∅; sessionAgentMap := ∅;
     sessionPermissionPolicy := ∅; messageHistoryCache := ∅ |}.

End Copilot.

(** The registry of user input responders *)

Definition setUserInputHandler (sessionId : jsstring) (handler : UserInputHandler)
    (userInputHandlers : gmap jsstring UserInputHandler)
    : gmap jsstring UserInputHandler :=
  <[sessionId := handler]> userInputHandlers.

Definition clearUserInputHandler (sessionId : jsstring)
    (userInputHandlers : gmap jsstring UserInputHandler)
    : gmap jsstring UserInputHandler :=
  delete sessionId userInputHandlers.

(** ** [sendMessageSync]

    The synchronous mode listens to the three tool events only, keeps a log
    of the tool calls, and awaits [session.sendAndWait]. *)

Module Sync.

Record ToolCallEntry := {
  toolName : jsstring;
  args : jsstring;
  toolCallId : jsstring;
  result : option ToolResult
}.

Record State := {
  toolNameByCallId : gmap jsstring jsstring;
  toolCalls : list ToolCallEntry;
  calls : list Callback
}.

Definition initial : State :=
  {| toolNameByCallId := ∅; toolCalls := []; calls := [] |}.

(** [const entry = toolCalls.find(t => t.toolCallId === id);
     if (entry) entry.result = r] *)
Fixpoint setResult (id : jsstring) (r : ToolResult) (entries : list ToolCallEntry)
    : list ToolCallEntry :=
  match entries with
  | [] => []
  | t :: entries =>
      if bool_decide (toolCallId t = id) then
        {| toolName := toolName t; args := args t; toolCallId := toolCallId t;
           result := Some r |} :: entries
      else t :: setResult id r entries
  end.

Definition displayName (id : jsstring) (st : State) : jsstring :=
  or_else (default [] (toolNameByCallId st !! id)) id.

(** The listeners; an event of another type has no listener. *)
Definition handle (e : Event) (st : State) : State :=
  match e with
  | tool_execution_start id name arguments =>
      {| toolNameByCallId := <[id := name]> (toolNameByCallId st);
         toolCalls := toolCalls st
                      ++ [{| toolName := name; args := arguments;
                             toolCallId := id; result := None |}];
         calls := calls st ++ [onToolCall name arguments id] |}
  | tool_execution_complete id r =>
      let name := displayName id st in
      {| toolNameByCallId := toolNameByCallId st;
         toolCalls := setResult id (Result r) (toolCalls st);
         calls := calls st ++ [onToolResult name (Result r) id] |}
  | tool_execution_error id error =>
      let name := displayName id st in
      let errorResult := ErrorResult (or_else error toolFailedMessage) in
      {| toolNameByCallId := toolNameByCallId st;
         toolCalls := setResult id errorResult (toolCalls st);
         calls := calls st ++ [onToolResult name errorResult id] |}
  | _ => st
  end.

Definition listen (events : list Event) (st : State) : State :=
  foldl (λ s e, handle e s) st events.

(** What [sendAndWait] resolves with: [result?.data?.content] and
    [result?.content], empty when absent. *)
Record WaitResult := { data_content : jsstring; result_content : jsstring }.

Record SyncReturn := {
  returned_content : jsstring;
  returned_toolCalls : list ToolCallEntry
}.

(** [events] are the events delivered while [sendAndWait] is awaited,
    [answer] is how that call ends. The result is the cache, the callbacks
    invoked and the value returned. *)
Definition sendMessageSync (resolved : Resolution) (sessionId prompt : jsstring)
    (cache : Cache) (events : list Event) (answer : Copilot.Result WaitResult)
    : Cache * list Callback * SyncReturn :=
  match resolved with
  | ResolutionFailed message =>
      (cache, [onError message],
       {| returned_content := []; returned_toolCalls := [] |})
  | SessionResolved =>
      let cache := addMessageToCache sessionId (js "user") prompt cache in
      let st := listen events initial in
      match answer with
      | Copilot.Ok res =>
          let content := or_else (data_content res) (or_else (result_content res) []) in
          let cache :=
            if nonEmpty (trim content)
            then addMessageToCache sessionId (js "assistant") content cache
            else cache in
          (cache, calls st,
           {| returned_content := content; returned_toolCalls := toolCalls st |})
      | Copilot.Throws message =>
          (cache, calls st ++ [onError message],
           {| returned_content := []; returned_toolCalls := toolCalls st |})
      end
  end.

(** The start events of a list, as log entries without a result. *)
Definition startedCalls (events : list Event) : list ToolCallEntry :=
  omap (λ e, match e with
             | tool_execution_start id name arguments =>
                 Some {| toolName := name; args := arguments; toolCallId := id;
                         result := None |}
             | _ => None
             end) events.

Definition withoutResult (t : ToolCallEntry) : ToolCallEntry :=
  {| toolName := toolName t; args := args t; toolCallId := toolCallId t;
     result := None |}.

(** No entry that holds a result comes after an entry with its call id. *)
Fixpoint firstOnly (entries : list ToolCallEntry) : Prop :=
  match entries with
  | [] => True
  | t :: entries =>
      (∀ y, y ∈ entries → result y ≠ None → toolCallId y ≠ toolCallId t)
      ∧ firstOnly entries
  end.

End Sync.

(** ** The agent store

    [loadAgents], [saveAgent] and their callers read and rewrite the agents
    file as a whole; the store is the list of agents the file holds, with
    the fields of [AgentConfig] read by the session services. *)

Module AgentStore.
Import Copilot.

Definition with_isDefault (v : bool) (a : AgentConfig) : AgentConfig :=
  {| id := id a; isDefault := v; preferredModel := preferredModel a;
     permissionPolicy := permissionPolicy a |}.

(** [data.agents.findIndex((a) => a.id === id)], [None] for [-1]. *)
Fixpoint findIndex (agentId : jsstring) (agents : list AgentConfig) : option nat :=
  match agents with
  | [] => None
  | a :: agents =>
      if bool_decide (id a = agentId) then Some 0
      else S <$> findIndex agentId agents
  end.

Definition saveAgent (agent : AgentConfig) (agents : list AgentConfig)
    : list AgentConfig :=
  match findIndex (id agent) agents with
  | Some existingIndex => <[existingIndex := agent]> agents
  | None => agents ++ [agent]
  end.

Definition cannotDeleteDefault : jsstring := js "Cannot delete the default agent".

Definition agentNotFound (agentId : jsstring) : jsstring :=
  js "Agent not found: " ++ agentId.

Definition deleteAgent (agentId : jsstring) (agents : list AgentConfig)
    : list AgentConfig * Result bool :=
  match findIndex agentId agents with
  | Some index =>
      match agents !! index with
      | Some a =>
          if isDefault a then (agents, Throws cannotDeleteDefault)
          else (delete index agents, Ok true)
      | None => (agents, Throws typeError)
      end
  | None => (agents, Ok false)
  end.

(** [createAgent]: [generatedId] is what [generateId("agent")] returns. *)
Definition createAgent (generatedId requestedModel : jsstring)
    (agents : list AgentConfig) : list AgentConfig * AgentConfig :=
  let agent :=
    {| id := generatedId; isDefault := false; preferredModel := requestedModel;
       permissionPolicy := None |} in
  (saveAgent agent agents, agent).

(** [updateAgent]: [requestedModel] is [request.preferredModel], [None] when
    absent. *)
Definition updateAgent (agentId : jsstring) (requestedModel : option jsstring)
    (agents : list AgentConfig) : list AgentConfig * Result AgentConfig :=
  match getAgentById agents agentId with
  | None => (agents, Throws (agentNotFound agentId))
  | Some existing =>
      let updated :=
        {| id := id existing; isDefault := isDefault existing;
           preferredModel := default (preferredModel existing) requestedModel;
           permissionPolicy := permissionPolicy existing |} in
      (saveAgent updated agents, Ok updated)
  end.

(** One turn of the loop of [setDefaultAgent] over the loaded agents; each
    [saveAgent] rewrites the file. *)
Definition clearDefault (agentId : jsstring) (store : list AgentConfig)
    (agent : AgentConfig) : list AgentConfig :=
  if isDefault agent && negb (bool_decide (id agent = agentId))
  then saveAgent (with_isDefault false agent) store
  else store.

Definition setDefaultAgent (agentId : jsstring) (agents : list AgentConfig)
    : list AgentConfig * Result AgentConfig :=
  match List.find (λ a, bool_decide (id a = agentId)) agents with
  | None => (agents, Throws (agentNotFound agentId))
  | Some targetAgent =>
      let store := foldl (clearDefault agentId) agents agents in
      let targetAgent := with_isDefault true targetAgent in
      (saveAgent targetAgent store, Ok targetAgent)
  end.

(** The requests of the agent management events of the server. *)
Inductive Request :=
  | create_agent (generatedId requestedModel : jsstring)
  | update_agent (agentId : jsstring) (requestedModel : option jsstring)
  | delete_agent (agentId : jsstring)
  | set_default_agent (agentId : jsstring).

Definition serve (agents : list AgentConfig) (request : Request) : list AgentConfig :=
  match request with
  | create_agent generatedId requestedModel =>
      (createAgent generatedId requestedModel agents).1
  | update_agent agentId requestedModel =>
      (updateAgent agentId requestedModel agents).1
  | delete_agent agentId => (deleteAgent agentId agents).1
  | set_default_agent agentId => (setDefaultAgent agentId agents).1
  end.

(** Every [create_agent] of the requests comes with an id that is not in
    the store at that moment. *)
Fixpoint freshIds (requests : list Request) (agents : list AgentConfig) : Prop :=
  match requests with
  | [] => True
  | request :: requests =>
      match request with
      | create_agent generatedId _ => generatedId ∉ id <$> agents
      | _ => True
      end
      ∧ freshIds requests (serve agents request)
  end.

(** The ids are distinct and exactly one agent is the default. *)
Definition wellFormed (agents : list AgentConfig) : Prop :=
  NoDup (id <$> agents) ∧ length (List.filter isDefault agents) = 1.

(** The agents of [getDefaultAgents], the content of a new agents file. *)
Definition defaultAgents : list AgentConfig :=
  [{| id := js "default"; isDefault := true; preferredModel := [];
      permissionPolicy := None |};
   {| id := js "coder"; isDefault := false; preferredModel := js "claude-sonnet-4";
      permissionPolicy := None |};
   {| id := js "translator"; isDefault := false; preferredModel := js "gpt-4o";
      permissionPolicy := None |};
   {| id := js "planner"; isDefault := false; preferredModel := js "claude-sonnet-4";
      permissionPolicy := None |}].

End AgentStore.

(** ** The [send-message-sync] event of the server

    The handler registers a user input responder, awaits [sendMessageSync]
    with callbacks that emit to the socket, emits [message-complete] with
    what it returned, and at last clears the responder. *)

Module Server.
Import Sync.

Inductive Emit :=
  | message_start
  | tool_call (toolName args toolCallId : jsstring)
  | tool_result (toolName : jsstring) (result : ToolResult) (toolCallId : jsstring)
  | message_error (error : jsstring)
  | message_complete (content : jsstring) (toolCalls : list ToolCallEntry).

(** What the callbacks passed to [sendMessageSync] emit. *)
Definition emitted (cb : Callback) : list Emit :=
  match cb with
  | onToolCall toolName args toolCallId => [tool_call toolName args toolCallId]
  | onToolResult toolName result toolCallId => [tool_result toolName result toolCallId]
  | onError message => [message_error message]
  | _ => []
  end.

Definition isComplete (e : Emit) : bool :=
  match e with
  | message_complete _ _ => true
  | _ => false
  end.

Definition isError (e : Emit) : bool :=
  match e with
  | message_error _ => true
  | _ => false
  end.

Definition on_send_message_sync (resolved : Resolution) (sessionId prompt : jsstring)
    (cache : Cache) (userInputHandlers : gmap jsstring UserInputHandler)
    (responder : UserInputHandler) (events : list Event)
    (answer : Copilot.Result WaitResult)
    : Cache * gmap jsstring UserInputHandler * list Emit :=
  let userInputHandlers := setUserInputHandler sessionId responder userInputHandlers in
  let '(cache, calls, result) :=
    sendMessageSync resolved sessionId prompt cache events answer in
  (cache,
   clearUserInputHandler sessionId userInputHandlers,
   [message_start]
   ++ concat (emitted <$> calls)
   ++ [message_complete (returned_content result) (returned_toolCalls result)]).

End Server.

(** * Properties of the exchange and of the cache *)

(** ** Facts about the cache *)

Lemma trimOldest_length (messages : list CacheEntry) :
  length (trimOldest messages) = length messages `min` MAX_MESSAGES_PER_SESSION.
Proof.
  unfold trimOldest. case_decide; [rewrite length_drop|]; lia.
Qed.

Lemma trimOldest_drop (messages : list CacheEntry) :
  trimOldest messages
  = drop (length messages - MAX_MESSAGES_PER_SESSION) messages.
Proof.
  unfold trimOldest. case_decide; [done|].
  replace (length messages - MAX_MESSAGES_PER_SESSION) with 0 by lia. done.
Qed.

Lemma addMessageToCache_lookup (sid r c : jsstring) (cache : Cache) :
  addMessageToCache sid r c cache !! sid
  = Some (trimOldest (messagesOf sid cache ++ [{| role := r; content := c |}])).
Proof. unfold addMessageToCache. by rewrite lookup_insert_eq. Qed.

Lemma addMessageToCache_other (sid sid' r c : jsstring) (cache : Cache) :
  sid ≠ sid' → addMessageToCache sid r c cache !! sid' = cache !! sid'.
Proof. intros. unfold addMessageToCache. by rewrite lookup_insert_ne. Qed.

Lemma addMessageToCache_last (sid r c : jsstring) (cache : Cache) :
  last (messagesOf sid (addMessageToCache sid r c cache))
  = Some {| role := r; content := c |}.
Proof.
  unfold messagesOf at 1. rewrite addMessageToCache_lookup. simpl.
  rewrite trimOldest_drop, length_app. simpl.
  set (old := messagesOf sid cache).
  rewrite drop_app_le by (unfold MAX_MESSAGES_PER_SESSION; lia).
  by rewrite last_snoc.
Qed.

Lemma addMessageToCache_bounded (sid r c : jsstring) (cache : Cache) :
  bounded cache → bounded (addMessageToCache sid r c cache).
Proof.
  intros Hb sid' msgs. destruct (decide (sid = sid')) as [<-|Hne].
  - rewrite addMessageToCache_lookup. intros [= <-].
    rewrite trimOldest_length. lia.
  - rewrite addMessageToCache_other by done. apply Hb.
Qed.

Lemma appendAll_bounded (ops : list (jsstring * jsstring * jsstring)) (cache : Cache) :
  bounded cache → bounded (appendAll ops cache).
Proof.
  revert cache. induction ops as [|[[sid r] c] ops IH]; intros cache Hb; [done|].
  apply IH. by apply addMessageToCache_bounded.
Qed.

(** ** The bound of the message history cache *)

(** C2. For every session and every sequence of append operations the cache
    holds at most N = 100 entries of the session. An append pushes the new
    entry and, when the count would exceed N, removes exactly the oldest
    (count - N) entries at once: what is kept is the pushed list without its
    first (count - N) entries, so the order and the content of the
    surviving entries are those they had, and other sessions are untouched.
    In particular, appending to a cache of 100 entries drops exactly the
    oldest one and leaves 100. *)
Theorem cache_never_exceeds_bound :
  MAX_MESSAGES_PER_SESSION = 100
  ∧ (∀ (ops : list (jsstring * jsstring * jsstring)) (sid : jsstring),
       length (messagesOf sid (appendAll ops ∅)) ≤ MAX_MESSAGES_PER_SESSION)
  ∧ (∀ (cache : Cache) (sid r c : jsstring),
       let pushed := messagesOf sid cache ++ [{| role := r; content := c |}] in
       let excess := length pushed - MAX_MESSAGES_PER_SESSION in
       let kept := messagesOf sid (addMessageToCache sid r c cache) in
       kept = drop excess pushed
       ∧ pushed = take excess pushed ++ kept
       ∧ length kept = length pushed `min` MAX_MESSAGES_PER_SESSION
       ∧ ∀ sid' : jsstring, sid' ≠ sid →
           addMessageToCache sid r c cache !! sid' = cache !! sid')
  ∧ (∀ (cache : Cache) (sid r c : jsstring) (oldest : CacheEntry)
       (others : list CacheEntry),
       messagesOf sid cache = oldest :: others →
       length (oldest :: others) = 100 →
       let kept := messagesOf sid (addMessageToCache sid r c cache) in
       kept = others ++ [{| role := r; content := c |}] ∧ length kept = 100).
Proof.
  split; [done|]. split; [|split].
  - intros ops sid. unfold messagesOf.
    destruct (appendAll ops ∅ !! sid) as [msgs|] eqn:E; simpl; [|lia].
    eapply (appendAll_bounded ops ∅); [|done].
    intros ? ?. by rewrite lookup_empty.
  - intros cache sid r c pushed excess kept.
    assert (Hk : kept = drop excess pushed).
    { unfold kept, messagesOf at 1. rewrite addMessageToCache_lookup. simpl.
      apply trimOldest_drop. }
    split; [done|]. split; [by rewrite Hk, take_drop|]. split.
    + unfold kept, messagesOf at 1. rewrite addMessageToCache_lookup. simpl.
      apply trimOldest_length.
    + intros sid' Hne. by apply addMessageToCache_other.
  - intros cache sid r c oldest others Hold Hlen kept.
    assert (Hk : kept = others ++ [{| role := r; content := c |}]).
    { unfold kept, messagesOf at 1. rewrite addMessageToCache_lookup. simpl.
      rewrite trimOldest_drop, Hold, length_app, Hlen. simpl. done. }
    split; [done|]. rewrite Hk, length_app. simpl in *. lia.
Qed.

(** The bound at work on a session that already holds 100 entries. *)
Lemma cache_never_exceeds_bound_witness :
  let full := replicate 99 {| role := js "user"; content := js "m" |} in
  let oldest := {| role := js "user"; content := js "first" |} in
  let cache : Cache := {[ js "s" := oldest :: full ]} in
  messagesOf (js "s") (addMessageToCache (js "s") (js "assistant") (js "new") cache)
  = full ++ [{| role := js "assistant"; content := js "new" |}].
Proof.
  intros full oldest cache.
  destruct cache_never_exceeds_bound as (_ & _ & _ & H).
  refine (proj1 (H cache (js "s") (js "assistant") (js "new") oldest full _ _)).
  - unfold messagesOf, cache. by rewrite lookup_singleton_eq.
  - reflexivity.
Defined.

(** ** Every event stutters on the latch or finalizes it *)

Lemma completions_app (cs1 cs2 : list Callback) :
  completions (cs1 ++ cs2) = completions cs1 ++ completions cs2.
Proof. apply omap_app. Qed.

Lemma elem_of_completions (c : jsstring) (cs : list Callback) :
  c ∈ completions cs ↔ onComplete c ∈ cs.
Proof.
  unfold completions. rewrite list_elem_of_omap. split.
  - intros (cb & Hin & Hcb). destruct cb; simplify_eq. done.
  - intros Hin. by exists (onComplete c).
Qed.

(** Closes [view st' = view st] when [st'] is [st] after assignments and
    callbacks other than [onComplete]. *)
Ltac quiet :=
  unfold view; simpl; rewrite ?completions_app; simpl; rewrite ?app_nil_r;
  done.

Lemma view_call (cb : Callback) (st : Exchange) :
  completions [cb] = [] → view (call cb st) = view st.
Proof.
  intros H. unfold view. simpl. by rewrite completions_app, H, app_nil_r.
Qed.

Lemma view_cleanup (st : Exchange) : view (cleanup st) = view st.
Proof. unfold cleanup. by destruct (cleanupCalled st). Qed.

Lemma view_finalize (content : jsstring) (st : Exchange) :
  view (finalize content st) = viewFinalize content (view st).
Proof.
  unfold finalize, viewFinalize, cacheAfter.
  destruct (completed st) eqn:E.
  - unfold view. by rewrite E.
  - destruct (nonEmpty (trim content)); unfold view; simpl;
      by rewrite completions_app, E.
Qed.

Lemma view_catch (m : jsstring) (st : Exchange) : view (catch m st) = view st.
Proof.
  unfold catch. change (view (call (onError m) (cleanup st)) = view st).
  rewrite view_call by done. apply view_cleanup.
Qed.

Lemma view_resolve (st : Exchange) : view (resolve st) = view st.
Proof. unfold resolve. by repeat case_match. Qed.

Lemma view_reject (m : jsstring) (st : Exchange) : view (reject m st) = view st.
Proof.
  unfold reject. repeat case_match; try done.
  by rewrite view_catch.
Qed.

Lemma viewFinalize_twice (c c' : jsstring) (v : View) :
  viewFinalize c' (viewFinalize c v) = viewFinalize c v.
Proof. destruct v as [[[sid []] cache] cs]; done. Qed.

Lemma advances_refl (v : View) : advances v v.
Proof. by left. Qed.

Lemma advances_trans (v1 v2 v3 : View) :
  advances v1 v2 → advances v2 v3 → advances v1 v3.
Proof.
  intros [->|[c ->]] [->|[c' ->]]; [by left|by right; exists c'|by right; exists c|].
  right. exists c. apply viewFinalize_twice.
Qed.

Lemma finalize_advances (c : jsstring) (st : Exchange) :
  advances (view st) (view (finalize c st)).
Proof. right. exists c. apply view_finalize. Qed.

Lemma streamFallback_loop_advances (k : nat) (c : jsstring) (i : nat)
    (st : Exchange) :
  advances (view st) (view (streamFallback_loop k c i st)).
Proof.
  unfold streamFallback_loop. case_decide.
  - left. quiet.
  - apply (finalize_advances _ (set_fallbacks _ st)).
Qed.

Lemma on_assistant_message_advances (c : jsstring) (n : nat) (st : Exchange) :
  advances (view st) (view (on_assistant_message c n st)).
Proof.
  unfold on_assistant_message.
  repeat case_match; try apply advances_refl; try (left; quiet).
  - apply (streamFallback_loop_advances _ _ _
             (set_fallbacks _ (set_fullContent c st))).
  - apply (finalize_advances _ (set_fullContent c st)).
  - apply finalize_advances.
Qed.

Lemma on_timeout_advances (st : Exchange) :
  advances (view st) (view (on_timeout st)).
Proof.
  unfold on_timeout. repeat case_match.
  - rewrite view_resolve. apply (finalize_advances _ (set_checkComplete false st)).
  - left. rewrite view_reject. apply (view_cleanup (set_checkComplete false st)).
  - left. by rewrite view_resolve.
Qed.

Lemma step_advances (e : Event) (st : Exchange) :
  advances (view st) (view (step e st)).
Proof.
  destruct e; simpl; try (case_match; try apply advances_refl).
  - left. unfold on_message_delta. case_match; quiet.
  - left. unfold on_reasoning_delta. case_match; quiet.
  - left. unfold on_tool_execution_start. quiet.
  - left. unfold on_tool_execution_complete. quiet.
  - left. unfold on_tool_execution_error. quiet.
  - apply on_assistant_message_advances.
  - left. unfold on_session_error. rewrite view_cleanup. by apply view_call.
  - unfold on_session_idle. case_match; [apply finalize_advances|apply advances_refl].
  - apply (on_timeout_advances (set_timeoutHandle TimerFired st)).
  - left. apply (view_cleanup (set_graceTimer false st)).
  - unfold streamFallback_resume. repeat case_match; try apply advances_refl.
    apply streamFallback_loop_advances.
  - left. unfold on_interval. case_match; [|done].
    by rewrite view_resolve.
  - left. unfold on_send_resolves. repeat case_match; try quiet.
    apply view_catch.
  - left. unfold on_send_rejects. case_match; try quiet.
    apply view_catch.
Qed.

Lemma run_advances (events : list Event) (st : Exchange) :
  advances (view st) (view (run events st)).
Proof.
  revert st. induction events as [|e events IH]; intros st; [by left|].
  simpl. eapply advances_trans; [apply step_advances|apply IH].
Qed.

(** From a state whose latch is open and which has not completed, a run
    ends in the same view, or in the view [finalize] makes of it. *)
Lemma run_from_open (events : list Event) (st : Exchange) :
  completed st = false →
  view (run events st) = view st
  ∨ ∃ c, view (run events st)
         = (sessionId st, true, cacheAfter (sessionId st) c (messageHistoryCache st),
            completions (calls st) ++ [c]).
Proof.
  intros Hopen. destruct (run_advances events st) as [H|[c H]]; [by left|].
  right. exists c. rewrite H. unfold view, viewFinalize. by rewrite Hopen.
Qed.

(** X2. [onComplete] is invoked at most once in an exchange, whatever the
    events are, session errors and late or repeated messages included: only
    the first call of [finalize] passes the latch. *)
Lemma onComplete_at_most_once (sid : jsstring) (cache : Cache)
    (events : list Event) :
  length (completions (calls (run events (listeningExchange sid cache)))) ≤ 1.
Proof.
  destruct (run_from_open events (listeningExchange sid cache) eq_refl)
    as [H|[c H]]; unfold view in H; injection H as _ _ _ ->; simpl; lia.
Qed.

(** ** The terminal signal of an exchange *)

(** C1. The caller is to receive exactly one terminal signal per exchange,
    never both [onComplete] and [onError]. The handler of [session.error]
    neither tests nor sets the latch of [finalize]: a session error that
    arrives after the exchange completed, while the listeners are still
    attached for the 100 ms grace delay, invokes [onError] after
    [onComplete]; and one that arrives while [streamFallback] is still
    re-emitting a message is followed by the [onComplete] of that
    [streamFallback]. Both runs are evaluated here. *)
Theorem session_error_adds_second_terminal_signal :
  let late :=
    sendMessage SessionResolved (js "s") (js "q") ∅
      [message_delta (js "hi"); assistant_message (js "hi") 0;
       session_error (js "boom")] in
  let early :=
    sendMessage SessionResolved (js "s") (js "q") ∅
      [assistant_message (js "hello") 0; session_error (js "boom");
       fallback_tick 0] in
  calls late = [onDelta (js "hi"); onComplete (js "hi"); onError (js "boom")]
  ∧ calls early
    = [onDelta (js "hello"); onError (js "boom"); onComplete (js "hello")]
  ∧ length (completions (calls late)) + length (errors (calls late)) = 2
  ∧ length (completions (calls early)) + length (errors (calls early)) = 2.
Proof. vm_compute. done. Qed.

(** ** Counting pending tool calls *)

(** Unfolds an event handler down to assignments. *)
Ltac handlers :=
  unfold step, on_message_delta, on_reasoning_delta, on_tool_execution_start,
    on_tool_execution_complete, on_tool_execution_error, on_assistant_message,
    on_session_error, on_session_idle, on_timeout, on_interval,
    on_send_resolves, on_send_rejects, streamFallback_resume, streamFallback,
    streamFallback_loop, reject, resolve, catch, finalize, cleanup.

Lemma step_pendingToolCalls (e : Event) (st : Exchange) :
  pendingToolCalls (step e st)
  = if listening st then
      match e with
      | tool_execution_start _ _ _ => (pendingToolCalls st + 1)%Z
      | tool_execution_complete _ _ | tool_execution_error _ _ =>
          Z.max 0 (pendingToolCalls st - 1)
      | _ => pendingToolCalls st
      end
    else pendingToolCalls st.
Proof. destruct e; handlers; repeat case_match; reflexivity. Qed.

Lemma step_listening_tool (e : Event) (st : Exchange) :
  isToolEvent e = true → listening (step e st) = listening st.
Proof. destruct e; try done; intros _; simpl; by case_match. Qed.

Lemma run_pending_nonneg (events : list Event) (st : Exchange) :
  (0 ≤ pendingToolCalls st)%Z → (0 ≤ pendingToolCalls (run events st))%Z.
Proof.
  revert st. induction events as [|e events IH]; intros st Hp; [done|].
  simpl. apply IH. rewrite step_pendingToolCalls.
  destruct (listening st), e; lia.
Qed.

(** On tool events that never take the counter below zero, the counter is
    the difference of the two counts. *)
Lemma run_pending_balanced (events : list Event) (st : Exchange) :
  listening st = true →
  forallb isToolEvent events = true →
  (∀ n, Z.of_nat (countEvents isTerminal (take n events))
        ≤ pendingToolCalls st + Z.of_nat (countEvents isStart (take n events)))%Z →
  (pendingToolCalls (run events st)
   = pendingToolCalls st + Z.of_nat (countEvents isStart events)
     - Z.of_nat (countEvents isTerminal events))%Z.
Proof.
  revert st. induction events as [|e events IH]; intros st Hl Htool Hbal.
  { simpl. lia. }
  simpl in Htool. apply andb_prop in Htool as [He Htool].
  simpl. rewrite IH; [| by rewrite step_listening_tool | done |].
  - rewrite step_pendingToolCalls, Hl.
    specialize (Hbal 1). simpl in Hbal.
    destruct e; try done; simpl in *; lia.
  - intros n. specialize (Hbal (S n)). simpl in Hbal.
    rewrite step_pendingToolCalls, Hl.
    destruct e; try done; simpl in *; lia.
Qed.

(** C3, as stated, fails: a [complete] for a call id that was never started
    still decrements the counter. After one start of ["a"] and one complete
    of ["b"] the code holds 0, where the count of the specification is 1. *)
Lemma unknown_call_id_decrements_counter :
  let events :=
    [tool_execution_start (js "a") (js "search") (js "{}");
     tool_execution_complete (js "b") (js "done")] in
  pendingToolCalls (run events (listeningExchange (js "s") ∅)) = 0%Z
  ∧ pendingBySpec events = 1%Z
  ∧ pendingToolCalls (run events (listeningExchange (js "s") ∅))
    ≠ pendingBySpec events.
Proof. vm_compute. split; [done|]. split; [done|]. discriminate. Qed.

(** C3, amended. Each start adds 1 to the pending counter and each complete
    or error event subtracts 1, floored at 0, whether or not its call id was
    ever started. So the counter is never negative, whatever the events
    are, and on tool events it equals the number of starts minus the number
    of terminal events as long as no terminal event arrives while the
    count of terminal events has caught up with the starts. The handlers
    have no failing path (they are total on every call id), and on an
    unknown call id they forward the raw call id as the display name. *)
Theorem pending_counter_floored_per_event :
  (∀ (events : list Event) (sid : jsstring) (cache : Cache),
     (0 ≤ pendingToolCalls (run events (listeningExchange sid cache)))%Z)
  ∧ (∀ (st : Exchange) (id name args : jsstring),
       listening st = true →
       pendingToolCalls (step (tool_execution_start id name args) st)
       = (pendingToolCalls st + 1)%Z)
  ∧ (∀ (st : Exchange) (id r : jsstring),
       listening st = true →
       pendingToolCalls (step (tool_execution_complete id r) st)
       = Z.max 0 (pendingToolCalls st - 1)
       ∧ pendingToolCalls (step (tool_execution_error id r) st)
         = Z.max 0 (pendingToolCalls st - 1))
  ∧ (∀ (events : list Event) (sid : jsstring) (cache : Cache),
       forallb isToolEvent events = true →
       (∀ n, countEvents isTerminal (take n events)
             ≤ countEvents isStart (take n events)) →
       pendingToolCalls (run events (listeningExchange sid cache))
       = (Z.of_nat (countEvents isStart events)
          - Z.of_nat (countEvents isTerminal events))%Z)
  ∧ (∀ (st : Exchange) (id r : jsstring),
       listening st = true →
       toolNameByCallId st !! id = None →
       calls (step (tool_execution_complete id r) st)
       = calls st ++ [onToolResult id (Result r) id]
       ∧ calls (step (tool_execution_error id r) st)
         = calls st
           ++ [onToolResult id (ErrorResult (or_else r toolFailedMessage)) id]).
Proof.
  repeat split.
  - intros events sid cache. by apply run_pending_nonneg.
  - intros st id name args Hl. by rewrite step_pendingToolCalls, Hl.
  - by rewrite step_pendingToolCalls, H.
  - by rewrite step_pendingToolCalls, H.
  - intros events sid cache Htool Hbal.
    rewrite run_pending_balanced; simpl; [lia|done|done|].
    intros n. specialize (Hbal n). lia.
  - simpl. rewrite H. unfold on_tool_execution_complete, displayName. simpl.
    rewrite H0. simpl. by destruct id.
  - simpl. rewrite H. unfold on_tool_execution_error, displayName. simpl.
    rewrite H0. simpl. by destruct id.
Qed.

(** Two calls in flight, one error for a call id nobody started: the counter
    goes from 2 to 1 and the raw id is the display name. *)
Lemma pending_counter_floored_per_event_witness :
  let st :=
    run [tool_execution_start (js "a") (js "search") (js "{}");
         tool_execution_start (js "b") (js "fetch") (js "{}")]
      (listeningExchange (js "s") ∅) in
  pendingToolCalls (step (tool_execution_error (js "zz") []) st) = 1%Z
  ∧ calls (step (tool_execution_error (js "zz") []) st)
    = calls st ++ [onToolResult (js "zz") (ErrorResult toolFailedMessage) (js "zz")]
  ∧ pendingToolCalls
      (run [tool_execution_start (js "a") (js "search") (js "{}");
            tool_execution_complete (js "a") (js "ok")]
         (listeningExchange (js "s") ∅)) = 0%Z.
Proof.
  intros st.
  destruct pending_counter_floored_per_event as (_ & _ & Hdec & Hbal & Hname).
  split; [|split].
  - rewrite (proj2 (Hdec st (js "zz") [] eq_refl)). reflexivity.
  - exact (proj2 (Hname st (js "zz") [] eq_refl eq_refl)).
  - rewrite Hbal; [reflexivity|reflexivity|].
    intros [|[|[|n]]]; simpl; lia.
Defined.

(** ** Fallback streaming, chunk by chunk *)

Lemma run_snoc (events : list Event) (e : Event) (st : Exchange) :
  run (events ++ [e]) st = step e (run events st).
Proof. unfold run. by rewrite foldl_app. Qed.

Lemma ceilDiv_chunkSize (len : nat) :
  0 < len →
  (ceilDiv len chunkSize - 1) * chunkSize < len
  ∧ len ≤ ceilDiv len chunkSize * chunkSize
  ∧ 0 < ceilDiv len chunkSize.
Proof.
  intros Hlen. unfold ceilDiv, chunkSize.
  pose proof (Nat.div_mod_eq (len + 24 - 1) 24) as Hdiv.
  pose proof (Nat.mod_upper_bound (len + 24 - 1) 24) as Hmod.
  lia.
Qed.

Lemma chunks_concat (content : jsstring) (n : nat) :
  concat (chunkAt content <$> seq 0 n) = take (n * chunkSize) content.
Proof.
  induction n as [|n IH]; [done|].
  rewrite seq_S, fmap_app, concat_app, IH. simpl. rewrite app_nil_r.
  unfold chunkAt, slice.
  replace (n * chunkSize + chunkSize - n * chunkSize) with chunkSize by lia.
  rewrite take_take_drop. f_equal. unfold chunkSize. lia.
Qed.

Lemma chunkAt_length (content : jsstring) (j : nat) :
  length (chunkAt content j) = chunkSize `min` (length content - j * chunkSize).
Proof.
  unfold chunkAt, slice. rewrite length_take, length_drop. lia.
Qed.

Lemma streaming_tick (k : nat) (content : jsstring) (before : list Callback)
    (j : nat) (st : Exchange) :
  streaming k content before j st →
  S j * chunkSize < length content →
  streaming k content before (S j) (step (fallback_tick k) st).
Proof.
  intros (Hk & Hcalls & Hfull & Hopen) Hlt.
  assert (Hi : j * chunkSize + chunkSize = S j * chunkSize) by lia.
  unfold streaming, step, streamFallback_resume. rewrite Hk.
  unfold streamFallback_loop. rewrite Hi, decide_True by done.
  split; [|split; [|done]].
  - apply list_lookup_insert_eq. by eapply lookup_lt_Some.
  - change (calls st ++ [onDelta (chunkAt content (S j))]
            = before ++ (onDelta <$> (chunkAt content <$> seq 0 (S (S j))))).
    by rewrite Hcalls, (seq_S (S j)), !fmap_app, <-app_assoc.
Qed.

Lemma streaming_last_tick (k : nat) (content : jsstring)
    (before : list Callback) (j : nat) (st : Exchange) :
  streaming k content before j st →
  length content ≤ S j * chunkSize →
  calls (step (fallback_tick k) st) = calls st ++ [onComplete content]
  ∧ completed (step (fallback_tick k) st) = true.
Proof.
  intros (Hk & Hcalls & Hfull & Hopen) Hge.
  simpl. unfold streamFallback_resume. rewrite Hk.
  unfold streamFallback_loop. rewrite decide_False by lia.
  unfold finalize. simpl. rewrite Hopen, Hfull.
  by destruct (nonEmpty (trim content)).
Qed.

Lemma streaming_ticks (k : nat) (content : jsstring) (before : list Callback)
    (j : nat) (st : Exchange) :
  streaming k content before 0 st →
  j * chunkSize < length content →
  streaming k content before j (run (replicate j (fallback_tick k)) st).
Proof.
  intros H0. induction j as [|j IH]; intros Hlt; [done|].
  rewrite replicate_S_end, run_snoc.
  apply streaming_tick; [apply IH|]; unfold chunkSize in *; lia.
Qed.

Lemma nonEmpty_true (s : jsstring) : s ≠ [] → nonEmpty s = true.
Proof. by destruct s. Qed.

Lemma assistant_message_starts_streaming (st : Exchange) (content : jsstring)
    (toolRequests : nat) :
  listening st = true → hasDelta st = false → completed st = false →
  pendingToolCalls st = 0%Z → content ≠ [] →
  streaming (length (fallbacks st)) content (calls st) 0
    (step (assistant_message content toolRequests) st).
Proof.
  intros Hl Hd Hopen Hp Hc.
  assert (0 < length content) by (destruct content; [done|simpl; lia]).
  unfold step. rewrite Hl. unfold on_assistant_message.
  rewrite (nonEmpty_true content Hc), andb_false_r, Hp, Hd.
  rewrite bool_decide_eq_false_2 by lia.
  unfold streamFallback, streamFallback_loop. rewrite decide_True by done.
  split; [|split; [|done]].
  - apply list_lookup_insert_eq. simpl. rewrite length_app. simpl. lia.
  - done.
Qed.

(** Undisturbed fallback streaming. On an exchange that is listening and
    has not completed, when the terminal [assistant.message] event carries
    non-empty content, no delta was observed and no tool call is pending,
    the message and the ceil(len / 24) timer ticks of its [streamFallback],
    with no other event in between, make the caller
    receive exactly ceil(len / 24) [onDelta] callbacks, the chunks of 24
    code units of the content in order (the last one possibly shorter, never
    empty), whose concatenation is the content, followed by one [onComplete]
    carrying that content. *)
Theorem message_without_delta_is_streamed_in_chunks
    (st : Exchange) (content : jsstring) (toolRequests : nat) :
  listening st = true → hasDelta st = false → completed st = false →
  pendingToolCalls st = 0%Z → content ≠ [] →
  let n := ceilDiv (length content) 24 in
  let k := length (fallbacks st) in
  let st' :=
    run (assistant_message content toolRequests :: replicate n (fallback_tick k))
      st in
  calls st' = calls st ++ (onDelta <$> chunksOf content) ++ [onComplete content]
  ∧ length (chunksOf content) = n
  ∧ concat (chunksOf content) = content
  ∧ (∀ j, j + 1 < n → length (chunkAt content j) = 24)
  ∧ 0 < length (chunkAt content (n - 1)) ≤ 24
  ∧ completions (calls st') = completions (calls st) ++ [content]
  ∧ completed st' = true.
Proof.
  intros Hl Hd Hopen Hp Hc n k st'.
  assert (Hlen : 0 < length content) by (destruct content; [done|simpl; lia]).
  destruct (ceilDiv_chunkSize (length content) Hlen) as (Hlo & Hhi & Hn).
  fold n in Hlo, Hhi, Hn. unfold chunkSize in Hlo, Hhi.
  pose proof (assistant_message_starts_streaming st content toolRequests
                Hl Hd Hopen Hp Hc) as H0.
  fold k in H0.
  assert (Hrun : st' = step (fallback_tick k)
                         (run (replicate (n - 1) (fallback_tick k))
                            (step (assistant_message content toolRequests) st))).
  { unfold st'. replace n with (S (n - 1)) at 1 by lia.
    by rewrite replicate_S_end, <-run_snoc. }
  pose proof (streaming_ticks k content (calls st) (n - 1) _ H0) as Hs.
  unfold chunkSize in Hs. specialize (Hs ltac:(lia)).
  pose proof (streaming_last_tick k content (calls st) (n - 1) _ Hs) as Hlast.
  unfold chunkSize in Hlast. specialize (Hlast ltac:(lia)).
  destruct Hlast as [Hcalls Hdone]. destruct Hs as (_ & Hbefore & _ & _).
  rewrite <-Hrun in Hcalls, Hdone.
  assert (Hall : calls st'
                 = calls st ++ (onDelta <$> chunksOf content) ++ [onComplete content]).
  { rewrite Hcalls, Hbefore, <-app_assoc. unfold chunksOf. fold n.
    by replace (S (n - 1)) with n by lia. }
  split; [done|]. split.
  { unfold chunksOf. by rewrite length_fmap, length_seq. }
  split.
  { unfold chunksOf. fold n. rewrite chunks_concat.
    apply take_ge. unfold chunkSize. lia. }
  split.
  { intros j Hj. rewrite chunkAt_length. unfold chunkSize. lia. }
  split.
  { rewrite chunkAt_length. unfold chunkSize. lia. }
  split; [|done].
  rewrite Hall, !completions_app. simpl.
  assert (Hnone : ∀ l : list jsstring, completions (onDelta <$> l) = []).
  { induction l as [|? ? IH]; [done|]. simpl. apply IH. }
  by rewrite Hnone.
Qed.

(** A message of 36 code units reaches the caller as chunks of 24 and 12. *)
Lemma message_without_delta_is_streamed_in_chunks_witness :
  let content := js "abcdefghijklmnopqrstuvwxyz0123456789" in
  calls (run [assistant_message content 0; fallback_tick 0; fallback_tick 0]
           (listeningExchange (js "s") ∅))
  = [onDelta (js "abcdefghijklmnopqrstuvwx"); onDelta (js "yz0123456789");
     onComplete content].
Proof.
  intros content.
  exact (proj1 (message_without_delta_is_streamed_in_chunks
                  (listeningExchange (js "s") ∅) content 0
                  eq_refl eq_refl eq_refl eq_refl ltac:(discriminate))).
Defined.

(** C4. The chunks are to be followed by [onComplete], and [streamFallback]
    is written for that: [finalize] is its [then] callback. The handler of
    [session.idle] does not know of a running [streamFallback]: the idle
    event that ends the turn, arriving during the 15 ms waits between the
    chunks, finds the latch open and completes the exchange at once, and the
    remaining chunks reach the caller after [onComplete]. The message here
    has 36 code units; the idle event follows it directly in [first] and
    comes after the first tick in [second], for a message of 60. *)
Theorem idle_completes_before_remaining_chunks :
  let content := js "abcdefghijklmnopqrstuvwxyz0123456789" in
  let long :=
    js "abcdefghijklmnopqrstuvwxyz0123456789abcdefghijklmnopqrstuvwx" in
  let first :=
    sendMessage SessionResolved (js "s") (js "q") ∅
      [assistant_message content 0; session_idle; fallback_tick 0;
       fallback_tick 0] in
  let second :=
    sendMessage SessionResolved (js "s") (js "q") ∅
      [assistant_message long 0; fallback_tick 0; session_idle; fallback_tick 0;
       fallback_tick 0] in
  calls first
  = [onDelta (js "abcdefghijklmnopqrstuvwx"); onComplete content;
     onDelta (js "yz0123456789")]
  ∧ calls second
    = [onDelta (js "abcdefghijklmnopqrstuvwx");
       onDelta (js "yz0123456789abcdefghijkl"); onComplete long;
       onDelta (js "mnopqrstuvwx")]
  ∧ last (calls first) ≠ Some (onComplete content)
  ∧ last (calls second) ≠ Some (onComplete long).
Proof. vm_compute. done. Qed.

(** ** Reachable states are consistent *)

Lemma step_consistent (e : Event) (st : Exchange) :
  consistent st → consistent (step e st).
Proof.
  unfold consistent. intros (Htimer & Hres & Hrej & Hret).
  destruct e; handlers; repeat case_match; simpl in *;
    (split; [|split; [|split]]); intros; simplify_eq;
    rewrite ?negb_false_iff, ?negb_true_iff in *;
    try (intuition congruence); eauto.
Qed.

Lemma run_consistent (events : list Event) (sid : jsstring) (cache : Cache) :
  consistent (run events (listeningExchange sid cache)).
Proof.
  assert (H : ∀ st, consistent st → consistent (run events st)).
  { induction events as [|e events IH]; intros st Hst; [done|].
    simpl. apply IH. by apply step_consistent. }
  apply H. unfold consistent. simpl. repeat split; intros; simplify_eq.
Qed.

(** ** Deferred completion *)

(** C5, as stated, fails in its parenthesis: a message that arrives while a
    tool call is pending does not overwrite a buffer that deltas have
    already filled. Here the buffer holds ["ab"], one call is pending, and
    the content ["xyz"] of the message is dropped. *)
Lemma deferred_message_keeps_filled_buffer :
  let st :=
    run [message_delta (js "ab");
         tool_execution_start (js "a") (js "search") (js "{}")]
      (listeningExchange (js "s") ∅) in
  pendingToolCalls st = 1%Z
  ∧ fullContent st = js "ab"
  ∧ fullContent (step (assistant_message (js "xyz") 0) st) = js "ab"
  ∧ fullContent (step (assistant_message (js "xyz") 0) st) ≠ js "xyz".
Proof. vm_compute. repeat split; discriminate. Qed.

(** C5, amended. While the exchange listens, a terminal [assistant.message]
    event fires no completion (no callback at all, the latch, the cache and
    the fallbacks untouched) when it carries tool requests with empty
    content, or when the pending counter is nonzero; in the latter case its
    non-empty content is captured into the output buffer only if the buffer
    is still empty, and a buffer that already holds content is kept. A
    [session.idle] event that finds the latch open and the pending counter
    at 0 completes the exchange with the buffered content, whatever it is,
    the empty string included. *)
Theorem deferred_message_then_idle
    (st : Exchange) (content : jsstring) (toolRequests : nat) :
  listening st = true →
  let st' := step (assistant_message content toolRequests) st in
  (0 < toolRequests → content = [] → st' = st)
  ∧ ((0 < pendingToolCalls st)%Z →
       calls st' = calls st
       ∧ completed st' = completed st
       ∧ messageHistoryCache st' = messageHistoryCache st
       ∧ fallbacks st' = fallbacks st
       ∧ graceTimer st' = graceTimer st
       ∧ (content ≠ [] → fullContent st = [] → fullContent st' = content)
       ∧ (fullContent st ≠ [] → fullContent st' = fullContent st)
       ∧ (content = [] → fullContent st' = fullContent st))
  ∧ (completed st = false → pendingToolCalls st = 0%Z →
       calls (step session_idle st) = calls st ++ [onComplete (fullContent st)]
       ∧ completed (step session_idle st) = true).
Proof.
  intros Hl st'. unfold st', step. rewrite Hl. split; [|split].
  - intros Hn ->. unfold on_assistant_message.
    by rewrite bool_decide_eq_true_2 by done.
  - intros Hp. unfold on_assistant_message.
    rewrite (bool_decide_eq_true_2 (0 < pendingToolCalls st)%Z) by done.
    destruct (bool_decide (0 < toolRequests) && negb (nonEmpty content)) eqn:E.
    { apply andb_prop in E as [_ E]. destruct content; [|done].
      repeat split; done. }
    destruct content as [|c content], (fullContent st) as [|b buffer] eqn:Eb;
      simpl; rewrite ?Eb; repeat split; done.
  - intros Hopen Hp. unfold on_session_idle. rewrite Hopen, Hp. simpl.
    unfold finalize. rewrite Hopen.
    by destruct (nonEmpty (trim (fullContent st))).
Qed.

(** A message that only announces tool requests is ignored, and the idle
    event that follows completes the exchange with the empty buffer; a
    message that arrives while a call is pending fills the empty buffer and
    invokes nothing. *)
Lemma deferred_message_then_idle_witness :
  let st := listeningExchange (js "s") ∅ in
  let busy :=
    step (tool_execution_start (js "a") (js "search") (js "{}")) st in
  step (assistant_message [] 1) st = st
  ∧ calls (step session_idle st) = [onComplete []]
  ∧ calls (step (assistant_message (js "xyz") 0) busy) = calls busy
  ∧ fullContent (step (assistant_message (js "xyz") 0) busy) = js "xyz".
Proof.
  intros st busy.
  destruct (deferred_message_then_idle st [] 1 eq_refl) as (Hignored & _ & Hidle).
  destruct (deferred_message_then_idle busy (js "xyz") 0 eq_refl)
    as (_ & Hdeferred & _).
  destruct (Hdeferred ltac:(reflexivity)) as (Hcalls & _ & _ & _ & _ & Hfill & _).
  split; [|split; [|split]].
  - apply Hignored; [lia|reflexivity].
  - exact (proj1 (Hidle eq_refl eq_refl)).
  - exact Hcalls.
  - apply Hfill; [discriminate|reflexivity].
Defined.

(** ** The race timer *)

(** C6, as stated, fails in two places. Its last part: [finalize] does not
    disarm the timer, it schedules [cleanup] 100 ms later, and until then
    the timer can still fire; after the completed exchange [finished] the timer
    is still armed, and it fires. And its second part: in [early] the timer
    fires on an empty buffer while [session.send] is still pending; the
    rejection of [completionPromise] has no handler, the process ends, and
    [onError] is never invoked, not even when [session.send] would have
    resolved. *)
Lemma timer_stays_armed_and_early_timeout_is_unreported :
  let finished :=
    run [message_delta (js "hi"); assistant_message (js "hi") 0]
      (listeningExchange (js "s") ∅) in
  let early :=
    run [timeout_fires; send_resolves] (listeningExchange (js "s") ∅) in
  completed finished = true
  ∧ calls finished = [onDelta (js "hi"); onComplete (js "hi")]
  ∧ timeoutHandle finished = TimerArmed
  ∧ timeoutHandle (step timeout_fires finished) = TimerFired
  ∧ calls early = []
  ∧ caller early = ProcessExited.
Proof. vm_compute. done. Qed.

(** C6, amended. In every state an exchange reaches: when the timer fires
    before completion and the buffer is not empty, the exchange completes
    with the buffered content, through [onComplete] and with no error; when
    the buffer is empty and [session.send] has resolved before the timer
    fires (earlier, or as the event just before it), the timeout error is
    delivered through [onError] and [sendMessage] returns. The first
    [finalize] leaves the timer as it is and schedules [cleanup]; when that
    grace timer fires the timer is cleared, and a cleared or spent timer
    does nothing. If the timer fires after completion, inside the grace
    delay, it invokes no callback and leaves the cache alone. *)
Theorem timeout_outcomes (sid : jsstring) (cache : Cache) (events : list Event) :
  let st := run events (listeningExchange sid cache) in
  (timeoutHandle st = TimerArmed → completed st = false → fullContent st ≠ [] →
     calls (step timeout_fires st) = calls st ++ [onComplete (fullContent st)]
     ∧ completed (step timeout_fires st) = true)
  ∧ (timeoutHandle st = TimerArmed → completed st = false → fullContent st = [] →
       (caller st = AwaitingCompletion →
          calls (step timeout_fires st) = calls st ++ [onError timeoutErrorMessage]
          ∧ completed (step timeout_fires st) = false
          ∧ caller (step timeout_fires st) = Returned)
       ∧ (caller st = AwaitingSend →
            calls (run [send_resolves; timeout_fires] st)
            = calls st ++ [onError timeoutErrorMessage]
            ∧ completed (run [send_resolves; timeout_fires] st) = false
            ∧ caller (run [send_resolves; timeout_fires] st) = Returned))
  ∧ (∀ content, completed st = false →
       timeoutHandle (finalize content st) = timeoutHandle st
       ∧ graceTimer (finalize content st) = true)
  ∧ (graceTimer st = true → timeoutHandle (step grace_fires st) = TimerNull)
  ∧ (timeoutHandle st ≠ TimerArmed → step timeout_fires st = st)
  ∧ (completed st = true →
       calls (step timeout_fires st) = calls st
       ∧ messageHistoryCache (step timeout_fires st) = messageHistoryCache st).
Proof.
  intros st.
  destruct (run_consistent events sid cache) as (Htimer & Hres & Hrej & Hret).
  fold st in Htimer, Hres, Hrej, Hret.
  assert (Harmed : timeoutHandle st = TimerArmed → cleanupCalled st = false).
  { intros Ha. destruct (cleanupCalled st); [|done].
    specialize (Htimer eq_refl). congruence. }
  assert (Hpending : timeoutHandle st = TimerArmed → completed st = false →
                     completionPromise st = Pending).
  { intros Ha Hopen. destruct (completionPromise st) eqn:Ep; [done| |].
    - specialize (Hres eq_refl). congruence.
    - specialize (Hrej _ eq_refl). specialize (Harmed Ha). congruence. }
  assert (Hempty : ∀ s : Exchange,
            timeoutHandle s = TimerArmed → completed s = false →
            fullContent s = [] → cleanupCalled s = false →
            completionPromise s = Pending → caller s = AwaitingCompletion →
            calls (step timeout_fires s) = calls s ++ [onError timeoutErrorMessage]
            ∧ completed (step timeout_fires s) = false
            ∧ caller (step timeout_fires s) = Returned).
  { intros s Ha Hopen Hbuf Hcl Hp Hc. unfold step. rewrite Ha. unfold on_timeout.
    simpl. rewrite Hopen, Hbuf. simpl. unfold cleanup. simpl. rewrite Hcl.
    unfold reject. simpl. rewrite Hp, Hc. done. }
  split; [|split; [|split; [|split; [|split]]]].
  - intros Ha Hopen Hbuf. unfold step. rewrite Ha. unfold on_timeout. simpl.
    rewrite Hopen, (nonEmpty_true _ Hbuf). simpl.
    unfold finalize. simpl. rewrite Hopen.
    unfold resolve. repeat case_match; done.
  - intros Ha Hopen Hbuf. split.
    + intros Hcaller. by apply Hempty; auto.
    + intros Hcaller.
      change (run [send_resolves; timeout_fires] st)
        with (step timeout_fires (step send_resolves st)).
      assert (Hsent : step send_resolves st = set_caller AwaitingCompletion st).
      { unfold step, on_send_resolves. by rewrite Hcaller, (Hpending Ha Hopen). }
      rewrite Hsent.
      by destruct (Hempty (set_caller AwaitingCompletion st)) as (? & ? & ?);
        simpl; auto.
  - intros c Hopen. unfold finalize. rewrite Hopen.
    by destruct (nonEmpty (trim c)).
  - intros Hgrace. unfold step. rewrite Hgrace. unfold cleanup. simpl.
    destruct (cleanupCalled st) eqn:Ecl; [|done]. simpl. by apply Htimer.
  - intros Hna. unfold step. by destruct (timeoutHandle st).
  - intros Hdone. unfold step. destruct (timeoutHandle st); try done.
    unfold on_timeout. simpl. rewrite Hdone. simpl.
    unfold resolve. by repeat case_match.
Qed.

(** The timer on a silent exchange whose [session.send] has resolved, and on
    one that has buffered a delta. *)
Lemma timeout_outcomes_witness :
  calls (run [send_resolves; timeout_fires] (listeningExchange (js "s") ∅))
  = [onError timeoutErrorMessage]
  ∧ calls (run [message_delta (js "par"); timeout_fires]
             (listeningExchange (js "s") ∅))
    = [onDelta (js "par"); onComplete (js "par")].
Proof.
  split.
  - destruct (timeout_outcomes (js "s") ∅ [send_resolves]) as (_ & Hempty & _).
    exact (proj1 (proj1 (Hempty eq_refl eq_refl eq_refl) eq_refl)).
  - destruct (timeout_outcomes (js "s") ∅ [message_delta (js "par")])
      as (Hpartial & _).
    exact (proj1 (Hpartial eq_refl eq_refl ltac:(discriminate))).
Defined.

(** ** The answer of the user input hook *)

(** C7, as stated, fails: without a registered responder the hooks answer
    with [wasFreeform: true], so the empty answer is flagged as freeform. *)
Lemma missing_responder_answer_is_flagged_freeform :
  let request :=
    {| question := js "Proceed?"; choices := None; allowFreeform := None |} in
  getOrCreateSession_onUserInputRequest ∅ (js "s") request
  = Settled {| answer := []; wasFreeform := true |}
  ∧ createSession_onUserInputRequest ∅ (js "s") (js "s") request
    = Settled {| answer := []; wasFreeform := true |}
  ∧ getOrCreateSession_onUserInputRequest ∅ (js "s") request
    ≠ Settled {| answer := []; wasFreeform := false |}.
Proof. repeat split. discriminate. Qed.

(** C7, amended. For every user-input request arriving on a session with no
    registered responder, the hook resolves at once, without waiting for
    anything, with the empty answer flagged as freeform
    ([wasFreeform = true]); this holds for the hook of a created session and
    for the hook of a resumed one. *)
Theorem missing_responder_resolves_at_once
    (userInputHandlers : gmap jsstring UserInputHandler)
    (sessionId runtimeId : jsstring) (request : UserInputRequest) :
  (userInputHandlers !! sessionId = None →
     getOrCreateSession_onUserInputRequest userInputHandlers sessionId request
     = Settled {| answer := []; wasFreeform := true |})
  ∧ (userInputHandlers !! or_else sessionId runtimeId = None →
       createSession_onUserInputRequest userInputHandlers sessionId runtimeId
         request
       = Settled {| answer := []; wasFreeform := true |}).
Proof.
  split.
  - intros Hnone. unfold getOrCreateSession_onUserInputRequest.
    by rewrite Hnone.
  - intros Hnone. unfold createSession_onUserInputRequest.
    replace (or_else (or_else sessionId runtimeId) (or_else sessionId []))
      with (or_else sessionId runtimeId); [by rewrite Hnone|].
    by destruct sessionId, runtimeId.
Qed.

(** A responder registered for another session does not answer. *)
Lemma missing_responder_resolves_at_once_witness :
  let handlers : gmap jsstring UserInputHandler := {[ js "other" := λ _, Hangs ]} in
  let request :=
    {| question := js "Proceed?"; choices := None; allowFreeform := None |} in
  getOrCreateSession_onUserInputRequest handlers (js "s") request
  = Settled {| answer := []; wasFreeform := true |}
  ∧ createSession_onUserInputRequest handlers [] (js "generated") request
    = Settled {| answer := []; wasFreeform := true |}.
Proof.
  intros handlers request.
  destruct (missing_responder_resolves_at_once handlers (js "s") (js "s") request)
    as [Hresumed _].
  destruct (missing_responder_resolves_at_once handlers [] (js "generated") request)
    as [_ Hcreated].
  split; [apply Hresumed|apply Hcreated]; reflexivity.
Defined.

(** ** Deleting a session *)

Section RegistryFacts.

Import Registry.

(** C8, as stated, fails: [deleteSession] first awaits [getClient()], and
    when that rejects it returns before any map is touched. The cache
    entries and the agent association of ["s"] are still there. *)
Lemma delete_without_client_purges_nothing :
  let entry := {| role := js "user"; content := js "hello" |} in
  let reg :=
    {| activeSessions := ∅;
       sessionAgentMap := {[ js "s" := js "default" ]};
       messageHistoryCache := {[ js "s" := [entry] ]} |} in
  let result :=
    deleteSession (Thrown (js "spawn failed")) (λ _, Fulfilled) (js "s") reg in
  result.2 = Thrown (js "spawn failed")
  ∧ messageHistoryCache result.1 !! js "s" = Some [entry]
  ∧ sessionAgentMap result.1 !! js "s" = Some (js "default").
Proof. repeat split. Qed.

(** C8, amended. Once the client has been obtained, [deleteSession] never
    propagates an error of [session.destroy()]: whatever the handle of the
    session does when destroyed, the call ends the way
    [client.deleteSession] ends. It then always purges the cached handle,
    the cache entries and the agent association of the session id, for
    every id, cached or not, and leaves the other sessions alone. *)
Theorem delete_swallows_destroy_errors_and_purges
    (client_deleteSession : jsstring → Outcome) (sessionId : jsstring)
    (reg : State) :
  let result := deleteSession Fulfilled client_deleteSession sessionId reg in
  result.2 = client_deleteSession sessionId
  ∧ activeSessions result.1 !! sessionId = None
  ∧ messageHistoryCache result.1 !! sessionId = None
  ∧ sessionAgentMap result.1 !! sessionId = None
  ∧ (∀ other, other ≠ sessionId →
       activeSessions result.1 !! other = activeSessions reg !! other
       ∧ messageHistoryCache result.1 !! other = messageHistoryCache reg !! other
       ∧ sessionAgentMap result.1 !! other = sessionAgentMap reg !! other).
Proof.
  intros result. unfold result, deleteSession, destroyIgnoringErrors.
  destruct (activeSessions reg !! sessionId) as [session|] eqn:E.
  - destruct (destroy session); simpl.
    all: repeat split; intros; simpl;
      by rewrite ?lookup_delete_eq, ?lookup_delete_ne by done.
  - simpl. repeat split; intros; simpl;
      by rewrite ?lookup_delete_eq, ?lookup_delete_ne by done.
Qed.

(** A cached session whose [destroy()] throws is deleted all the same. *)
Lemma delete_swallows_destroy_errors_and_purges_witness :
  let entry := {| role := js "user"; content := js "hello" |} in
  let reg :=
    {| activeSessions := {[ js "s" := {| destroy := Thrown (js "EPIPE") |} ]};
       sessionAgentMap := {[ js "s" := js "default" ]};
       messageHistoryCache := {[ js "s" := [entry] ]} |} in
  let result := deleteSession Fulfilled (λ _, Fulfilled) (js "s") reg in
  result.2 = Fulfilled
  ∧ activeSessions result.1 !! js "s" = None
  ∧ messageHistoryCache result.1 !! js "s" = None
  ∧ sessionAgentMap result.1 !! js "s" = None.
Proof.
  intros entry reg result.
  destruct (delete_swallows_destroy_errors_and_purges (λ _, Fulfilled) (js "s") reg)
    as (Hend & Hhandle & Hcache & Hagent & _).
  repeat split; assumption.
Defined.

End RegistryFacts.

(** ** What the cache records of an exchange *)

Lemma messagesOf_addMessageToCache (sid r c : jsstring) (cache : Cache) :
  messagesOf sid (addMessageToCache sid r c cache)
  = trimOldest (messagesOf sid cache ++ [{| role := r; content := c |}]).
Proof. unfold messagesOf at 1. by rewrite addMessageToCache_lookup. Qed.

(** The last entry of a session survives one more append. *)
Lemma last_entry_survives_append (sid r c : jsstring) (cache : Cache)
    (e : CacheEntry) :
  last (messagesOf sid cache) = Some e →
  length (messagesOf sid cache) ≤ MAX_MESSAGES_PER_SESSION →
  e ∈ messagesOf sid (addMessageToCache sid r c cache).
Proof.
  intros Hlast Hlen. rewrite messagesOf_addMessageToCache, trimOldest_drop.
  destruct (messagesOf sid cache) as [|x l] using rev_ind; [done|].
  rewrite last_snoc in Hlast. injection Hlast as ->.
  rewrite !length_app in *. simpl in *. rewrite <-app_assoc.
  rewrite drop_app_le by (unfold MAX_MESSAGES_PER_SESSION in *; lia).
  set_solver.
Qed.

(** How an exchange on a resolved session ends up: nothing completed and
    the cache as it was at the send, or one completion, recorded if it is
    not blank. *)
Lemma sendMessage_view (sid prompt : jsstring) (cache : Cache)
    (events : list Event) :
  let sent := addMessageToCache sid (js "user") prompt cache in
  let st := sendMessage SessionResolved sid prompt cache events in
  (completions (calls st) = [] ∧ messageHistoryCache st = sent)
  ∨ ∃ c, completions (calls st) = [c]
         ∧ messageHistoryCache st = cacheAfter sid c sent.
Proof.
  intros sent st. unfold st, sendMessage. fold sent.
  destruct (run_from_open events (listeningExchange sid sent) eq_refl)
    as [H|[c H]]; unfold view in H; simpl in H;
    injection H as _ _ Hcache Hcalls.
  - left. by rewrite Hcache, Hcalls.
  - right. exists c. by rewrite Hcache, Hcalls.
Qed.

(** C9, as stated, fails: an exchange that completes with blank content
    invokes [onComplete] and records no assistant entry. A [session.idle]
    on an exchange that produced no content completes it with the empty
    string; the session still holds the user prompt only. The same happens
    when the content is white space. *)
Lemma blank_completion_is_not_cached :
  let idle :=
    sendMessage SessionResolved (js "s") (js "q") ∅ [session_idle] in
  let spaces :=
    sendMessage SessionResolved (js "s") (js "q") ∅
      [message_delta (js "  "); assistant_message (js "  ") 0] in
  calls idle = [onComplete []]
  ∧ messagesOf (js "s") (messageHistoryCache idle)
    = [{| role := js "user"; content := js "q" |}]
  ∧ calls spaces = [onDelta (js "  "); onComplete (js "  ")]
  ∧ messagesOf (js "s") (messageHistoryCache spaces)
    = [{| role := js "user"; content := js "q" |}].
Proof. vm_compute. done. Qed.

(** C9, amended. For every exchange that completes ([onComplete] fires)
    with content that is not blank, that is, not empty after [trim], the
    cache records the finished turn: the last entry of the session has role
    ["assistant"] and the completed content. When the content is blank
    nothing is recorded, and the cache is as it was when the message was
    sent. *)
Theorem completed_turn_is_cached_unless_blank
    (sid prompt : jsstring) (cache : Cache) (events : list Event)
    (completedContent : jsstring) :
  let st := sendMessage SessionResolved sid prompt cache events in
  onComplete completedContent ∈ calls st →
  (nonEmpty (trim completedContent) = true →
     last (messagesOf sid (messageHistoryCache st))
     = Some {| role := js "assistant"; content := completedContent |})
  ∧ (nonEmpty (trim completedContent) = false →
       messageHistoryCache st = addMessageToCache sid (js "user") prompt cache).
Proof.
  intros st Hfired. apply elem_of_completions in Hfired.
  destruct (sendMessage_view sid prompt cache events) as [[Hnone _]|[c [Hone Hcache]]];
    fold st in Hnone || fold st in Hone, Hcache.
  - rewrite Hnone in Hfired. by apply elem_of_nil in Hfired.
  - rewrite Hone in Hfired. apply list_elem_of_singleton in Hfired as ->.
    rewrite Hcache. unfold cacheAfter. split; intros ->; [|done].
    apply addMessageToCache_last.
Qed.

(** A streamed answer is the last entry of its session. *)
Lemma completed_turn_is_cached_unless_blank_witness :
  last (messagesOf (js "s")
          (messageHistoryCache
             (sendMessage SessionResolved (js "s") (js "q") ∅
                [message_delta (js "hi"); assistant_message (js "hi") 0])))
  = Some {| role := js "assistant"; content := js "hi" |}.
Proof.
  refine (proj1 (completed_turn_is_cached_unless_blank (js "s") (js "q") ∅
                   [message_delta (js "hi"); assistant_message (js "hi") 0]
                   (js "hi") _) eq_refl).
  vm_compute. set_solver.
Defined.

(** C10. For every [sendMessage] call that resolves its session, the user
    prompt is the last entry of the session in the cache in the state in
    which [session.send] is issued (the body awaits the send, no callback
    has been invoked). Whatever events follow, the entry stays in the cache:
    in particular after a session error and after a timeout with an empty
    buffer, where the exchange ends with [onError] and the cache is exactly
    as it was at the send. *)
Theorem user_prompt_is_cached_before_send
    (sid prompt : jsstring) (cache : Cache) :
  let user := {| role := js "user"; content := prompt |} in
  let sent := sendMessage SessionResolved sid prompt cache [] in
  (caller sent = AwaitingSend
   ∧ calls sent = []
   ∧ last (messagesOf sid (messageHistoryCache sent)) = Some user)
  ∧ (∀ events,
       user ∈ messagesOf sid
                (messageHistoryCache
                   (sendMessage SessionResolved sid prompt cache events)))
  ∧ (∀ message,
       let st :=
         sendMessage SessionResolved sid prompt cache [session_error message] in
       calls st = [onError (or_else message unknownErrorMessage)]
       ∧ messageHistoryCache st = messageHistoryCache sent)
  ∧ (let st :=
       sendMessage SessionResolved sid prompt cache
         [send_resolves; timeout_fires] in
     calls st = [onError timeoutErrorMessage]
     ∧ messageHistoryCache st = messageHistoryCache sent).
Proof.
  intros user sent.
  assert (Hlast : last (messagesOf sid (messageHistoryCache sent)) = Some user).
  { apply addMessageToCache_last. }
  assert (Hlen : length (messagesOf sid (messageHistoryCache sent))
                 ≤ MAX_MESSAGES_PER_SESSION).
  { unfold sent. simpl. rewrite messagesOf_addMessageToCache, trimOldest_length.
    lia. }
  split; [done|]. split; [|done].
  intros events.
  destruct (sendMessage_view sid prompt cache events) as [[_ ->]|[c [_ ->]]].
  - apply list_elem_of_lookup. exists (pred (length (messagesOf sid (messageHistoryCache sent)))).
    by rewrite <-last_lookup.
  - unfold cacheAfter. destruct (nonEmpty (trim c)).
    + by apply last_entry_survives_append.
    + apply list_elem_of_lookup.
      exists (pred (length (messagesOf sid (messageHistoryCache sent)))).
      by rewrite <-last_lookup.
Qed.

(** ** Exchanges without an error source are orderly *)

Lemma errors_app (cs1 cs2 : list Callback) :
  errors (cs1 ++ cs2) = errors cs1 ++ errors cs2.
Proof. apply omap_app. Qed.

Lemma benign_orderly (st st' : Exchange) :
  benign st st' → orderly st → orderly st'.
Proof.
  unfold benign, orderly.
  intros (-> & Hbuf & -> & -> & -> & -> & -> & -> & -> & -> & ->).
  intros (Hfb & Hgrace & Hopen & Hclean & Hrej & Herr).
  split; [auto|]. done.
Qed.

Ltac use_rejected :=
  match goal with
  | Hrej : ∀ m, completionPromise ?s = Rejected m → _,
    Hm : completionPromise ?s = Rejected _ |- _ =>
      destruct (Hrej _ Hm) as (? & ? & ? & ?)
  end.

Ltac use_errors :=
  match goal with
  | Herr : errors _ = [] ∨ _ |- _ => destruct Herr as [?|(? & ? & ? & ?)]
  end.

Ltac settle :=
  intros; try use_rejected;
  first [done | congruence | intuition congruence
        | by (match goal with
              | Hnil : fallbacks ?s = [], Hk : fallbacks ?s !! _ = Some _ |- _ =>
                  rewrite Hnil in Hk
              end)
        | use_errors; first [done | congruence | by left | intuition congruence
                            | right; eexists; by repeat split ]
        | eauto].

Ltac benign_tac :=
  unfold benign; simpl; rewrite ?completions_app, ?errors_app; simpl;
  rewrite ?app_nil_r; repeat split; try done.

Lemma finalize_orderly (c : jsstring) (st : Exchange) :
  (∀ m, completionPromise st ≠ Rejected m) → orderly st → orderly (finalize c st).
Proof.
  intros Hnr Ho. unfold finalize. destruct (completed st) eqn:Ec; [done|].
  destruct Ho as (Hfb & Hgrace & Hopen & Hclean & Hrej & Herr).
  unfold orderly. destruct (nonEmpty (trim c)); simpl;
    rewrite ?completions_app, ?errors_app; simpl; rewrite ?app_nil_r;
    (repeat split; settle).
Qed.

Lemma cleanup_orderly (st : Exchange) : orderly st → orderly (cleanup st).
Proof.
  intros Ho. unfold cleanup. destruct (cleanupCalled st) eqn:Ec; [done|].
  destruct Ho as (Hfb & Hgrace & Hopen & Hclean & Hrej & Herr).
  unfold orderly. simpl. repeat split; settle.
Qed.

Lemma resolve_orderly (st : Exchange) :
  completed st = true → orderly st → orderly (resolve st).
Proof.
  intros Hc Ho. unfold resolve.
  destruct Ho as (Hfb & Hgrace & Hopen & Hclean & Hrej & Herr).
  destruct (completionPromise st) eqn:Ep; try done;
  [|unfold orderly; rewrite Ep; done..].
  unfold orderly.
  destruct (caller st) eqn:Eca; simpl; rewrite ?Ep, ?Eca;
    repeat split; settle.
Qed.

Lemma not_rejected_listening (st : Exchange) :
  orderly st → listening st = true → ∀ m, completionPromise st ≠ Rejected m.
Proof.
  intros (_ & _ & _ & _ & Hrej & _) Hl m Hm.
  destruct (Hrej m Hm) as (_ & Hl' & _). congruence.
Qed.

Lemma not_rejected_armed (st : Exchange) :
  orderly st → timeoutHandle st = TimerArmed → ∀ m, completionPromise st ≠ Rejected m.
Proof.
  intros (_ & _ & _ & _ & Hrej & _) Ha m Hm.
  destruct (Hrej m Hm) as (_ & _ & Hna & _). congruence.
Qed.

Lemma not_rejected_streaming (st : Exchange) (k : nat) (x : jsstring * nat) :
  orderly st → fallbacks st !! k = Some x → ∀ m, completionPromise st ≠ Rejected m.
Proof.
  intros (_ & _ & _ & _ & Hrej & _) Hk m Hm.
  destruct (Hrej m Hm) as (_ & _ & _ & Hnil). by rewrite Hnil in Hk.
Qed.

Lemma catch_orderly (m : jsstring) (st : Exchange) :
  orderly st → completionPromise st = Rejected m → errors (calls st) = [] →
  orderly (catch m st).
Proof.
  intros Ho Hm He. apply cleanup_orderly in Ho.
  assert (Hm' : completionPromise (cleanup st) = Rejected m).
  { unfold cleanup. by destruct (cleanupCalled st). }
  assert (He' : errors (calls (cleanup st)) = []).
  { unfold cleanup. by destruct (cleanupCalled st). }
  unfold catch. revert Ho Hm' He'. generalize (cleanup st). clear. intros st.
  intros (Hfb & Hgrace & Hopen & Hclean & Hrej & Herr) Hm He.
  unfold orderly. simpl. rewrite completions_app, errors_app, He. simpl.
  rewrite app_nil_r.
  repeat split; settle.
Qed.

Lemma streamFallback_loop_orderly (k : nat) (c : jsstring) (i : nat) (st : Exchange) :
  is_Some (fallbacks st !! k) → orderly st → orderly (streamFallback_loop k c i st).
Proof.
  intros [x Hk] Ho. unfold streamFallback_loop. case_decide.
  - assert (Hne : fallbacks st ≠ []) by (intros E; by rewrite E in Hk).
    destruct Ho as (Hfb & Hgrace & Hopen & Hclean & Hrej & Herr).
    unfold orderly. simpl. rewrite completions_app, errors_app. simpl.
    rewrite !app_nil_r.
    repeat split; settle.
  - apply finalize_orderly.
    + apply (not_rejected_streaming st k x Ho Hk).
    + assert (Hne : fullContent st ≠ []).
      { destruct Ho as (Hfb & _). apply Hfb. intros E. by rewrite E in Hk. }
      destruct Ho as (Hfb & Hgrace & Hopen & Hclean & Hrej & Herr).
      unfold orderly. simpl.
      repeat split; settle.
Qed.

Lemma on_timeout_orderly (st : Exchange) :
  orderly st → timeoutHandle st = TimerArmed →
  orderly (on_timeout (set_timeoutHandle TimerFired st)).
Proof.
  intros Ho Ha.
  pose proof (not_rejected_armed st Ho Ha) as Hnr.
  assert (Hcl : cleanupCalled st = false).
  { destruct Ho as (_ & _ & _ & Hclean & _).
    destruct (cleanupCalled st); [|done]. destruct (Hclean eq_refl). congruence. }
  assert (Ho' : orderly (set_checkComplete false (set_timeoutHandle TimerFired st))).
  { destruct Ho as (Hfb & Hgrace & Hopen & Hclean & Hrej & Herr).
    unfold orderly. simpl. repeat split; settle. }
  unfold on_timeout.
  change (completed (set_checkComplete false (set_timeoutHandle TimerFired st)))
    with (completed st).
  change (fullContent (set_checkComplete false (set_timeoutHandle TimerFired st)))
    with (fullContent st).
  destruct (completed st) eqn:Ec; simpl.
  - by apply resolve_orderly.
  - destruct (nonEmpty (fullContent st)) eqn:Eb.
    + apply resolve_orderly.
      * unfold finalize. simpl. rewrite Ec. by destruct (nonEmpty (trim (fullContent st))).
      * apply finalize_orderly; [done|done].
    + unfold cleanup. simpl. rewrite Hcl. unfold reject. simpl.
      assert (Hb : fullContent st = []) by (by destruct (fullContent st)).
      destruct Ho as (Hfb & Hgrace & Hopen & Hclean & Hrej & Herr).
      assert (Hnf : fallbacks st = []).
      { destruct (fallbacks st) eqn:Ef; [done|]. exfalso. by apply Hfb. }
      assert (Hne : errors (calls st) = []).
      { destruct Herr as [?|(m & _ & Hm & _)]; [done|]. by apply Hnr in Hm. }
      destruct (completionPromise st) as [| |msg] eqn:Ep; simpl.
      * destruct (caller st) eqn:Eca; simpl.
        2:{ unfold catch, cleanup. simpl. unfold orderly. simpl.
            rewrite completions_app, errors_app, Hne. simpl. rewrite app_nil_r.
            repeat split; settle. }
        all: unfold processExits, orderly; simpl; rewrite ?Ep, ?Eca;
          repeat split; settle.
      * unfold orderly. simpl. rewrite ?Ep. repeat split; settle.
      * by destruct (Hnr msg).
Qed.

Lemma on_assistant_message_orderly (c : jsstring) (n : nat) (st : Exchange) :
  orderly st → listening st = true → orderly (on_assistant_message c n st).
Proof.
  intros Ho Hl. pose proof (not_rejected_listening st Ho Hl) as Hnr.
  unfold on_assistant_message.
  destruct (bool_decide (0 < n) && negb (nonEmpty c)); [done|].
  assert (Hset : c ≠ [] → orderly (set_fullContent c st)).
  { intros Hc. apply (benign_orderly st); [benign_tac|done]. }
  destruct (bool_decide (0 < pendingToolCalls st)%Z).
  { destruct (nonEmpty c && negb (nonEmpty (fullContent st))) eqn:E; [|done].
    apply Hset. apply andb_prop in E as [E _]. by destruct c. }
  destruct (negb (hasDelta st) && nonEmpty c) eqn:E.
  { apply andb_prop in E as [_ E].
    assert (Hc : c ≠ []) by (by destruct c).
    unfold streamFallback.
    apply streamFallback_loop_orderly.
    - simpl. rewrite lookup_app_r by done. rewrite Nat.sub_diag. by eexists.
    - specialize (Hset Hc).
      destruct Hset as (Hfb & Hgrace & Hopen & Hclean & Hrej & Herr).
      unfold orderly. simpl in *. repeat split; settle. }
  destruct (nonEmpty c && negb (nonEmpty (fullContent st))) eqn:E2.
  - apply andb_prop in E2 as [E2 _].
    assert (Hc : c ≠ []) by (by destruct c).
    destruct (nonEmpty c || nonEmpty (fullContent (set_fullContent c st))); [|by apply Hset].
    apply finalize_orderly; [done|by apply Hset].
  - destruct (nonEmpty c || nonEmpty (fullContent st)); [|done].
    by apply finalize_orderly.
Qed.

Lemma step_orderly (e : Event) (st : Exchange) :
  quietSource e = true → orderly st → orderly (step e st).
Proof.
  intros Hq Ho. destruct e; try done; simpl.
  - destruct (listening st) eqn:Hl; [|done].
    apply (benign_orderly st); [|done]. unfold on_message_delta.
    destruct (nonEmpty deltaContent); benign_tac;
      intros Hb E; apply app_eq_nil in E as [? _]; done.
  - destruct (listening st) eqn:Hl; [|done].
    unfold on_reasoning_delta. destruct (nonEmpty deltaContent); [|done].
    apply (benign_orderly st); [benign_tac|done].
  - destruct (listening st) eqn:Hl; [|done].
    apply (benign_orderly st); [benign_tac|done].
  - destruct (listening st) eqn:Hl; [|done].
    apply (benign_orderly st); [benign_tac|done].
  - destruct (listening st) eqn:Hl; [|done].
    apply (benign_orderly st); [benign_tac|done].
  - destruct (listening st) eqn:Hl; [|done].
    by apply on_assistant_message_orderly.
  - destruct (listening st) eqn:Hl; [|done].
    unfold on_session_idle.
    destruct (negb (completed st) && bool_decide (pendingToolCalls st = 0%Z)); [|done].
    apply finalize_orderly; [by apply not_rejected_listening|done].
  - destruct (timeoutHandle st) eqn:Ha; try done.
    by apply on_timeout_orderly.
  - destruct (graceTimer st) eqn:Hg; [|done].
    apply cleanup_orderly.
    destruct Ho as (Hfb & Hgrace & Hopen & Hclean & Hrej & Herr).
    unfold orderly. simpl. repeat split; settle.
  - unfold streamFallback_resume.
    destruct (fallbacks st !! k) as [[c i]|] eqn:Hk; [|done].
    apply streamFallback_loop_orderly; [by eexists|done].
  - destruct (checkComplete st); [|done]. unfold on_interval.
    destruct (completed st) eqn:Ec; [|done].
    apply resolve_orderly; [done|].
    destruct Ho as (Hfb & Hgrace & Hopen & Hclean & Hrej & Herr).
    unfold orderly. simpl. repeat split; settle.
  - unfold on_send_resolves.
    destruct (caller st) eqn:Eca; try done.
    destruct (completionPromise st) eqn:Ep.
    + destruct Ho as (Hfb & Hgrace & Hopen & Hclean & Hrej & Herr).
      unfold orderly. simpl. rewrite ?Ep. repeat split; settle.
    + destruct Ho as (Hfb & Hgrace & Hopen & Hclean & Hrej & Herr).
      unfold orderly. simpl. rewrite ?Ep. repeat split; settle.
    + apply catch_orderly; [done|done|].
      destruct Ho as (_ & _ & _ & _ & _ & [?|(m & _ & _ & Hret)]); [done|congruence].
Qed.

Lemma run_orderly (events : list Event) (sid : jsstring) (cache : Cache) :
  forallb quietSource events = true →
  orderly (run events (listeningExchange sid cache)).
Proof.
  assert (H : ∀ st, forallb quietSource events = true → orderly st →
                    orderly (run events st)).
  { induction events as [|e events IH]; intros st Hq Ho; [done|].
    simpl in Hq. apply andb_prop in Hq as [He Hq].
    simpl. apply IH; [done|]. by apply step_orderly. }
  intros Hq. apply H; [done|].
  unfold orderly. simpl. repeat split; settle.
Qed.

(** X1. In an exchange where the runtime raises no [session.error] and
    [session.send] does not reject, the caller receives at most one terminal
    signal in all: [onComplete] and [onError] together are invoked at most
    once, whatever the other events are and in whatever order they and the
    timers fire. *)
Theorem at_most_one_terminal_signal_without_error_source
    (sid : jsstring) (cache : Cache) (events : list Event) :
  forallb quietSource events = true →
  let st := run events (listeningExchange sid cache) in
  length (completions (calls st)) + length (errors (calls st)) ≤ 1.
Proof.
  intros Hq st.
  destruct (run_orderly events sid cache Hq) as (_ & _ & Hopen & _ & Hrej & Herr).
  fold st in Hopen, Hrej, Herr.
  destruct Herr as [->|(m & -> & Hm & _)].
  - destruct (run_from_open events (listeningExchange sid cache) eq_refl)
      as [H|[c H]]; unfold view in H; fold st in H;
      injection H as _ _ _ ->; simpl; lia.
  - destruct (Hrej m Hm) as (Hc & _). rewrite (Hopen Hc). simpl. lia.
Qed.

(** A timeout on a silent exchange, with late events after it: one signal. *)
Lemma at_most_one_terminal_signal_without_error_source_witness :
  let st :=
    run [send_resolves; timeout_fires; session_idle; assistant_message (js "late") 0;
         interval_tick; grace_fires]
      (listeningExchange (js "s") ∅) in
  length (completions (calls st)) + length (errors (calls st)) ≤ 1.
Proof.
  exact (at_most_one_terminal_signal_without_error_source (js "s") ∅
           [send_resolves; timeout_fires; session_idle;
            assistant_message (js "late") 0; interval_tick; grace_fires]
           eq_refl).
Defined.

(** ** After a session error *)

Lemma stuck_step (e : Event) (st : Exchange) : stuck st → step e st = st.
Proof.
  intros (Hl & Hc & Hf & Hg & Ht & Hca & Hp).
  destruct e; simpl; rewrite ?Hl, ?Hg, ?Ht; try done.
  - unfold streamFallback_resume. by rewrite Hf.
  - destruct (checkComplete st); [|done]. unfold on_interval. by rewrite Hc.
  - unfold on_send_resolves. by rewrite Hca.
  - unfold on_send_rejects. by rewrite Hca.
Qed.

Lemma stuck_run (events : list Event) (st : Exchange) :
  stuck st → run events st = st.
Proof.
  intros Hs. induction events as [|e events IH]; [done|].
  simpl. by rewrite stuck_step.
Qed.

(** X3. When a [session.error] arrives on an exchange that is open, whose
    [session.send] has resolved and that has no [streamFallback] running,
    the caller gets [onError] and nothing else ever happens: [cleanup] has
    detached the listeners and cleared the timeout, the interval is left as
    it was and keeps finding the latch open, so [completionPromise] is
    never settled and [sendMessage] never returns. No later event changes
    the state. *)
Theorem session_error_leaves_sendMessage_pending
    (st : Exchange) (message : jsstring) (events : list Event) :
  listening st = true → cleanupCalled st = false → completed st = false →
  fallbacks st = [] → graceTimer st = false →
  caller st = AwaitingCompletion → completionPromise st = Pending →
  let st' := run (session_error message :: events) st in
  st' = step (session_error message) st
  ∧ calls st' = calls st ++ [onError (or_else message unknownErrorMessage)]
  ∧ caller st' = AwaitingCompletion
  ∧ completionPromise st' = Pending
  ∧ completed st' = false
  ∧ listening st' = false
  ∧ timeoutHandle st' = TimerNull
  ∧ checkComplete st' = checkComplete st.
Proof.
  intros Hl Hcl Hc Hf Hg Hca Hp st'.
  assert (Hs : stuck (step (session_error message) st)).
  { simpl. rewrite Hl. unfold on_session_error, cleanup. simpl. rewrite Hcl.
    by repeat split. }
  assert (Hrun : st' = step (session_error message) st).
  { unfold st'. change (run (session_error message :: events) st)
      with (run events (step (session_error message) st)).
    by apply stuck_run. }
  split; [done|]. rewrite Hrun.
  destruct Hs as (Hl' & Hc' & _ & _ & Ht' & Hca' & Hp').
  repeat split; try done.
  all: simpl; rewrite Hl; unfold on_session_error, cleanup; simpl; by rewrite Hcl.
Qed.

(** After the error neither the idle event, the interval nor the timeout
    brings the exchange to an end. *)
Lemma session_error_leaves_sendMessage_pending_witness :
  let st :=
    run [send_resolves; session_error (js "boom"); session_idle; interval_tick;
         timeout_fires; grace_fires]
      (listeningExchange (js "s") ∅) in
  calls st = [onError (js "boom")] ∧ caller st = AwaitingCompletion.
Proof.
  intros st.
  destruct (session_error_leaves_sendMessage_pending
              (run [send_resolves] (listeningExchange (js "s") ∅)) (js "boom")
              [session_idle; interval_tick; timeout_fires; grace_fires]
              eq_refl eq_refl eq_refl eq_refl eq_refl eq_refl eq_refl)
    as (_ & Hcalls & Hcaller & _).
  split; [exact Hcalls|exact Hcaller].
Defined.

(** ** Streamed exchanges *)

Lemma run_app (events1 events2 : list Event) (st : Exchange) :
  run (events1 ++ events2) st = run events2 (run events1 st).
Proof. unfold run. by rewrite foldl_app. Qed.

(** What a series of content deltas does to a listening exchange. *)
Lemma run_message_deltas (deltas : list jsstring) (st : Exchange) :
  listening st = true →
  let st' := run (message_delta <$> deltas) st in
  fullContent st' = fullContent st ++ concat deltas
  ∧ calls st' = calls st ++ (onDelta <$> deltas)
  ∧ hasDelta st' = hasDelta st || nonEmpty (concat deltas)
  ∧ listening st' = true
  ∧ completed st' = completed st
  ∧ pendingToolCalls st' = pendingToolCalls st
  ∧ sessionId st' = sessionId st
  ∧ messageHistoryCache st' = messageHistoryCache st.
Proof.
  revert st. induction deltas as [|d deltas IH]; intros st Hl.
  { simpl. rewrite !app_nil_r, orb_false_r. by repeat split. }
  assert (Hl1 : listening (step (message_delta d) st) = true).
  { simpl. rewrite Hl. unfold on_message_delta. by destruct (nonEmpty d). }
  destruct (IH (step (message_delta d) st) Hl1)
    as (Hfull & Hcalls & Hdelta & Hl' & Hc & Hp & Hsid & Hcache).
  change (run (message_delta <$> d :: deltas) st)
    with (run (message_delta <$> deltas) (step (message_delta d) st)).
  cbv zeta. rewrite Hfull, Hcalls, Hdelta, Hl', Hc, Hp, Hsid, Hcache.
  simpl. rewrite Hl. unfold on_message_delta.
  destruct d as [|u d]; simpl; rewrite <-?app_assoc; simpl;
    rewrite ?orb_true_r, ?app_nil_r; by repeat split.
Qed.

(** X4. When the runtime streams, the completion carries what was streamed:
    after content deltas that are not all empty, a terminal
    [assistant.message] (other than one that only announces tool requests)
    completes the exchange with the concatenation of the deltas, whatever
    content the message itself carries, and without re-emitting it; the
    caller has received every delta, the empty ones too, verbatim and in
    order. When the streamed text is not blank it is the last entry of the
    session in the cache, with role ["assistant"]; when it is only white
    space the cache is left as it was when the prompt had been recorded. *)
Theorem streamed_deltas_are_the_completed_content
    (sid prompt : jsstring) (cache : Cache) (deltas : list jsstring)
    (content : jsstring) (toolRequests : nat) :
  concat deltas ≠ [] →
  content ≠ [] ∨ toolRequests = 0 →
  let st :=
    sendMessage SessionResolved sid prompt cache
      ((message_delta <$> deltas) ++ [assistant_message content toolRequests]) in
  calls st = (onDelta <$> deltas) ++ [onComplete (concat deltas)]
  ∧ fullContent st = concat deltas
  ∧ (nonEmpty (trim (concat deltas)) = true →
       last (messagesOf sid (messageHistoryCache st))
       = Some {| role := js "assistant"; content := concat deltas |})
  ∧ (nonEmpty (trim (concat deltas)) = false →
       messageHistoryCache st = addMessageToCache sid (js "user") prompt cache).
Proof.
  intros Hne Hmsg st. unfold st, sendMessage. rewrite run_app.
  set (sent := addMessageToCache sid (js "user") prompt cache).
  destruct (run_message_deltas deltas (listeningExchange sid sent) eq_refl)
    as (Hfull & Hcalls & Hdelta & Hl & Hc & Hp & Hsid & Hcache).
  set (st1 := run (message_delta <$> deltas) (listeningExchange sid sent)) in *.
  simpl in Hfull, Hcalls, Hdelta, Hc, Hp, Hsid, Hcache.
  rewrite (nonEmpty_true _ Hne) in Hdelta.
  change (run [assistant_message content toolRequests] st1)
    with (step (assistant_message content toolRequests) st1).
  assert (Hstep : step (assistant_message content toolRequests) st1
                  = finalize (concat deltas) st1).
  { simpl. rewrite Hl. unfold on_assistant_message.
    rewrite Hp, Hdelta, Hfull, (nonEmpty_true _ Hne). simpl.
    rewrite andb_false_r, Hfull, (nonEmpty_true _ Hne), orb_true_r.
    assert (Hor : or_else (concat deltas) content = concat deltas)
      by (by destruct (concat deltas)).
    rewrite Hor.
    destruct Hmsg as [Hcont| ->]; [by rewrite (nonEmpty_true _ Hcont), andb_false_r|].
    done. }
  rewrite Hstep. unfold finalize. rewrite Hc.
  destruct (nonEmpty (trim (concat deltas))) eqn:Eb; simpl;
    rewrite ?Hcalls, ?Hfull, ?Hsid, ?Hcache; repeat split; try done.
  intros _. apply addMessageToCache_last.
Qed.

(** Two deltas and a message that repeats the text in full. *)
Lemma streamed_deltas_are_the_completed_content_witness :
  calls (sendMessage SessionResolved (js "s") (js "q") ∅
           [message_delta (js "Hel"); message_delta (js "lo");
            assistant_message (js "Hello") 0])
  = [onDelta (js "Hel"); onDelta (js "lo"); onComplete (js "Hello")].
Proof.
  exact (proj1 (streamed_deltas_are_the_completed_content (js "s") (js "q") ∅
                  [js "Hel"; js "lo"] (js "Hello") 0
                  ltac:(discriminate) (or_intror eq_refl))).
Defined.

(** * Properties of the session services *)

Section CopilotFacts.
Import Copilot.

Ltac monad :=
  unfold bind, tryCatch, get, modify, invoke, invokeVoid, ret, throw in *.

Lemma getClient_eq (rt : Runtime) (w : World) :
  getClient rt w
  = if clientInstance w then (w, [], Ok tt)
    else (set_clientInstance true w, [call_start],
          match client_start rt with
          | Registry.Fulfilled => Ok tt
          | Registry.Thrown message => Throws message
          end).
Proof. unfold getClient. monad. by destruct (clientInstance w). Qed.


Lemma resolveAgentAndModel_eq (agents : list AgentConfig)
    (model agentId : jsstring) (w : World) :
  resolveAgentAndModel agents model agentId w = (w, [], resolved agents model agentId).
Proof.
  unfold resolveAgentAndModel, resolved, defaultAgentId. monad.
  destruct (nonEmpty agentId); [destruct (getAgentById agents agentId)|];
    try done; by destruct (getDefaultAgentConfig agents).
Qed.



Lemma createSession_inv (rt : Runtime) (agents : list AgentConfig)
    (sessionId model agentId : jsstring) (w w' : World)
    (log : list RuntimeCall) (r : Result CopilotSession) :
  createSession rt agents sessionId model agentId w = (w', log, r) →
  match r with
  | Ok session =>
      ∃ resolvedAgentId model',
        resolved agents model agentId = Ok (resolvedAgentId, model')
        ∧ client_createSession rt sessionId model' = Ok session
        ∧ w' = recordSession (or_else sessionId (session_sessionId session))
                 session resolvedAgentId
                 (buildSessionConfig agents resolvedAgentId)
                 (getClient rt w).1.1
        ∧ log = (getClient rt w).1.2 ++ [call_createSession sessionId model']
  | Throws _ => sameMaps w w'
  end.
Proof.
  unfold createSession. unfold bind at 1. rewrite getClient_eq.
  destruct (clientInstance w) eqn:Ec.
  - unfold bind at 1. rewrite resolveAgentAndModel_eq.
    destruct (resolved agents model agentId) as [[resolvedAgentId model']|msg] eqn:Er.
    + monad. simpl.
      destruct (client_createSession rt sessionId model') as [session|msg] eqn:Ecr;
        intros [= <- <- <-]; [|done].
      by exists resolvedAgentId, model'.
    + intros [= <- <- <-]. done.
  - destruct (client_start rt) eqn:Es.
    + unfold bind at 1. rewrite resolveAgentAndModel_eq.
      destruct (resolved agents model agentId) as [[resolvedAgentId model']|msg] eqn:Er.
      * monad. simpl.
        destruct (client_createSession rt sessionId model') as [session|msg] eqn:Ecr;
          intros [= <- <- <-]; [|done].
        by exists resolvedAgentId, model'.
      * intros [= <- <- <-]. done.
    + intros [= <- <- <-]. done.
Qed.





Lemma tryResume_eq (rt : Runtime) (sessionId : jsstring)
    (permPolicy : PermissionPolicy) (w : World) :
  tryCatch (tryResume rt sessionId permPolicy) (λ _, ret None) w
  = (match resumable rt sessionId with
     | Some session => recordResume sessionId session permPolicy w
     | None => w
     end,
     resumeCalls rt sessionId,
     Ok (resumable rt sessionId)).
Proof.
  unfold tryResume, resumable, resumeCalls, listed. monad.
  destruct (client_listSessions rt) as [sessions|msg]; [|done]. simpl.
  destruct (existsb _ sessions); [|done].
  by destruct (client_resumeSession rt sessionId).
Qed.

Lemma getOrCreateSession_eq (rt : Runtime) (agents : list AgentConfig)
    (sessionId model agentId : jsstring) (w : World) :
  getOrCreateSession rt agents sessionId model agentId w
  = match activeSessions w !! sessionId with
    | Some session => (w, [], Ok session)
    | None =>
        let started := getClient rt w in
        match started.2 with
        | Throws message => (started.1.1, started.1.2, Throws message)
        | Ok _ =>
            let permPolicy :=
              buildSessionConfig agents
                (or_else (default [] (sessionAgentMap w !! sessionId)) agentId) in
            match resumable rt sessionId with
            | Some session =>
                (recordResume sessionId session permPolicy started.1.1,
                 started.1.2 ++ resumeCalls rt sessionId, Ok session)
            | None =>
                let created :=
                  createSession rt agents sessionId model agentId started.1.1 in
                (created.1.1,
                 started.1.2 ++ resumeCalls rt sessionId ++ created.1.2,
                 created.2)
            end
        end
    end.
Proof.
  unfold getOrCreateSession. unfold bind at 1, get at 1.
  destruct (activeSessions w !! sessionId) as [session|] eqn:Ea; [done|].
  unfold bind at 1. cbv zeta.
  destruct (getClient rt w) as [[w1 l1] [[]|msg]] eqn:Eg; simpl; [|done].
  unfold bind at 1. rewrite tryResume_eq.
  destruct (resumable rt sessionId) as [session|].
  - unfold ret. by rewrite app_nil_r.
  - by destruct (createSession rt agents sessionId model agentId w1) as [[w2 l2] r2].
Qed.

(** X5. [getClient] starts the client at most once per instance: it leaves
    [clientInstance] set whatever the start did, so after a first call,
    even one whose [start()] rejected, every later call resolves at once
    without calling the runtime. It never touches the session maps. *)
Theorem getClient_starts_the_client_once (rt rt' : Runtime) (w : World) :
  let first := getClient rt w in
  clientInstance first.1.1 = true
  ∧ sameMaps w first.1.1
  ∧ (clientInstance w = true → first = (w, [], Ok tt))
  ∧ (clientInstance w = false →
       first.1.2 = [call_start]
       ∧ ∀ message, client_start rt = Registry.Thrown message →
                    first.2 = Throws message)
  ∧ getClient rt' first.1.1 = (first.1.1, [], Ok tt).
Proof.
  cbv zeta. rewrite !getClient_eq.
  destruct (clientInstance w) eqn:Ec; simpl.
  - rewrite Ec. by repeat split.
  - repeat split; try done. by intros message ->.
Qed.

Lemma find_elem_of {A} (f : A → bool) (l : list A) (a : A) :
  List.find f l = Some a → a ∈ l ∧ f a = true.
Proof.
  intros H. apply find_some in H as [Hin Hf]. split; [|done].
  by apply list_elem_of_In.
Qed.

Lemma resolved_agent (agents : list AgentConfig) (model agentId rid model' : jsstring) :
  resolved agents model agentId = Ok (rid, model') →
  ∃ agent, agent ∈ agents ∧ rid = id agent
    ∧ (if nonEmpty agentId then
         match getAgentById agents agentId with
         | Some _ => rid = agentId
                     ∧ model' = or_else (preferredModel agent) model
         | None => getDefaultAgentConfig agents = Some agent ∧ model' = model
         end
       else getDefaultAgentConfig agents = Some agent ∧ model' = model).
Proof.
  unfold resolved.
  assert (Hdef : ∀ d, getDefaultAgentConfig agents = Some d → d ∈ agents).
  { unfold getDefaultAgentConfig. intros d.
    destruct (List.find isDefault agents) as [a|] eqn:Ef.
    - intros [= <-]. by apply find_elem_of in Ef as [? _].
    - destruct agents as [|a agents]; [done|]. intros [= <-]. set_solver. }
  destruct (nonEmpty agentId).
  - destruct (getAgentById agents agentId) as [agent|] eqn:Ea.
    + intros [= <- <-]. exists agent.
      apply find_elem_of in Ea as [Hin Hid]. apply bool_decide_eq_true in Hid.
      by repeat split.
    + destruct (getDefaultAgentConfig agents) as [d|] eqn:Ed; [|done].
      intros [= <- <-]. exists d. repeat split; try done. by apply Hdef.
  - destruct (getDefaultAgentConfig agents) as [d|] eqn:Ed; [|done].
    intros [= <- <-]. exists d. repeat split; try done. by apply Hdef.
Qed.

(** X6. When [createSession] succeeds, the handle is cached under the
    effective id (the explicit id, or the id the runtime generated when
    none was given) together with an agent and that agent's permission
    policy. The agent recorded is always one of the configured agents: the
    requested one when it exists, and otherwise (no agent asked for, or an
    unknown one) the default agent. Other sessions and the message cache
    are untouched. When [createSession] rejects, for whatever reason, none
    of the maps has changed. *)
Theorem createSession_records_session_agent_and_policy
    (rt : Runtime) (agents : list AgentConfig)
    (sessionId model agentId : jsstring) (w w' : World)
    (log : list RuntimeCall) (r : Result CopilotSession) :
  createSession rt agents sessionId model agentId w = (w', log, r) →
  (∀ session, r = Ok session →
     let i := or_else sessionId (session_sessionId session) in
     activeSessions w' !! i = Some session
     ∧ (∃ agent, agent ∈ agents
          ∧ sessionAgentMap w' !! i = Some (id agent)
          ∧ sessionPermissionPolicy w' !! i
            = Some (buildSessionConfig agents (id agent))
          ∧ (agentId ≠ [] → is_Some (getAgentById agents agentId) →
               id agent = agentId)
          ∧ (agentId = [] ∨ getAgentById agents agentId = None →
               getDefaultAgentConfig agents = Some agent))
     ∧ (∀ k, k ≠ i →
          activeSessions w' !! k = activeSessions w !! k
          ∧ sessionAgentMap w' !! k = sessionAgentMap w !! k
          ∧ sessionPermissionPolicy w' !! k = sessionPermissionPolicy w !! k)
     ∧ messageHistoryCache w' = messageHistoryCache w
     ∧ clientInstance w' = true)
  ∧ (∀ message, r = Throws message → sameMaps w w').
Proof.
  intros Hrun. apply createSession_inv in Hrun. split.
  - intros session ->. destruct Hrun as (rid & model' & Hres & Hcr & -> & ->).
    apply resolved_agent in Hres as (agent & Hin & -> & Hwhich).
    cbv zeta. rewrite getClient_eq.
    split; [|split; [|split; [|split]]].
    + unfold recordSession. simpl. apply lookup_insert_eq.
    + exists agent. unfold recordSession. simpl.
      rewrite !lookup_insert_eq. repeat split; try done.
      * intros Hne [a Ha]. rewrite (nonEmpty_true _ Hne), Ha in Hwhich. by destruct Hwhich.
      * intros [->|Hnone]; [simpl in Hwhich; by destruct Hwhich|].
        destruct (nonEmpty agentId); [|by destruct Hwhich].
        rewrite Hnone in Hwhich. by destruct Hwhich.
    + intros k Hk. unfold recordSession. simpl.
      rewrite !lookup_insert_ne by done. by destruct (clientInstance w).
    + unfold recordSession. simpl. by destruct (clientInstance w).
    + unfold recordSession. simpl. by destruct (clientInstance w) eqn:E.
  - intros message ->. done.
Qed.

(** An unknown agent is asked for: the session is recorded with the default
    agent and the policy [ask-user]. *)
Lemma createSession_records_session_agent_and_policy_witness :
  let w' :=
    (createSession sampleRuntime sampleAgents (js "new") (js "m") (js "nobody")
       emptyWorld).1.1 in
  activeSessions w' !! js "new" = Some (sampleSession (js "new"))
  ∧ sessionAgentMap w' !! js "new" = Some (js "default")
  ∧ sessionPermissionPolicy w' !! js "new" = Some ask_user.
Proof.
  intros w'.
  destruct (createSession_records_session_agent_and_policy
              sampleRuntime sampleAgents (js "new") (js "m") (js "nobody")
              emptyWorld w' [call_start; call_createSession (js "new") (js "m")]
              (Ok (sampleSession (js "new"))) eq_refl) as [Hok _].
  destruct (Hok _ eq_refl) as (Hs & _ & _ & _ & _).
  split; [exact Hs|]. split; reflexivity.
Defined.
(** X7. [getOrCreateSession] is idempotent on a non-empty id: once a call
    has resolved with a handle, whether from the cache, by resuming or by
    creating, every later call with that id resolves with the same handle,
    makes no call to the runtime and changes nothing, whatever model or
    agent it is given and whatever the runtime would answer by then. *)
Theorem getOrCreateSession_is_idempotent
    (rt rt' : Runtime) (agents agents' : list AgentConfig)
    (sessionId model agentId model' agentId' : jsstring) (w w1 : World)
    (log : list RuntimeCall) (session : CopilotSession) :
  sessionId ≠ [] →
  getOrCreateSession rt agents sessionId model agentId w = (w1, log, Ok session) →
  getOrCreateSession rt' agents' sessionId model' agentId' w1 = (w1, [], Ok session).
Proof.
  intros Hne. rewrite getOrCreateSession_eq.
  assert (Hhit : activeSessions w1 !! sessionId = Some session →
                 getOrCreateSession rt' agents' sessionId model' agentId' w1
                 = (w1, [], Ok session)).
  { intros Hc. by rewrite getOrCreateSession_eq, Hc. }
  destruct (activeSessions w !! sessionId) as [cached|] eqn:Ea.
  { intros [= <- <- <-]. by apply Hhit. }
  cbv zeta. destruct ((getClient rt w).2) as [[]|msg]; [|done].
  destruct (resumable rt sessionId) as [resumed|].
  - intros [= <- <- <-]. apply Hhit. unfold recordResume. simpl.
    apply lookup_insert_eq.
  - destruct (createSession rt agents sessionId model agentId (getClient rt w).1.1)
      as [[w2 l2] r2] eqn:Ecr. simpl. intros [= <- <- ->].
    apply createSession_inv in Ecr as (rid & m' & _ & _ & -> & _).
    apply Hhit. unfold recordSession. simpl.
    replace (or_else sessionId (session_sessionId session)) with sessionId
      by (by destruct sessionId).
    apply lookup_insert_eq.
Qed.

(** A session created by a first call is handed out by the second one, for
    another model and agent. *)
Lemma getOrCreateSession_is_idempotent_witness :
  let first :=
    getOrCreateSession sampleRuntime sampleAgents (js "new") (js "m") (js "coder")
      emptyWorld in
  getOrCreateSession sampleRuntime [] (js "new") (js "other") [] first.1.1
  = (first.1.1, [], Ok (sampleSession (js "new"))).
Proof.
  intros first.
  exact (getOrCreateSession_is_idempotent sampleRuntime sampleRuntime sampleAgents []
           (js "new") (js "m") (js "coder") (js "other") [] emptyWorld
           first.1.1 first.1.2 (sampleSession (js "new"))
           ltac:(discriminate) eq_refl).
Defined.

(** X8. A resume that fails is never fatal. When the session is not cached
    and the client is available, if listing the sessions rejects, or the id
    is not listed, or [resumeSession] rejects, [getOrCreateSession] ends
    exactly as [createSession] does on the same arguments: same result
    (its rejection included), same maps, and the failed attempt leaves only
    its one or two calls in the log. *)
Theorem failed_resume_degrades_to_creation
    (rt : Runtime) (agents : list AgentConfig)
    (sessionId model agentId : jsstring) (w : World) :
  activeSessions w !! sessionId = None →
  (getClient rt w).2 = Ok tt →
  (∃ message, client_listSessions rt = Throws message)
  ∨ (∃ sessions, client_listSessions rt = Ok sessions
       ∧ ∀ s, s ∈ sessions → meta_sessionId s ≠ sessionId)
  ∨ (∃ message, client_resumeSession rt sessionId = Throws message) →
  let started := getClient rt w in
  let created := createSession rt agents sessionId model agentId started.1.1 in
  ∃ attempt,
    getOrCreateSession rt agents sessionId model agentId w
    = (created.1.1, started.1.2 ++ attempt ++ created.1.2, created.2)
    ∧ (attempt = [call_listSessions]
       ∨ attempt = [call_listSessions; call_resumeSession sessionId]).
Proof.
  intros Ha Hstart Hfail. cbv zeta. rewrite getOrCreateSession_eq, Ha. cbv zeta.
  rewrite Hstart.
  assert (Hnone : resumable rt sessionId = None).
  { unfold resumable, listed.
    destruct Hfail as [[m ->]|[(sessions & -> & Hnot)|[m ->]]]; [done| |].
    - destruct (existsb _ sessions) eqn:Ex; [|done].
      apply existsb_exists in Ex as (s & Hin & Hs).
      apply bool_decide_eq_true in Hs. apply list_elem_of_In in Hin.
      by destruct (Hnot s Hin).
    - by destruct (match client_listSessions rt with Ok _ => _ | Throws _ => _ end). }
  rewrite Hnone. exists (resumeCalls rt sessionId). split; [done|].
  unfold resumeCalls. destruct (listed rt sessionId); [by right|by left].
Qed.

(** The runtime cannot resume ["new"]: the session is created. *)
Lemma failed_resume_degrades_to_creation_witness :
  let started := getClient sampleRuntime emptyWorld in
  let created :=
    createSession sampleRuntime sampleAgents (js "new") (js "m") [] started.1.1 in
  ∃ attempt,
    getOrCreateSession sampleRuntime sampleAgents (js "new") (js "m") [] emptyWorld
    = (created.1.1, started.1.2 ++ attempt ++ created.1.2, created.2)
    ∧ (attempt = [call_listSessions]
       ∨ attempt = [call_listSessions; call_resumeSession (js "new")]).
Proof.
  exact (failed_resume_degrades_to_creation sampleRuntime sampleAgents
           (js "new") (js "m") [] emptyWorld eq_refl eq_refl
           (or_intror (or_intror (ex_intro _ (js "unknown session") eq_refl)))).
Defined.

(** X9. A successful resume caches the handle and records a permission
    policy, but no agent association: the policy is that of the agent
    already associated with the session, if there is one, and of the agent
    passed in only otherwise, and no session is created. *)
Theorem resume_records_policy_of_associated_agent
    (rt : Runtime) (agents : list AgentConfig)
    (sessionId model agentId : jsstring) (w : World)
    (sessions : list SessionMetadata) (session : CopilotSession) :
  activeSessions w !! sessionId = None →
  (getClient rt w).2 = Ok tt →
  client_listSessions rt = Ok sessions →
  (∃ s, s ∈ sessions ∧ meta_sessionId s = sessionId) →
  client_resumeSession rt sessionId = Ok session →
  let result := getOrCreateSession rt agents sessionId model agentId w in
  let w' := result.1.1 in
  result.2 = Ok session
  ∧ result.1.2
    = (getClient rt w).1.2 ++ [call_listSessions; call_resumeSession sessionId]
  ∧ activeSessions w' !! sessionId = Some session
  ∧ sessionAgentMap w' = sessionAgentMap w
  ∧ messageHistoryCache w' = messageHistoryCache w
  ∧ (∀ associated, sessionAgentMap w !! sessionId = Some associated →
       associated ≠ [] →
       sessionPermissionPolicy w' !! sessionId
       = Some (buildSessionConfig agents associated))
  ∧ (sessionAgentMap w !! sessionId = None →
       sessionPermissionPolicy w' !! sessionId
       = Some (buildSessionConfig agents agentId)).
Proof.
  intros Ha Hstart Hlist (s & Hin & Hs) Hres. cbv zeta.
  rewrite getOrCreateSession_eq, Ha. cbv zeta. rewrite Hstart.
  assert (Hsome : resumable rt sessionId = Some session).
  { unfold resumable, listed. rewrite Hlist, Hres.
    replace (existsb _ sessions) with true; [done|].
    symmetry. apply existsb_exists. exists s. split.
    - by apply list_elem_of_In.
    - by apply bool_decide_eq_true. }
  assert (Hl : listed rt sessionId = true).
  { unfold resumable in Hsome. by destruct (listed rt sessionId). }
  rewrite Hsome. unfold resumeCalls. rewrite Hl. unfold recordResume. simpl.
  rewrite !lookup_insert_eq, getClient_eq.
  repeat split; try done; try by destruct (clientInstance w).
  - intros associated -> Hne. by destruct associated.
  - by intros ->.
Qed.

(** The listed session ["old"] is resumed for the agent passed in. *)
Lemma resume_records_policy_of_associated_agent_witness :
  let result :=
    getOrCreateSession sampleRuntime sampleAgents (js "old") (js "m") (js "coder")
      emptyWorld in
  result.2 = Ok (sampleSession (js "old"))
  ∧ sessionAgentMap result.1.1 = ∅
  ∧ sessionPermissionPolicy result.1.1 !! js "old" = Some auto_approve.
Proof.
  intros result.
  destruct (resume_records_policy_of_associated_agent sampleRuntime sampleAgents
              (js "old") (js "m") (js "coder") emptyWorld
              [{| meta_sessionId := js "old"; meta_createdAt := None;
                  meta_messageCount := 3 |}]
              (sampleSession (js "old")) eq_refl eq_refl eq_refl
              (ex_intro _ _ (conj (list_elem_of_here _ _) eq_refl)) eq_refl)
    as (Hr & _ & _ & Hag & _ & _ & Hpol).
  split; [exact Hr|]. split; [exact Hag|]. exact (Hpol eq_refl).
Defined.

Lemma destroyAll_eq (sessions : list CopilotSession) (w : World) :
  destroyAll sessions w = (w, call_destroy <$> sessions, Ok tt).
Proof.
  induction sessions as [|session sessions IH]; [done|].
  simpl. unfold bind, tryCatch, invokeVoid, invoke, ret.
  destruct (destroy session); simpl; by rewrite IH.
Qed.

(** X10. [stopClient] does nothing when there is no client. Otherwise it
    calls [destroy()] once on every cached session, in the order in which
    the map yields them, and then [stop()], and empties the session cache
    whatever the [destroy()] calls did: their errors are swallowed. It ends
    the way [stop()] ends; only when that succeeded is [clientInstance]
    reset. The message cache, the agent associations and the permission
    policies of the sessions all survive the shutdown. *)
Theorem stopClient_clears_sessions_only
    (rt : Runtime) (w : World) (values : list CopilotSession) :
  values ≡ₚ (map_to_list (activeSessions w)).*2 →
  let result := stopClient rt values w in
  let w' := result.1.1 in
  (clientInstance w = false → result = (w, [], Ok tt))
  ∧ (clientInstance w = true →
       activeSessions w' = ∅
       ∧ sessionAgentMap w' = sessionAgentMap w
       ∧ sessionPermissionPolicy w' = sessionPermissionPolicy w
       ∧ messageHistoryCache w' = messageHistoryCache w
       ∧ result.1.2 = (call_destroy <$> values) ++ [call_stop]
       ∧ (∀ session,
            (∃ i, activeSessions w !! i = Some session)
            ↔ call_destroy session ∈ result.1.2)
       ∧ length result.1.2 = S (size (activeSessions w))
       ∧ (client_stop rt = Registry.Fulfilled →
            result.2 = Ok tt ∧ clientInstance w' = false)
       ∧ (∀ message, client_stop rt = Registry.Thrown message →
            result.2 = Throws message ∧ clientInstance w' = true)).
Proof.
  intros Hvalues. cbv zeta.
  assert (Heq : stopClient rt values w
                = if clientInstance w then
                    (match client_stop rt with
                     | Registry.Fulfilled =>
                         set_clientInstance false (set_activeSessions ∅ w)
                     | Registry.Thrown _ => set_activeSessions ∅ w
                     end,
                     (call_destroy <$> values) ++ [call_stop],
                     match client_stop rt with
                     | Registry.Fulfilled => Ok tt
                     | Registry.Thrown message => Throws message
                     end)
                  else (w, [], Ok tt)).
  { unfold stopClient. unfold bind at 1. unfold get at 1.
    destruct (clientInstance w); [|done].
    unfold bind at 1. rewrite destroyAll_eq. monad.
    by destruct (client_stop rt). }
  rewrite Heq. clear Heq. destruct (clientInstance w) eqn:Ec; [|by split].
  split; [done|]. intros _.
  assert (Hmem : ∀ session,
            (∃ i, activeSessions w !! i = Some session)
            ↔ call_destroy session ∈ (call_destroy <$> values) ++ [call_stop]).
  { intros session. rewrite elem_of_app, list_elem_of_fmap. split.
    - intros [i Hi]. left. exists session. split; [done|].
      rewrite Hvalues. apply list_elem_of_fmap. exists (i, session).
      split; [done|]. by apply elem_of_map_to_list.
    - intros [(x & [= <-] & Hx)|Hstop].
      + rewrite Hvalues in Hx. apply list_elem_of_fmap in Hx as ([i y] & -> & Hy).
        exists i. by apply elem_of_map_to_list.
      + apply list_elem_of_singleton in Hstop. done. }
  assert (Hlen : length ((call_destroy <$> values) ++ [call_stop])
                 = S (size (activeSessions w))).
  { rewrite length_app, length_fmap, Hvalues, length_fmap, length_map_to_list.
    simpl. lia. }
  destruct (client_stop rt); cbn [fst snd]; repeat split; try done;
    try apply Hmem; intros; by simplify_eq.
Qed.

(** Two cached sessions, destroyed in the order of their insertion; the
    [destroy()] of the first one throws. *)
Lemma stopClient_clears_sessions_only_witness :
  let first :=
    {| session_sessionId := js "s2"; destroy := Registry.Thrown (js "EPIPE");
       abort := Registry.Fulfilled; getMessages := Ok [] |} in
  let second := sampleSession (js "s1") in
  let w :=
    set_clientInstance true
      (set_activeSessions {[ js "s2" := first; js "s1" := second ]} emptyWorld) in
  let result := stopClient sampleRuntime [first; second] w in
  result.1.2 = [call_destroy first; call_destroy second; call_stop]
  ∧ activeSessions result.1.1 = ∅
  ∧ result.2 = Ok tt.
Proof.
  intros first second w result.
  destruct (stopClient_clears_sessions_only sampleRuntime w [first; second])
    as [_ Hstop].
  { vm_compute. first [reflexivity|apply perm_swap]. }
  destruct (Hstop eq_refl) as (Hempty & _ & _ & _ & Hlog & _ & _ & Hok & _).
  split; [exact Hlog|]. split; [exact Hempty|]. exact (proj1 (Hok eq_refl)).
Defined.

(** *** Message history *)

Lemma getSessionMessages_eq (sessionId : jsstring) (w : World) :
  getSessionMessages sessionId w
  = match messageHistoryCache w !! sessionId with
    | Some cached => (w, [], Ok cached)
    | None =>
        match activeSessions w !! sessionId with
        | None => (w, [], Ok [])
        | Some session =>
            match getMessages session with
            | Ok events =>
                (if decide (0 < length (reconstruct events)) then
                   set_messageHistoryCache
                     (<[sessionId := reconstruct events]> (messageHistoryCache w)) w
                 else w,
                 [call_getMessages sessionId], Ok (reconstruct events))
            | Throws _ => (w, [call_getMessages sessionId], Ok [])
            end
        end
    end.
Proof.
  unfold getSessionMessages. unfold bind at 1, get at 1.
  destruct (messageHistoryCache w !! sessionId); [done|].
  destruct (activeSessions w !! sessionId) as [session|]; [|done].
  monad. destruct (getMessages session) as [events|msg]; [|done].
  by destruct (decide (0 < length (reconstruct events))).
Qed.

(** X11. The history reconstructed from the runtime's event log is clean:
    every entry comes from a [user.message] or [assistant.message] event,
    has role ["user"] or ["assistant"] accordingly, and has content that is
    not blank; events of other types and events without text are dropped,
    and the others keep their order. *)
Theorem reconstructed_history_is_clean (events events' : list SessionEvent) :
  (∀ m, m ∈ reconstruct events →
     nonEmpty (trim (content m)) = true
     ∧ ∃ e, e ∈ events ∧ m = toMessage e
            ∧ ((eventType e = js "user.message" ∧ role m = js "user")
               ∨ (eventType e = js "assistant.message" ∧ role m = js "assistant")))
  ∧ length (reconstruct events) ≤ length events
  ∧ reconstruct (events ++ events') = reconstruct events ++ reconstruct events'.
Proof.
  split; [|split].
  - intros m Hm. unfold reconstruct in Hm. apply list_elem_of_In in Hm.
    apply filter_In in Hm as [Hm Hblank]. split; [done|].
    apply in_map_iff in Hm as (e & <- & He).
    apply filter_In in He as [He Htype]. exists e.
    split; [by apply list_elem_of_In|]. split; [done|].
    unfold isMessageEvent in Htype. unfold toMessage.
    destruct (bool_decide (eventType e = js "user.message")) eqn:Eu.
    + left. by apply bool_decide_eq_true in Eu.
    + right. simpl in Htype. by apply bool_decide_eq_true in Htype.
  - unfold reconstruct.
    etransitivity; [apply filter_length_le|].
    rewrite length_map. apply filter_length_le.
  - unfold reconstruct. by rewrite !List.filter_app, map_app, List.filter_app.
Qed.

(** X12. [getSessionMessages] never rejects: when [session.getMessages()]
    rejects, the history returned is empty and nothing is cached. A cached
    history is returned as it is without asking the runtime, even for a
    session that is not active; a session that is neither cached nor active
    has the empty history. Otherwise the history is the one reconstructed
    from the log of the runtime, asked once. A reconstructed history that
    is not empty is cached, so that asking again returns the same list
    without a call to the runtime; nothing but the cache entry of that
    session is ever modified. *)
Theorem getSessionMessages_never_rejects_and_caches
    (sessionId : jsstring) (w : World) :
  let result := getSessionMessages sessionId w in
  let w' := result.1.1 in
  (∃ messages,
     result.2 = Ok messages
     ∧ (messages ≠ [] → getSessionMessages sessionId w' = (w', [], Ok messages)))
  ∧ (∀ cached, messageHistoryCache w !! sessionId = Some cached →
       result = (w, [], Ok cached))
  ∧ (messageHistoryCache w !! sessionId = None →
     activeSessions w !! sessionId = None → result = (w, [], Ok []))
  ∧ (∀ session message,
       messageHistoryCache w !! sessionId = None →
       activeSessions w !! sessionId = Some session →
       getMessages session = Throws message →
       result = (w, [call_getMessages sessionId], Ok []))
  ∧ (∀ session events,
       messageHistoryCache w !! sessionId = None →
       activeSessions w !! sessionId = Some session →
       getMessages session = Ok events →
       result.2 = Ok (reconstruct events)
       ∧ result.1.2 = [call_getMessages sessionId])
  ∧ clientInstance w' = clientInstance w
  ∧ activeSessions w' = activeSessions w
  ∧ sessionAgentMap w' = sessionAgentMap w
  ∧ sessionPermissionPolicy w' = sessionPermissionPolicy w
  ∧ (∀ other, other ≠ sessionId →
       messageHistoryCache w' !! other = messageHistoryCache w !! other).
Proof.
  cbv zeta. rewrite getSessionMessages_eq.
  destruct (messageHistoryCache w !! sessionId) as [cached|] eqn:Ec.
  { simpl. repeat split; try done.
    - exists cached. split; [done|]. intros _.
      by rewrite getSessionMessages_eq, Ec.
    - by intros ? [= ->]. }
  destruct (activeSessions w !! sessionId) as [session|] eqn:Ea.
  2:{ simpl. repeat split; try done. exists []. by split. }
  destruct (getMessages session) as [events|msg] eqn:Em.
  2:{ simpl. repeat split; try done; try (intros; simplify_eq; congruence).
      exists []. by split. }
  destruct (decide (0 < length (reconstruct events))) as [Hlen|Hlen]; simpl.
  - repeat split; try done; try (intros; simplify_eq; congruence).
    + exists (reconstruct events). split; [done|]. intros _.
      rewrite getSessionMessages_eq. simpl. by rewrite lookup_insert_eq.
    + intros other Hne. by rewrite lookup_insert_ne.
  - repeat split; try done; try (intros; simplify_eq; congruence).
    exists (reconstruct events). split; [done|]. intros Hne.
    destruct (reconstruct events); [done|]. simpl in Hlen. lia.
Qed.

(** X13. Seeding the cache from the runtime's log does not apply the bound
    of 100: a reconstruction of more entries is cached whole. The next
    append brings the session back to exactly 100 entries. *)
Theorem seeded_history_is_trimmed_by_next_append
    (sessionId r c : jsstring) (w : World) (session : CopilotSession)
    (events : list SessionEvent) :
  messageHistoryCache w !! sessionId = None →
  activeSessions w !! sessionId = Some session →
  getMessages session = Ok events →
  MAX_MESSAGES_PER_SESSION < length (reconstruct events) →
  let seeded := messageHistoryCache (getSessionMessages sessionId w).1.1 in
  messagesOf sessionId seeded = reconstruct events
  ∧ MAX_MESSAGES_PER_SESSION < length (messagesOf sessionId seeded)
  ∧ length (messagesOf sessionId (addMessageToCache sessionId r c seeded))
    = MAX_MESSAGES_PER_SESSION.
Proof.
  intros Hc Ha Hm Hlen. cbv zeta.
  rewrite getSessionMessages_eq, Hc, Ha, Hm.
  rewrite decide_True by lia. simpl.
  assert (Hs : messagesOf sessionId
                 (<[sessionId := reconstruct events]> (messageHistoryCache w))
               = reconstruct events).
  { unfold messagesOf. by rewrite lookup_insert_eq. }
  split; [done|]. split; [by rewrite Hs|].
  rewrite messagesOf_addMessageToCache, trimOldest_length, Hs, length_app.
  simpl. lia.
Qed.

(** A log of 101 user messages is cached whole; one append later the
    session holds 100 entries. *)
Lemma seeded_history_is_trimmed_by_next_append_witness :
  let events :=
    replicate 101
      {| eventType := js "user.message"; data_prompt := js "hi"; data_content := [];
         data_text := []; data_message := [] |} in
  let session :=
    {| session_sessionId := js "s"; destroy := Registry.Fulfilled;
       abort := Registry.Fulfilled; getMessages := Ok events |} in
  let w := set_activeSessions {[ js "s" := session ]} emptyWorld in
  let seeded := messageHistoryCache (getSessionMessages (js "s") w).1.1 in
  length (messagesOf (js "s") seeded) = 101
  ∧ length (messagesOf (js "s") (addMessageToCache (js "s") (js "user") (js "more") seeded))
    = 100.
Proof.
  intros events session w seeded.
  destruct (seeded_history_is_trimmed_by_next_append (js "s") (js "user") (js "more")
              w session events eq_refl eq_refl eq_refl
              ltac:(vm_compute; lia))
    as (Hs & _ & Hlen).
  split; [|exact Hlen]. fold seeded in Hs. rewrite Hs. reflexivity.
Defined.
(** *** Session titles *)

Lemma last_filter_split {A} (f : A → bool) (l : list A) (a : A) :
  last (List.filter f l) = Some a →
  f a = true ∧ ∃ l1 l2, l = l1 ++ a :: l2 ∧ List.filter f l2 = [].
Proof.
  induction l as [|x l IH] using rev_ind; [done|].
  rewrite List.filter_app. simpl. destruct (f x) eqn:Ef.
  - rewrite last_snoc. intros [= <-]. split; [done|]. by exists l, [].
  - rewrite app_nil_r. intros Hl. destruct (IH Hl) as (Ha & l1 & l2 & -> & Hl2).
    split; [done|]. exists l1, (l2 ++ [x]).
    rewrite <-app_assoc. split; [done|].
    rewrite List.filter_app, Hl2. simpl. by rewrite Ef.
Qed.

Lemma sessionTitle_length (cachedMessages : option (list CacheEntry)) (t : jsstring) :
  sessionTitle cachedMessages = Some t → length t ≤ 53.
Proof.
  unfold sessionTitle. destruct cachedMessages as [messages|]; [|done].
  destruct (last _) as [m|]; [|done]. intros [= <-].
  case_decide; [|lia]. rewrite length_app, length_take.
  change (length (js "...")) with 3. lia.
Qed.

(** X14. The title of a session is its last user message in the cache: the
    whole message when it has at most 50 code units, and otherwise its
    first 50 code units followed by three dots, so never more than 53. A
    session has no title exactly when it is not cached or has no user
    message. *)
Theorem session_title_is_the_last_user_message
    (cachedMessages : option (list CacheEntry)) :
  (∀ t, sessionTitle cachedMessages = Some t →
     length t ≤ 53
     ∧ ∃ before m after,
         cachedMessages = Some (before ++ m :: after)
         ∧ role m = js "user"
         ∧ (∀ x, x ∈ after → role x ≠ js "user")
         ∧ (length (content m) ≤ 50 → t = content m)
         ∧ (50 < length (content m) →
              t = take 50 (content m) ++ js "..." ∧ length t = 53))
  ∧ (sessionTitle cachedMessages = None ↔
       ∀ messages, cachedMessages = Some messages →
                   ∀ x, x ∈ messages → role x ≠ js "user").
Proof.
  split.
  - intros t Ht. split; [by eapply sessionTitle_length|].
    unfold sessionTitle in Ht. destruct cachedMessages as [messages|]; [|done].
    destruct (last _) as [m|] eqn:El; [|done]. injection Ht as <-.
    apply last_filter_split in El as (Hm & before & after & -> & Hafter).
    apply bool_decide_eq_true in Hm.
    exists before, m, after.
    split; [done|]. split; [done|]. split; [|split].
    + intros x Hx Hrole.
      assert (Hin : In x (List.filter (λ m, bool_decide (role m = js "user")) after)).
      { apply filter_In. split; [by apply list_elem_of_In|].
        by apply bool_decide_eq_true. }
      by rewrite Hafter in Hin.
    + intros Hle. by rewrite decide_False by lia.
    + intros Hlt. rewrite decide_True by lia. split; [done|].
      rewrite length_app, length_take. change (length (js "...")) with 3. lia.
  - unfold sessionTitle. destruct cachedMessages as [messages|]; [|done].
    destruct (last _) as [m|] eqn:El.
    + split; [done|]. intros Hnone. exfalso.
      apply last_filter_split in El as (Hm & before & after & -> & _).
      apply bool_decide_eq_true in Hm.
      apply (Hnone _ eq_refl m); [set_solver|done].
    + split; [|done]. intros _ ? [= <-] x Hx Hrole.
      assert (Hin : In x (List.filter (λ m, bool_decide (role m = js "user")) messages)).
      { apply filter_In. split; [by apply list_elem_of_In|].
        by apply bool_decide_eq_true. }
      destruct (List.filter _ messages) as [|y l] using rev_ind; [done|].
      by rewrite last_snoc in El.
Qed.

(** X15. [listSessions] lists exactly the sessions of the runtime, in the
    runtime's order and under their ids, and changes none of the maps. A
    session with cached messages reports the size of its cache instead of
    the runtime's count, and every title has at most 53 code units. *)
Theorem listSessions_follows_the_runtime
    (rt : Runtime) (w w' : World) (log : list RuntimeCall)
    (infos : list SessionInfo) :
  listSessions rt w = (w', log, Ok infos) →
  sameMaps w w'
  ∧ (∃ sessions,
       client_listSessions rt = Ok sessions
       ∧ info_sessionId <$> infos = meta_sessionId <$> sessions)
  ∧ (∀ info, info ∈ infos →
       (∀ t, info_title info = Some t → length t ≤ 53)
       ∧ (∀ messages, messageHistoryCache w !! info_sessionId info = Some messages →
            messages ≠ [] → info_messageCount info = length messages)).
Proof.
  unfold listSessions. unfold bind at 1. rewrite getClient_eq.
  assert (Hbody : ∀ w0 l0, messageHistoryCache w0 = messageHistoryCache w →
    sameMaps w w0 →
    match
      (sessions <- invoke call_listSessions (client_listSessions rt) ;;
       w1 <- get ;;
       ret (map (λ session,
                  let cachedMessages := messageHistoryCache w1 !! meta_sessionId session in
                  {| info_sessionId := meta_sessionId session;
                     info_createdAt := meta_createdAt session;
                     info_messageCount := sessionMessageCount cachedMessages session;
                     info_title := sessionTitle cachedMessages |}) sessions))%copilot w0
    with
    | (w2, log2, r) => (w2, l0 ++ log2, r)
    end = (w', log, Ok infos) →
    sameMaps w w'
    ∧ (∃ sessions,
         client_listSessions rt = Ok sessions
         ∧ info_sessionId <$> infos = meta_sessionId <$> sessions)
    ∧ (∀ info, info ∈ infos →
         (∀ t, info_title info = Some t → length t ≤ 53)
         ∧ (∀ messages, messageHistoryCache w !! info_sessionId info = Some messages →
              messages ≠ [] → info_messageCount info = length messages))).
  { intros w0 l0 Hcache Hsame. monad.
    destruct (client_listSessions rt) as [sessions|msg]; [|done].
    simpl. intros [= <- <- <-]. split; [done|]. split.
    - exists sessions. split; [done|].
      rewrite <-list_fmap_compose. done.
    - intros info Hin. apply list_elem_of_fmap in Hin as (session & -> & _).
      simpl. split.
      + intros t Ht. by eapply sessionTitle_length.
      + rewrite Hcache. intros messages -> Hne.
        unfold sessionMessageCount.
        destruct messages; [by destruct Hne|done]. }
  destruct (clientInstance w) eqn:Ec.
  - intros H. apply (Hbody w [] eq_refl); [by repeat split|exact H].
  - destruct (client_start rt); simpl; [|done].
    intros H.
    apply (Hbody (set_clientInstance true w) [call_start] eq_refl);
      [by repeat split|exact H].
Qed.

(** The session of the runtime is listed under its id. *)
Lemma listSessions_follows_the_runtime_witness :
  ∃ infos,
    (listSessions sampleRuntime emptyWorld).2 = Ok infos
    ∧ info_sessionId <$> infos = [js "old"].
Proof.
  exists [{| info_sessionId := js "old"; info_createdAt := None;
             info_messageCount := 3; info_title := None |}].
  split; [reflexivity|].
  destruct (listSessions_follows_the_runtime sampleRuntime emptyWorld
              (listSessions sampleRuntime emptyWorld).1.1
              (listSessions sampleRuntime emptyWorld).1.2
              [{| info_sessionId := js "old"; info_createdAt := None;
                  info_messageCount := 3; info_title := None |}] eq_refl)
    as (_ & (sessions & Hl & Hids) & _).
  injection Hl as <-. exact Hids.
Defined.
(** *** Permission requests *)

(** X16. The permission policy recorded when a session is created decides
    its permission requests, through the hook of a created session and
    through the hook of a resumed one alike. Under [auto-approve] every
    request is approved and under [deny-all] every request is denied by
    rule, in both cases without consulting a responder, registered or not.
    Under [ask-user] the request goes to the responder registered for the
    session, and is denied at once, with the outcome that tells that nobody
    could be asked, when none is registered or after it was cleared. *)
Theorem created_session_policy_decides_permissions
    (rt : Runtime) (agents : list AgentConfig)
    (sessionId model agentId : jsstring) (w w' : World)
    (log : list RuntimeCall) (session : CopilotSession) :
  createSession rt agents sessionId model agentId w = (w', log, Ok session) →
  let i := or_else sessionId (session_sessionId session) in
  i ≠ [] →
  ∃ policy,
    sessionPermissionPolicy w' !! i = Some policy
    ∧ ∀ (handlers : gmap jsstring PermissionHandler) (permPolicy : PermissionPolicy)
        (invocationSessionId : jsstring) (request : PermissionRequestData),
        let created h :=
          createSession_onPermissionRequest (sessionPermissionPolicy w') h
            permPolicy sessionId (session_sessionId session) invocationSessionId
            request in
        let resumed h :=
          getOrCreateSession_onPermissionRequest (sessionPermissionPolicy w') h
            permPolicy i request in
        created handlers = resumed handlers
        ∧ (policy = auto_approve → created handlers = Settled approved)
        ∧ (policy = deny_all → created handlers = Settled denied_by_rules)
        ∧ (policy = ask_user →
             (∀ handler,
                created (setPermissionHandler i handler handlers) = handler request)
             ∧ created (clearPermissionHandler i handlers)
               = Settled denied_no_approval_rule_and_could_not_request_from_user
             ∧ (handlers !! i = None →
                  created handlers
                  = Settled denied_no_approval_rule_and_could_not_request_from_user)).
Proof.
  intros Hrun i Hi. apply createSession_inv in Hrun as (rid & m' & _ & _ & -> & _).
  exists (buildSessionConfig agents rid). fold i.
  assert (Hp : sessionPermissionPolicy
                 (recordSession i session rid (buildSessionConfig agents rid)
                    (getClient rt w).1.1) !! i
               = Some (buildSessionConfig agents rid)).
  { unfold recordSession. simpl. apply lookup_insert_eq. }
  split; [done|].
  intros handlers permPolicy inv request created resumed.
  assert (Hkey : or_else (or_else (or_else i sessionId) inv) [] = i).
  { destruct i; [done|]. done. }
  assert (Hc : ∀ h, created h
                    = decide_permission (buildSessionConfig agents rid) (h !! i) request).
  { intros h. unfold created, createSession_onPermissionRequest. cbv zeta.
    fold i. by rewrite Hkey, Hp. }
  split.
  { rewrite Hc. unfold resumed, getOrCreateSession_onPermissionRequest.
    cbv zeta. by rewrite Hp. }
  split; [|split].
  - intros Hpol. by rewrite Hc, Hpol.
  - intros Hpol. by rewrite Hc, Hpol.
  - intros Hpol. split; [|split].
    + intros handler. rewrite Hc, Hpol. unfold setPermissionHandler.
      by rewrite lookup_insert_eq.
    + rewrite Hc, Hpol. unfold clearPermissionHandler.
      by rewrite lookup_delete_eq.
    + intros Hnone. by rewrite Hc, Hpol, Hnone.
Qed.

(** A session created for the agent ["coder"], whose policy is
    [auto-approve]: a request is approved although no responder is
    registered. *)
Lemma created_session_policy_decides_permissions_witness :
  let w' :=
    (createSession sampleRuntime sampleAgents (js "new") (js "m") (js "coder")
       emptyWorld).1.1 in
  createSession_onPermissionRequest (sessionPermissionPolicy w') ∅ ask_user
    (js "new") (js "new") []
    {| request_kind := js "shell"; request_toolCallId := None |}
  = Settled approved.
Proof.
  intros w'.
  destruct (created_session_policy_decides_permissions sampleRuntime sampleAgents
              (js "new") (js "m") (js "coder") emptyWorld w'
              [call_start; call_createSession (js "new") (js "gpt-5")]
              (sampleSession (js "new")) eq_refl ltac:(discriminate))
    as (policy & Hp & Hall).
  destruct (Hall ∅ ask_user []
              {| request_kind := js "shell"; request_toolCallId := None |})
    as (_ & Hauto & _).
  apply Hauto. injection Hp as <-. reflexivity.
Defined.

End CopilotFacts.

(** X17. The registry of user input responders holds one responder per
    session: a request goes to the responder registered last for its
    session, registering for one session does not affect another, and
    after the responder is cleared the request gets the empty answer at
    once, whatever was registered before. *)
Theorem user_input_goes_to_the_registered_responder
    (userInputHandlers : gmap jsstring UserInputHandler)
    (sessionId other : jsstring) (first handler : UserInputHandler)
    (request : UserInputRequest) :
  sessionId ≠ [] →
  let registered :=
    setUserInputHandler sessionId handler
      (setUserInputHandler sessionId first userInputHandlers) in
  getOrCreateSession_onUserInputRequest registered sessionId request
  = handler request
  ∧ createSession_onUserInputRequest registered sessionId other request
    = handler request
  ∧ (other ≠ sessionId →
       getOrCreateSession_onUserInputRequest registered other request
       = getOrCreateSession_onUserInputRequest userInputHandlers other request)
  ∧ getOrCreateSession_onUserInputRequest
      (clearUserInputHandler sessionId registered) sessionId request
    = Settled {| answer := []; wasFreeform := true |}
  ∧ createSession_onUserInputRequest
      (clearUserInputHandler sessionId registered) sessionId other request
    = Settled {| answer := []; wasFreeform := true |}.
Proof.
  intros Hne registered.
  assert (Hkey : or_else (or_else sessionId other) (or_else sessionId []) = sessionId)
    by (by destruct sessionId).
  unfold registered, setUserInputHandler, clearUserInputHandler,
    getOrCreateSession_onUserInputRequest, createSession_onUserInputRequest.
  cbv zeta. rewrite Hkey, !lookup_insert_eq, !lookup_delete_eq.
  repeat split. intros Hother. by rewrite !lookup_insert_ne.
Qed.

(** The responder registered last answers. *)
Lemma user_input_goes_to_the_registered_responder_witness :
  let yes : UserInputHandler :=
    λ _, Settled {| answer := js "yes"; wasFreeform := false |} in
  let no : UserInputHandler :=
    λ _, Settled {| answer := js "no"; wasFreeform := false |} in
  let request :=
    {| question := js "Go on?"; choices := None; allowFreeform := Some true |} in
  getOrCreateSession_onUserInputRequest
    (setUserInputHandler (js "s") yes (setUserInputHandler (js "s") no ∅))
    (js "s") request
  = Settled {| answer := js "yes"; wasFreeform := false |}.
Proof.
  intros yes no request.
  destruct (user_input_goes_to_the_registered_responder ∅ (js "s") (js "t") no yes
              request ltac:(discriminate)) as (H & _).
  exact H.
Defined.

(** * Properties of the synchronous mode *)

Section SyncFacts.
Import Sync.

Lemma setResult_withoutResult (id : jsstring) (r : ToolResult)
    (entries : list ToolCallEntry) :
  withoutResult <$> setResult id r entries = withoutResult <$> entries.
Proof.
  induction entries as [|t entries IH]; [done|].
  simpl. case_bool_decide; simpl; [done|]. f_equal. exact IH.
Qed.

Lemma setResult_first (id : jsstring) (r : ToolResult)
    (before after : list ToolCallEntry) (t : ToolCallEntry) :
  toolCallId t = id → (∀ x, x ∈ before → toolCallId x ≠ id) →
  setResult id r (before ++ t :: after)
  = before ++ {| toolName := toolName t; args := args t;
                 toolCallId := toolCallId t; result := Some r |} :: after.
Proof.
  intros Ht. induction before as [|x before IH]; intros Hb; simpl.
  - by rewrite bool_decide_eq_true_2.
  - rewrite bool_decide_eq_false_2 by (apply Hb; set_solver).
    rewrite IH; [done|]. intros y Hy. apply Hb. set_solver.
Qed.

Lemma setResult_unknown (id : jsstring) (r : ToolResult)
    (entries : list ToolCallEntry) :
  (∀ x, x ∈ entries → toolCallId x ≠ id) → setResult id r entries = entries.
Proof.
  induction entries as [|x entries IH]; intros Hb; simpl; [done|].
  rewrite bool_decide_eq_false_2 by (apply Hb; set_solver).
  rewrite IH; [done|]. intros y Hy. apply Hb. set_solver.
Qed.

Lemma listen_snoc (events : list Event) (e : Event) (st : State) :
  listen (events ++ [e]) st = handle e (listen events st).
Proof. unfold listen. by rewrite foldl_app. Qed.

Lemma elem_of_setResult (id : jsstring) (r : ToolResult)
    (entries : list ToolCallEntry) (y : ToolCallEntry) :
  y ∈ setResult id r entries → y ∈ entries ∨ toolCallId y = id.
Proof.
  induction entries as [|t entries IH]; [by left|]. simpl.
  case_bool_decide as Ht.
  - intros [->|Hy]%elem_of_cons; [by right|]. left. by apply elem_of_cons; right.
  - intros [->|Hy]%elem_of_cons; [left; by apply elem_of_cons; left|].
    destruct (IH Hy) as [?|?]; [left; by apply elem_of_cons; right|by right].
Qed.

Lemma setResult_firstOnly (id : jsstring) (r : ToolResult)
    (entries : list ToolCallEntry) :
  firstOnly entries → firstOnly (setResult id r entries).
Proof.
  induction entries as [|t entries IH]; [done|]. intros [Ht Hrest]. simpl.
  case_bool_decide as Hid.
  - split; [|done]. intros y Hy Hr. by apply Ht.
  - split; [|by apply IH]. intros y Hy Hr.
    destruct (elem_of_setResult _ _ _ _ Hy) as [Hin|Hy'].
    + by apply Ht.
    + congruence.
Qed.

Lemma snoc_firstOnly (entries : list ToolCallEntry) (t : ToolCallEntry) :
  result t = None → firstOnly entries → firstOnly (entries ++ [t]).
Proof.
  intros Hn. induction entries as [|x entries IH].
  { intros _. simpl. split; [by intros y ?%elem_of_nil|done]. }
  intros [Hx Hrest]. simpl. split; [|by apply IH].
  intros y [Hy| ->%list_elem_of_singleton]%elem_of_app Hr; [by apply Hx|done].
Qed.

Lemma firstOnly_split (before after : list ToolCallEntry) (t : ToolCallEntry) :
  firstOnly (before ++ t :: after) → result t ≠ None →
  ∀ x, x ∈ before → toolCallId x ≠ toolCallId t.
Proof.
  induction before as [|b before IH]; [by intros _ _ x ?%elem_of_nil|].
  intros [Hb Hrest] Hr x [->|Hx]%elem_of_cons.
  - intros Heq. apply (Hb t); [|done|done]. apply elem_of_app. right.
    by apply elem_of_cons; left.
  - by apply IH.
Qed.

(** X18. The tool log of [sendMessageSync] has one entry per start event,
    in the order of the starts and with their names, arguments and call
    ids; complete and error events never add or remove an entry. A
    terminal event, complete or error, stores its result (for an error the
    error text, or the default text when it is empty) in the first entry
    with its call id and changes no other entry. So an entry holds a
    result only if no earlier entry has its call id: when a call id is
    started twice, the later entry never receives a result. A terminal
    event for an id that was never started changes no entry. *)
Theorem sync_tool_log_follows_the_starts (events : list Event) :
  let st := listen events initial in
  withoutResult <$> toolCalls st = startedCalls events
  ∧ (∀ id r before t after,
       toolCalls st = before ++ t :: after →
       toolCallId t = id →
       (∀ x, x ∈ before → toolCallId x ≠ id) →
       toolCalls (handle (tool_execution_complete id r) st)
       = before ++ {| toolName := toolName t; args := args t;
                      toolCallId := toolCallId t; result := Some (Result r) |}
                :: after
       ∧ toolCalls (handle (tool_execution_error id r) st)
         = before ++ {| toolName := toolName t; args := args t;
                        toolCallId := toolCallId t;
                        result := Some (ErrorResult (or_else r toolFailedMessage)) |}
                  :: after)
  ∧ (∀ id r,
       (∀ x, x ∈ toolCalls st → toolCallId x ≠ id) →
       toolCalls (handle (tool_execution_complete id r) st) = toolCalls st
       ∧ toolCalls (handle (tool_execution_error id r) st) = toolCalls st)
  ∧ (∀ before t after,
       toolCalls st = before ++ t :: after →
       result t ≠ None →
       ∀ x, x ∈ before → toolCallId x ≠ toolCallId t).
Proof.
  cbv zeta. split; [|split; [|split]].
  - induction events as [|e events IH] using rev_ind; [done|].
    rewrite listen_snoc. unfold startedCalls. rewrite omap_app.
    fold (startedCalls events). rewrite <-IH.
    destruct e; simpl; rewrite ?app_nil_r, ?setResult_withoutResult; try done.
    by rewrite fmap_app.
  - intros id r before t after Hl Ht Hb. simpl. rewrite Hl.
    by rewrite !setResult_first.
  - intros id r Hb. simpl. by rewrite !setResult_unknown.
  - intros before t after Hl. apply (firstOnly_split before after).
    rewrite <-Hl. clear.
    induction events as [|e events IH] using rev_ind; [done|].
    rewrite listen_snoc.
    destruct e; simpl; try done;
      by first [apply snoc_firstOnly|apply setResult_firstOnly].
Qed.

(** X19. [sendMessageSync] always returns. When the session cannot be
    resolved it reports the error through [onError], returns empty content
    and leaves the cache alone. Otherwise the prompt is cached first; when
    [sendAndWait] rejects, the error goes to [onError] after the tool
    callbacks, the content returned is empty, the tool calls collected so
    far are returned, and the cache keeps the prompt and gains no assistant
    entry. When it resolves, [onError] is not invoked, and the content is
    recorded as the last entry of the session unless it is blank. *)
Theorem sync_outcomes (sessionId prompt : jsstring) (cache : Cache)
    (events : list Event) :
  let sent := addMessageToCache sessionId (js "user") prompt cache in
  let st := listen events initial in
  (∀ message answer,
     sendMessageSync (ResolutionFailed message) sessionId prompt cache events answer
     = (cache, [onError message],
        {| returned_content := []; returned_toolCalls := [] |}))
  ∧ (∀ message,
       sendMessageSync SessionResolved sessionId prompt cache events
         (Copilot.Throws message)
       = (sent, calls st ++ [onError message],
          {| returned_content := []; returned_toolCalls := toolCalls st |}))
  ∧ (∀ res,
       let out :=
         sendMessageSync SessionResolved sessionId prompt cache events
           (Copilot.Ok res) in
       let content := returned_content out.2 in
       content = or_else (data_content res) (result_content res)
       ∧ out.1.2 = calls st
       ∧ errors out.1.2 = []
       ∧ returned_toolCalls out.2 = toolCalls st
       ∧ {| role := js "user"; content := prompt |}
         ∈ messagesOf sessionId out.1.1
       ∧ (nonEmpty (trim content) = true →
            last (messagesOf sessionId out.1.1)
            = Some {| role := js "assistant"; content := content |})
       ∧ (nonEmpty (trim content) = false → out.1.1 = sent)).
Proof.
  cbv zeta. split; [done|]. split; [done|].
  intros res. simpl.
  assert (Hor : or_else (data_content res) (or_else (result_content res) [])
                = or_else (data_content res) (result_content res)).
  { by destruct (data_content res), (result_content res). }
  rewrite Hor. set (content := or_else (data_content res) (result_content res)).
  set (sent := addMessageToCache sessionId (js "user") prompt cache).
  assert (Hlast : last (messagesOf sessionId sent)
                  = Some {| role := js "user"; content := prompt |})
    by apply addMessageToCache_last.
  assert (Hlen : length (messagesOf sessionId sent) ≤ MAX_MESSAGES_PER_SESSION).
  { unfold sent. rewrite messagesOf_addMessageToCache, trimOldest_length. lia. }
  assert (Herr : errors (calls (listen events initial)) = []).
  { induction events as [|e events IH] using rev_ind; [done|].
    rewrite listen_snoc.
    destruct e; simpl; rewrite ?errors_app, ?IH; done. }
  split; [done|]. split; [done|]. split; [done|]. split; [done|].
  destruct (nonEmpty (trim content)) eqn:Eb.
  - split; [by apply last_entry_survives_append|].
    split; [|done]. intros _. apply addMessageToCache_last.
  - split; [|by split].
    apply list_elem_of_lookup.
    exists (pred (length (messagesOf sessionId sent))). by rewrite <-last_lookup.
Qed.

End SyncFacts.

(** * Properties of the agent store *)

Section AgentStoreFacts.
Import Copilot AgentStore.

Lemma with_isDefault_same (a : AgentConfig) : with_isDefault (isDefault a) a = a.
Proof. by destruct a. Qed.

Lemma findIndex_None (agentId : jsstring) (agents : list AgentConfig) :
  findIndex agentId agents = None ↔ agentId ∉ id <$> agents.
Proof.
  induction agents as [|a agents IH]; simpl.
  - split; [set_solver|done].
  - case_bool_decide as Ha.
    + split; [done|]. intros Hn. exfalso. apply Hn. rewrite Ha. set_solver.
    + rewrite fmap_None, IH. set_solver.
Qed.

Lemma saveAgent_head (agent a : AgentConfig) (agents : list AgentConfig) :
  id a = id agent → saveAgent agent (a :: agents) = agent :: agents.
Proof. intros Ha. unfold saveAgent. simpl. by rewrite bool_decide_eq_true_2. Qed.

Lemma saveAgent_tail (agent a : AgentConfig) (agents : list AgentConfig) :
  id a ≠ id agent → saveAgent agent (a :: agents) = a :: saveAgent agent agents.
Proof.
  intros Ha. unfold saveAgent. simpl. rewrite bool_decide_eq_false_2 by done.
  by destruct (findIndex (id agent) agents).
Qed.

Lemma saveAgent_new (agent : AgentConfig) (agents : list AgentConfig) :
  id agent ∉ id <$> agents → saveAgent agent agents = agents ++ [agent].
Proof. intros Hn. unfold saveAgent. by rewrite (proj2 (findIndex_None _ _) Hn). Qed.

(** In a store with distinct ids, saving an agent whose id is present
    replaces the agent of that id. *)
Lemma saveAgent_replaces (agent : AgentConfig) (agents : list AgentConfig) :
  NoDup (id <$> agents) → id agent ∈ id <$> agents →
  saveAgent agent agents
  = (λ a, if bool_decide (id a = id agent) then agent else a) <$> agents.
Proof.
  induction agents as [|a agents IH]; [set_solver|].
  rewrite fmap_cons, NoDup_cons. intros [Ha Hnd] Hin.
  destruct (decide (id a = id agent)) as [Heq|Hne].
  - rewrite saveAgent_head by done. simpl. rewrite bool_decide_eq_true_2 by done.
    f_equal. symmetry. rewrite <-(list_fmap_id agents) at 2.
    apply Forall_fmap_ext, Forall_forall. intros b Hb.
    rewrite bool_decide_eq_false_2; [done|].
    intros Hb'. apply Ha. rewrite Heq, <-Hb'. by apply list_elem_of_fmap_2.
  - rewrite saveAgent_tail by done. simpl. rewrite bool_decide_eq_false_2 by done.
    f_equal. apply IH; [done|]. set_solver.
Qed.

Lemma same_id_same_agent (agents : list AgentConfig) (a b : AgentConfig) :
  NoDup (id <$> agents) → a ∈ agents → b ∈ agents → id a = id b → a = b.
Proof.
  induction agents as [|c agents IH]; [set_solver|].
  rewrite fmap_cons, NoDup_cons. intros [Hc Hnd] Ha Hb Heq.
  apply elem_of_cons in Ha as [->|Ha]; apply elem_of_cons in Hb as [->|Hb].
  - done.
  - exfalso. apply Hc. rewrite Heq. by apply list_elem_of_fmap_2.
  - exfalso. apply Hc. rewrite <-Heq. by apply list_elem_of_fmap_2.
  - by apply IH.
Qed.

Lemma fmap_id_preserved (f : AgentConfig → AgentConfig) (agents : list AgentConfig) :
  (∀ a, a ∈ agents → id (f a) = id a) → id <$> (f <$> agents) = id <$> agents.
Proof.
  intros Hf. rewrite <-list_fmap_compose.
  apply Forall_fmap_ext, Forall_forall. intros a Ha. by apply Hf.
Qed.

Lemma defaults_preserved (f : AgentConfig → AgentConfig) (agents : list AgentConfig) :
  (∀ a, a ∈ agents → isDefault (f a) = isDefault a) →
  length (List.filter isDefault (f <$> agents)) = length (List.filter isDefault agents).
Proof.
  induction agents as [|a agents IH]; [done|]. intros Hf.
  assert (IH' : length (List.filter isDefault (f <$> agents))
                = length (List.filter isDefault agents)).
  { apply IH. intros b Hb. apply Hf. set_solver. }
  rewrite fmap_cons. cbn [List.filter]. rewrite (Hf a) by set_solver.
  destruct (isDefault a); cbn [length]; by rewrite IH'.
Qed.

Lemma find_by_id (agentId : jsstring) (agents : list AgentConfig) :
  match getAgentById agents agentId with
  | Some a => a ∈ agents ∧ id a = agentId
  | None => agentId ∉ id <$> agents
  end.
Proof.
  unfold getAgentById. induction agents as [|a agents IH]; simpl; [set_solver|].
  case_bool_decide as Ha; [set_solver|].
  destruct (List.find _ agents); set_solver.
Qed.

(** *** [setDefaultAgent] *)

Lemma id_replaced (a b b' : AgentConfig) :
  id b' = id b → id (if bool_decide (id a = id b) then b' else a) = id a.
Proof. intros Hb. case_bool_decide as Hab; [by rewrite Hb|done]. Qed.

Lemma clearDefault_loop (agentId : jsstring) (loaded store : list AgentConfig) :
  NoDup (id <$> store) → NoDup (id <$> loaded) →
  (∀ b, b ∈ loaded → b ∈ store) →
  foldl (clearDefault agentId) store loaded
  = (λ a, if bool_decide (id a ∈ id <$> loaded)
          then with_isDefault (isDefault a && bool_decide (id a = agentId)) a
          else a) <$> store.
Proof.
  revert store. induction loaded as [|b loaded IH]; intros store Hstore Hloaded Hsub.
  { cbn [foldl]. rewrite <-(list_fmap_id store) at 1.
    apply Forall_fmap_ext, Forall_forall. intros a _.
    rewrite bool_decide_eq_false_2; [done|]. rewrite fmap_nil. set_solver. }
  rewrite fmap_cons, NoDup_cons in Hloaded. destruct Hloaded as [Hb Hloaded].
  assert (Hbs : b ∈ store) by (apply Hsub; set_solver).
  cbn [foldl].
  assert (Hstep : clearDefault agentId store b
                  = (λ a, if bool_decide (id a = id b)
                          then with_isDefault (isDefault b && bool_decide (id b = agentId)) b
                          else a) <$> store).
  { unfold clearDefault.
    destruct (isDefault b) eqn:Ed; simpl.
    - case_bool_decide as Hid; simpl.
      + rewrite <-(list_fmap_id store) at 1.
        apply Forall_fmap_ext, Forall_forall. intros a Ha.
        case_bool_decide as Hab; [|done].
        rewrite (same_id_same_agent store a b) by done.
        rewrite <-Ed at 1. by rewrite with_isDefault_same.
      + rewrite saveAgent_replaces; [done|done|].
        simpl. by apply list_elem_of_fmap_2.
    - rewrite <-(list_fmap_id store) at 1.
      apply Forall_fmap_ext, Forall_forall. intros a Ha.
      case_bool_decide as Hab; [|done].
      rewrite (same_id_same_agent store a b) by done.
      rewrite <-Ed at 1. by rewrite with_isDefault_same. }
  rewrite Hstep, IH.
  - rewrite <-list_fmap_compose.
    apply Forall_fmap_ext, Forall_forall. intros a Ha.
    unfold compose. rewrite fmap_cons.
    destruct (decide (id a = id b)) as [Hab|Hab].
    + rewrite (bool_decide_eq_true_2 (id a = id b)) by done.
      assert (a = b) as -> by by apply (same_id_same_agent store).
      change (id (with_isDefault ?v b)) with (id b).
      rewrite (bool_decide_eq_false_2 (id b ∈ id <$> loaded)) by done.
      rewrite (bool_decide_eq_true_2 (id b ∈ id b :: (id <$> loaded)));
        [done|]. apply elem_of_cons. by left.
    + rewrite (bool_decide_eq_false_2 (id a = id b)) by done.
      destruct (decide (id a ∈ id <$> loaded)) as [Hal|Hal].
      * rewrite (bool_decide_eq_true_2 (id a ∈ id <$> loaded)) by done.
        rewrite (bool_decide_eq_true_2 (id a ∈ id b :: (id <$> loaded)));
          [done|]. apply elem_of_cons. by right.
      * rewrite (bool_decide_eq_false_2 (id a ∈ id <$> loaded)) by done.
        rewrite (bool_decide_eq_false_2 (id a ∈ id b :: (id <$> loaded)));
          [done|]. intros [?|?]%elem_of_cons; done.
  - rewrite fmap_id_preserved; [done|]. intros a _. by apply id_replaced.
  - done.
  - intros c Hc. apply list_elem_of_fmap. exists c. split; [|apply Hsub; set_solver].
    rewrite bool_decide_eq_false_2; [done|].
    intros Hcb. apply Hb. rewrite <-Hcb. by apply list_elem_of_fmap_2.
Qed.

Lemma setDefaultAgent_eq (agentId : jsstring) (agents : list AgentConfig)
    (target : AgentConfig) :
  NoDup (id <$> agents) → target ∈ agents → id target = agentId →
  setDefaultAgent agentId agents
  = ((λ a, with_isDefault (bool_decide (id a = agentId)) a) <$> agents,
     Ok (with_isDefault true target)).
Proof.
  intros Hnd Ht Hid. unfold setDefaultAgent.
  pose proof (find_by_id agentId agents) as Hf. unfold getAgentById in Hf.
  destruct (List.find _ agents) as [t|].
  2:{ exfalso. apply Hf. rewrite <-Hid. by apply list_elem_of_fmap_2. }
  destruct Hf as [Hin Hid'].
  assert (t = target) as -> by (apply (same_id_same_agent agents); congruence).
  cbv zeta. f_equal.
  rewrite clearDefault_loop by done.
  rewrite saveAgent_replaces.
  - rewrite <-list_fmap_compose.
    apply Forall_fmap_ext, Forall_forall. intros a Ha. simpl.
    rewrite (bool_decide_eq_true_2 (id a ∈ id <$> agents))
      by (by apply list_elem_of_fmap_2).
    simpl. rewrite Hid.
    destruct (decide (id a = agentId)) as [Ha'|Ha'].
    + rewrite !bool_decide_eq_true_2 by done.
      assert (a = target) as -> by (apply (same_id_same_agent agents); congruence).
      done.
    + rewrite !bool_decide_eq_false_2 by done. by rewrite andb_false_r.
  - rewrite fmap_id_preserved; [done|]. intros a _. by case_bool_decide.
  - rewrite fmap_id_preserved by (intros a _; by case_bool_decide).
    simpl. rewrite Hid, <-Hid'. by apply list_elem_of_fmap_2.
Qed.

Lemma no_default_by_id (agentId : jsstring) (agents : list AgentConfig) :
  agentId ∉ id <$> agents →
  List.filter isDefault
    ((λ a, with_isDefault (bool_decide (id a = agentId)) a) <$> agents) = [].
Proof.
  induction agents as [|a agents IH]; [done|].
  rewrite !fmap_cons, not_elem_of_cons. intros [Ha Hn]. cbn [List.filter].
  change (isDefault (with_isDefault ?v a)) with v.
  rewrite (bool_decide_eq_false_2 (id a = agentId)) by done. by apply IH.
Qed.

Lemma one_default_by_id (agentId : jsstring) (agents : list AgentConfig) :
  NoDup (id <$> agents) → agentId ∈ id <$> agents →
  length (List.filter isDefault
            ((λ a, with_isDefault (bool_decide (id a = agentId)) a) <$> agents)) = 1.
Proof.
  induction agents as [|a agents IH]; [set_solver|].
  rewrite !fmap_cons, NoDup_cons, elem_of_cons. intros [Ha Hnd] Hin.
  cbn [List.filter]. change (isDefault (with_isDefault ?v a)) with v.
  destruct (decide (id a = agentId)) as [Hid|Hid].
  - rewrite (bool_decide_eq_true_2 (id a = agentId)) by done.
    rewrite no_default_by_id; [done|]. by rewrite <-Hid.
  - rewrite (bool_decide_eq_false_2 (id a = agentId)) by done.
    apply IH; [done|]. by destruct Hin.
Qed.

Lemma find_default (agents : list AgentConfig) :
  0 < length (List.filter isDefault agents) →
  ∃ d, getDefaultAgentConfig agents = Some d ∧ d ∈ agents ∧ isDefault d = true.
Proof.
  intros Hlen. unfold getDefaultAgentConfig.
  destruct (List.find isDefault agents) as [d|] eqn:Ef.
  - exists d. apply find_elem_of in Ef as [Hin Hd]. done.
  - exfalso. destruct (List.filter isDefault agents) as [|d l] eqn:El; [simpl in Hlen; lia|].
    assert (Hin : In d (List.filter isDefault agents)) by (rewrite El; by left).
    apply filter_In in Hin as [Hin Hd].
    by rewrite (find_none _ _ Ef d Hin) in Hd.
Qed.

Lemma setDefaultAgent_unknown (agentId : jsstring) (agents : list AgentConfig) :
  agentId ∉ id <$> agents →
  setDefaultAgent agentId agents = (agents, Throws (agentNotFound agentId)).
Proof.
  intros Hn. unfold setDefaultAgent.
  pose proof (find_by_id agentId agents) as Hf. unfold getAgentById in Hf.
  destruct (List.find _ agents) as [t|]; [|done].
  destruct Hf as [Hin <-]. exfalso. apply Hn. by apply list_elem_of_fmap_2.
Qed.

(** X20. In a store whose ids are distinct, [setDefaultAgent] with the id
    of a stored agent leaves exactly that agent as the default: the ids,
    their order and the other fields of every agent are kept, an agent of
    the result is the default if and only if it has the given id, and
    [getDefaultAgentConfig] then finds the agent returned. With an id that
    is not in the store it throws and the store is left as it was. *)
Theorem setDefaultAgent_makes_the_only_default
    (agentId : jsstring) (agents : list AgentConfig) :
  NoDup (id <$> agents) →
  let result := setDefaultAgent agentId agents in
  (agentId ∉ id <$> agents → result = (agents, Throws (agentNotFound agentId)))
  ∧ (agentId ∈ id <$> agents →
       id <$> result.1 = id <$> agents
       ∧ preferredModel <$> result.1 = preferredModel <$> agents
       ∧ permissionPolicy <$> result.1 = permissionPolicy <$> agents
       ∧ (∀ a, a ∈ result.1 → (isDefault a = true ↔ id a = agentId))
       ∧ ∃ target,
           result.2 = Ok target
           ∧ id target = agentId
           ∧ isDefault target = true
           ∧ getDefaultAgentConfig result.1 = Some target).
Proof.
  intros Hnd result. split; [by apply setDefaultAgent_unknown|].
  intros Hin. apply list_elem_of_fmap in Hin as (target & Hid & Ht).
  symmetry in Hid. unfold result.
  rewrite (setDefaultAgent_eq agentId agents target) by done. cbn [fst snd].
  assert (Hall : ∀ a, a ∈ (λ a, with_isDefault (bool_decide (id a = agentId)) a)
                            <$> agents →
                      isDefault a = true ↔ id a = agentId).
  { intros a Ha. apply list_elem_of_fmap in Ha as (b & -> & Hb).
    change (bool_decide (id b = agentId) = true ↔ id b = agentId).
    apply bool_decide_eq_true. }
  split; [|split; [|split; [|split]]].
  - by apply fmap_id_preserved.
  - rewrite <-list_fmap_compose. by apply Forall_fmap_ext, Forall_forall.
  - rewrite <-list_fmap_compose. by apply Forall_fmap_ext, Forall_forall.
  - exact Hall.
  - exists (with_isDefault true target). split; [done|]. split; [done|].
    split; [done|].
    destruct (find_default
                ((λ a, with_isDefault (bool_decide (id a = agentId)) a) <$> agents))
      as (d & Hd & Hdin & Hdd).
    { rewrite one_default_by_id; [lia|done|].
      rewrite <-Hid. by apply list_elem_of_fmap_2. }
    rewrite Hd. f_equal.
    apply list_elem_of_fmap in Hdin as (b & -> & Hb).
    change (bool_decide (id b = agentId) = true) in Hdd.
    apply bool_decide_eq_true in Hdd.
    assert (b = target) as -> by (apply (same_id_same_agent agents); congruence).
    by rewrite bool_decide_eq_true_2.
Qed.

(** Making the coder the default among the agents of a new agents file. *)
Lemma setDefaultAgent_makes_the_only_default_witness :
  isDefault <$> (setDefaultAgent (js "coder") defaultAgents).1
  = [false; true; false; false]
  ∧ ∃ target,
      getDefaultAgentConfig (setDefaultAgent (js "coder") defaultAgents).1
      = Some target
      ∧ id target = js "coder".
Proof.
  split; [reflexivity|].
  destruct (setDefaultAgent_makes_the_only_default (js "coder") defaultAgents
              ltac:(compute_done))
    as [_ Hset].
  destruct Hset as (_ & _ & _ & _ & target & _ & Hid & _ & Hdef).
  { compute_done. }
  exists target. by split.
Defined.

(** *** The store under the requests of the server *)

Lemma filter_delete_false {A} (f : A → bool) (l : list A) (i : nat) (a : A) :
  l !! i = Some a → f a = false → List.filter f (delete i l) = List.filter f l.
Proof.
  revert i. induction l as [|x l IH]; intros [|i] Hl Hf; try done.
  - injection Hl as ->. simpl. by rewrite Hf.
  - simpl. rewrite (IH i) by done. done.
Qed.

Lemma serve_wellFormed (agents : list AgentConfig) (request : Request) :
  wellFormed agents →
  match request with
  | create_agent generatedId _ => generatedId ∉ id <$> agents
  | _ => True
  end →
  wellFormed (serve agents request).
Proof.
  intros [Hnd Hone] Hfresh.
  destruct request as [generatedId requestedModel|agentId requestedModel
                       |agentId|agentId]; cbn [serve].
  - unfold createAgent. cbn [fst]. rewrite saveAgent_new by done. split.
    + rewrite fmap_app. apply NoDup_app. split; [done|]. split.
      * intros x Hx Hx'. apply list_elem_of_singleton in Hx'. by subst.
      * apply NoDup_singleton.
    + rewrite List.filter_app. simpl. by rewrite app_nil_r.
  - unfold updateAgent. pose proof (find_by_id agentId agents) as Hf.
    destruct (getAgentById agents agentId) as [existing|]; [|done].
    destruct Hf as [Hin Hid]. cbn [fst].
    rewrite saveAgent_replaces;
      [|done|exact (list_elem_of_fmap_2 id agents existing Hin)]. split.
    + rewrite fmap_id_preserved; [done|]. intros a _. by apply id_replaced.
    + rewrite defaults_preserved; [done|]. intros a Ha.
      change (id {| id := id existing; isDefault := _; preferredModel := _;
                    permissionPolicy := _ |}) with (id existing).
      case_bool_decide as Hae; [|done].
      by rewrite (same_id_same_agent agents a existing).
  - unfold deleteAgent. destruct (findIndex agentId agents) as [index|]; [|done].
    destruct (agents !! index) as [a|] eqn:Ea; [|done].
    destruct (isDefault a) eqn:Ed; [done|]. cbn [fst]. split.
    + rewrite list_fmap_delete. eapply sublist_NoDup; [done|apply sublist_delete].
    + by rewrite (filter_delete_false _ _ _ a).
  - destruct (decide (agentId ∈ id <$> agents)) as [Hin|Hn].
    + apply list_elem_of_fmap in Hin as (target & Hid & Ht). symmetry in Hid.
      rewrite (setDefaultAgent_eq agentId agents target) by done. cbn [fst]. split.
      * by rewrite fmap_id_preserved.
      * apply one_default_by_id; [done|]. rewrite <-Hid. by apply list_elem_of_fmap_2.
    + by rewrite setDefaultAgent_unknown.
Qed.

Lemma resolved_with_default (agents : list AgentConfig) (model agentId : jsstring) :
  0 < length (List.filter isDefault agents) →
  ∃ agent model', agent ∈ agents ∧ resolved agents model agentId = Ok (id agent, model').
Proof.
  intros Hlen. destruct (find_default agents Hlen) as (d & Hd & Hin & _).
  unfold resolved. pose proof (find_by_id agentId agents) as Hf.
  destruct (nonEmpty agentId).
  - destruct (getAgentById agents agentId) as [a|].
    + destruct Hf as [Ha _]. by exists a, (or_else (preferredModel a) model).
    + rewrite Hd. by exists d, model.
  - rewrite Hd. by exists d, model.
Qed.

(** X21. The agent store keeps exactly one default agent. From a store
    with distinct ids and one default agent, every sequence of create,
    update, delete and set-default requests, whether they succeed or throw,
    leaves a store with distinct ids and one default agent, provided the
    ids generated for new agents are not in use: the default agent cannot
    be deleted or replaced. So [getDefaultAgentConfig] always finds a
    default agent, and the agent resolution of [createSession] always
    settles on a stored agent instead of failing on a missing one. *)
Theorem agent_store_keeps_one_default
    (agents : list AgentConfig) (requests : list Request) :
  wellFormed agents → freshIds requests agents →
  let store := foldl serve agents requests in
  wellFormed store
  ∧ (∃ d, getDefaultAgentConfig store = Some d ∧ d ∈ store ∧ isDefault d = true)
  ∧ ∀ model agentId,
      ∃ agent model',
        agent ∈ store ∧ resolved store model agentId = Ok (id agent, model').
Proof.
  intros Hwf Hfresh store.
  assert (Hstore : wellFormed store).
  { unfold store. clear store. revert agents Hwf Hfresh.
    induction requests as [|request requests IH]; intros agents Hwf Hfresh; [done|].
    cbn [foldl]. destruct Hfresh as [Hr Hfresh].
    apply IH; [|done]. by apply serve_wellFormed. }
  split; [done|]. destruct Hstore as [_ Hone]. split.
  - apply find_default. lia.
  - intros model agentId. apply resolved_with_default. lia.
Qed.

(** A new agent is made the default, and the old default is then deleted. *)
Lemma agent_store_keeps_one_default_witness :
  let store :=
    foldl serve defaultAgents
      [create_agent (js "agent_1") (js "gpt-5"); delete_agent (js "default");
       set_default_agent (js "agent_1"); delete_agent (js "default");
       update_agent (js "agent_1") None] in
  id <$> List.filter isDefault store = [js "agent_1"]
  ∧ ∃ d, getDefaultAgentConfig store = Some d ∧ d ∈ store ∧ isDefault d = true.
Proof.
  intros store. split; [reflexivity|].
  destruct (agent_store_keeps_one_default defaultAgents
              [create_agent (js "agent_1") (js "gpt-5"); delete_agent (js "default");
               set_default_agent (js "agent_1"); delete_agent (js "default");
               update_agent (js "agent_1") None])
    as (_ & Hd & _).
  - split; [compute_done|reflexivity].
  - repeat split. compute_done.
  - exact Hd.
Defined.

End AgentStoreFacts.

(** * Properties of the server's synchronous event *)

Section ServerFacts.
Import Sync Server.

Lemma emitted_never_complete (cs : list Callback) :
  List.filter isComplete (concat (emitted <$> cs)) = [].
Proof.
  induction cs as [|cb cs IH]; [done|].
  rewrite fmap_cons. cbn [concat]. rewrite List.filter_app, IH.
  by destruct cb.
Qed.

Lemma emitted_errors (cs : list Callback) :
  List.filter isError (concat (emitted <$> cs)) = message_error <$> errors cs.
Proof.
  induction cs as [|cb cs IH]; [done|].
  rewrite fmap_cons. cbn [concat]. rewrite List.filter_app, IH.
  by destruct cb.
Qed.

Lemma listen_no_error (events : list Event) :
  errors (calls (listen events initial)) = [].
Proof.
  induction events as [|e events IH] using rev_ind; [done|].
  rewrite listen_snoc. destruct e; simpl; rewrite ?errors_app, ?IH; done.
Qed.

(** X22. The synchronous event of the server always ends with exactly one
    [message-complete], its last emission, and leaves no user input
    responder registered for the session, whatever was registered before. A
    failure is no exception: when the session cannot be resolved or
    [sendAndWait] rejects, the client receives [message-error] and then,
    right after it, [message-complete] with empty content. Without a
    failure no [message-error] is emitted. *)
Theorem sync_event_completes_even_after_an_error
    (resolved : Resolution) (sessionId prompt : jsstring) (cache : Cache)
    (userInputHandlers : gmap jsstring UserInputHandler)
    (responder : UserInputHandler) (events : list Event)
    (answer : Copilot.Result WaitResult) :
  let out :=
    on_send_message_sync resolved sessionId prompt cache userInputHandlers
      responder events answer in
  let emits := out.2 in
  (∃ before content toolCalls,
     emits = message_start :: before ++ [message_complete content toolCalls]
     ∧ List.filter isComplete before = [])
  ∧ out.1.2 !! sessionId = None
  ∧ (∀ message, resolved = ResolutionFailed message →
       emits = [message_start; message_error message; message_complete [] []])
  ∧ (∀ message, resolved = SessionResolved → answer = Copilot.Throws message →
       ∃ before toolCalls,
         emits = message_start :: before
                 ++ [message_error message; message_complete [] toolCalls]
         ∧ List.filter isError before = [])
  ∧ (∀ res, resolved = SessionResolved → answer = Copilot.Ok res →
       List.filter isError emits = []).
Proof.
  cbv zeta. unfold on_send_message_sync.
  destruct (sendMessageSync resolved sessionId prompt cache events answer)
    as [[cache' cs] result] eqn:Hsync.
  cbn [fst snd]. split; [|split; [|split; [|split]]].
  - exists (concat (emitted <$> cs)), (returned_content result),
      (returned_toolCalls result).
    split; [done|]. apply emitted_never_complete.
  - unfold clearUserInputHandler. apply lookup_delete_eq.
  - intros message ->. simpl in Hsync. by injection Hsync as <- <- <-.
  - intros message -> ->. simpl in Hsync. injection Hsync as <- <- <-.
    exists (concat (emitted <$> calls (listen events initial))),
      (toolCalls (listen events initial)).
    split.
    + rewrite fmap_app, concat_app. simpl. by rewrite <-app_assoc.
    + by rewrite emitted_errors, listen_no_error.
  - intros res -> ->. simpl in Hsync. injection Hsync as <- <- <-.
    cbn [app List.filter isError]. rewrite List.filter_app, emitted_errors, listen_no_error.
    done.
Qed.

End ServerFacts.
